(** * mcp-gateway: multi-scope index merge, statistics selection, tool execution

    A shallow embedding of
    - [packages/mcp/src/utils/tool-deduplication.ts]
      ([mergeIndexedTools], [selectBM25Stats], [hasAnyEmbeddings]),
    - the [ToolExecutor] class (connection cache, [createTransport],
      [getClient], [callTool]),
    - the BM25 inverse document frequency of the lexical strategy,
    together with the properties the specification states about them. *)

From Stdlib Require Import QArith Qcanon Reals Lra.
From stdpp Require Import gmap strings list fin_maps pretty.

Set Default Proof Using "Type".
Local Open Scope string_scope.
Local Open Scope list_scope.
#[local] Set Warnings "-clear-no-such-hyp".

(** ** Document model *)

(** The opaque [inputSchema] blob of a tool is JSON. *)
#[local] Unset Elimination Schemes.
Inductive JsonValue : Type :=
  | JNull
  | JBool (b : bool)
  | JNumber (n : Z)
  | JString (s : string)
  | JArray (items : list JsonValue)
  | JObject (fields : list (string * JsonValue)).
#[local] Set Elimination Schemes.

(** Modelled from the spec: the declarations of [ToolMetadata], [IndexedTool],
    [BM25Stats] and [PersistedIndex] live in [@pleaseai/mcp-core], which is
    imported by the source but not part of it; the fields are the ones of the
    index file format. *)
Record ToolMetadata := {
  name : string;
  title : option string;
  description : string;
  inputSchema : JsonValue;
}.

Record IndexedTool := {
  tool : ToolMetadata;
  searchableText : string;
  tokens : list string;
  embedding : option (list Qc);
  serverName : option string;
}.

Record BM25Stats := {
  avgDocLength : Qc;
  documentFrequencies : gmap string nat;
  totalDocuments : nat;
}.

(** [bm25Stats] and [hasEmbeddings] are read through [?.] and [??] in the
    source, so both are modelled as possibly [undefined]. *)
Record PersistedIndex := {
  version : string;
  createdAt : string;
  embeddingProvider : option string;
  embeddingDimensions : nat;
  tools : list IndexedTool;
  bm25Stats : option BM25Stats;
  hasEmbeddings : option bool;
}.

(** [tool.tool.name] *)
Definition tool_name (t : IndexedTool) : string := name (tool t).

(** ** The insertion-ordered [Map<string, IndexedTool>]

    An ECMAScript [Map] keeps its entries in a list ordered by first
    insertion.  [Map.prototype.set] walks that list: an entry whose key is
    the given key has its value overwritten where it stands, and only when no
    entry matches is a new one added at the end. *)
Module JsMap.

Definition t (V : Type) : Type := list (string * V).

Definition empty {V} : t V := [].

Fixpoint set {V} (k : string) (v : V) (m : t V) : t V :=
  match m with
  | [] => [(k, v)]
  | (k', v') :: m' =>
      if String.eqb k' k then (k', v) :: m' else (k', v') :: set k v m'
  end.

Fixpoint has {V} (k : string) (m : t V) : bool :=
  match m with
  | [] => false
  | (k', _) :: m' => if String.eqb k' k then true else has k m'
  end.

Fixpoint get {V} (k : string) (m : t V) : option V :=
  match m with
  | [] => None
  | (k', v') :: m' => if String.eqb k' k then Some v' else get k m'
  end.

Definition keys {V} (m : t V) : list string := m.*1.

(** [Array.from(m.values())] *)
Definition values {V} (m : t V) : list V := m.*2.

End JsMap.

(** ** [mergeIndexedTools] *)

(** The local variables of [mergeIndexedTools], and what it wrote with
    [console.error]. *)
Record MergeState := {
  toolMap : JsMap.t IndexedTool;
  overrideCount : nat;
  console : list string;
}.

Definition override_message (n : string) : string :=
  "[DEBUG] Tool '" +:+ n +:+ "' from project overrides user version".

Definition summary_message (count : nat) : string :=
  "[DEBUG] Merged indexes: " +:+ pretty count +:+
  " tool(s) overridden by project scope".

Section merge.
(** [const DEBUG = process.env.MCP_GATEWAY_DEBUG === 'true'] *)
Variable DEBUG : bool.

(** Body of the loop over [userIndex.tools]. *)
Definition add_user_tool (st : MergeState) (tl : IndexedTool) : MergeState :=
  {| toolMap := JsMap.set (tool_name tl) tl (toolMap st);
     overrideCount := overrideCount st;
     console := console st |}.

(** Body of the loop over [projectIndex.tools]. *)
Definition add_project_tool (st : MergeState) (tl : IndexedTool) : MergeState :=
  let st1 :=
    if DEBUG && JsMap.has (tool_name tl) (toolMap st)
    then {| toolMap := toolMap st;
            overrideCount := S (overrideCount st);
            console := console st ++ [override_message (tool_name tl)] |}
    else st in
  {| toolMap := JsMap.set (tool_name tl) tl (toolMap st1);
     overrideCount := overrideCount st1;
     console := console st1 |}.

Definition merge_run (projectIndex userIndex : option PersistedIndex)
  : list IndexedTool * list string :=
  let st0 := {| toolMap := JsMap.empty; overrideCount := 0; console := [] |} in
  let st1 :=
    match userIndex with
    | Some ui => fold_left add_user_tool (tools ui) st0
    | None => st0
    end in
  let st2 :=
    match projectIndex with
    | Some pi => fold_left add_project_tool (tools pi) st1
    | None => st1
    end in
  let st3 :=
    if DEBUG && bool_decide (0 < overrideCount st2)
    then {| toolMap := toolMap st2;
            overrideCount := overrideCount st2;
            console := console st2 ++ [summary_message (overrideCount st2)] |}
    else st2 in
  (JsMap.values (toolMap st3), console st3).

Definition mergeIndexedTools (projectIndex userIndex : option PersistedIndex)
  : list IndexedTool :=
  (merge_run projectIndex userIndex).1.
End merge.

(** ** [selectBM25Stats] and [hasAnyEmbeddings] *)

(** [a ?? b] *)
Definition nullish {A} (a b : option A) : option A :=
  match a with
  | Some x => Some x
  | None => b
  end.

Definition default_stats : BM25Stats :=
  {| avgDocLength := 0%Qc; documentFrequencies := ∅; totalDocuments := 0 |}.

Definition selectBM25Stats (projectIndex userIndex : option PersistedIndex)
  : BM25Stats :=
  let baseStats :=
    nullish (projectIndex ≫= bm25Stats) (userIndex ≫= bm25Stats) in
  match baseStats with
  | None => default_stats
  | Some s => s
  end.

Definition hasAnyEmbeddings (projectIndex userIndex : option PersistedIndex)
  : bool :=
  default false (nullish (projectIndex ≫= hasEmbeddings) (Some false))
  || default false (nullish (userIndex ≫= hasEmbeddings) (Some false)).

(** ** Sample data *)

Definition mk_tool (n d : string) : IndexedTool :=
  {| tool := {| name := n; title := None; description := d;
                inputSchema := JObject [] |};
     searchableText := n +:+ " " +:+ d;
     tokens := [n];
     embedding := None;
     serverName := None |}.

Definition mk_index (ts : list IndexedTool) : PersistedIndex :=
  {| version := "1.0.0"; createdAt := "2025-01-01T00:00:00.000Z";
     embeddingProvider := None; embeddingDimensions := 0;
     tools := ts; bm25Stats := None; hasEmbeddings := Some false |}.

Definition sample_stats (n : nat) : BM25Stats :=
  {| avgDocLength := Q2Qc (7 # 2); documentFrequencies := {[ "read" := 1 ]};
     totalDocuments := n |}.

Definition with_stats (ix : PersistedIndex) (s : BM25Stats) : PersistedIndex :=
  {| version := version ix; createdAt := createdAt ix;
     embeddingProvider := embeddingProvider ix;
     embeddingDimensions := embeddingDimensions ix;
     tools := tools ix; bm25Stats := Some s; hasEmbeddings := hasEmbeddings ix |}.

(** ** The merge as a fold *)

Definition named (n : string) (t : IndexedTool) : Prop := tool_name t = n.

#[global] Instance named_dec n t : Decision (named n t).
Proof. unfold named. apply _. Defined.

Definition names (l : list IndexedTool) : list string := tool_name <$> l.

(** The tools a possibly absent index contributes. *)
Definition tools_of (ix : option PersistedIndex) : list IndexedTool :=
  from_option tools [] ix.

Definition with_tools (ix : PersistedIndex) (l : list IndexedTool)
  : PersistedIndex :=
  {| version := version ix; createdAt := createdAt ix;
     embeddingProvider := embeddingProvider ix;
     embeddingDimensions := embeddingDimensions ix;
     tools := l; bm25Stats := bm25Stats ix; hasEmbeddings := hasEmbeddings ix |}.

(** What either loop does to [toolMap]. *)
Definition set_all (l : list IndexedTool) (m : JsMap.t IndexedTool)
  : JsMap.t IndexedTool :=
  fold_left (λ m t, JsMap.set (tool_name t) t m) l m.

(** Every key is the name of the tool stored under it. *)
Definition keyed (m : JsMap.t IndexedTool) : Prop :=
  Forall (λ kv, kv.1 = tool_name kv.2) m.

(** The project index cut down to the tools whose names the user index does
    not have. *)
Definition new_in_project (project user : option PersistedIndex)
  : option PersistedIndex :=
  (λ px, with_tools px
           (filter (λ t, tool_name t ∉ names (tools_of user)) (tools px)))
    <$> project.

(** The value a name ends up with once the tools of [l] are written over
    [old]: the last tool of that name in [l], else [old]. *)
Definition overridden_by (l : list IndexedTool) (old : IndexedTool)
  : IndexedTool :=
  default old (last (filter (named (tool_name old)) l)).

(** A map with every value replaced by the last tool of [l] that has its
    key, when there is one. *)
Definition updated_by (l : list IndexedTool) (m : JsMap.t IndexedTool)
  : JsMap.t IndexedTool :=
  (λ kv, (kv.1, default kv.2 (last (filter (named kv.1) l)))) <$> m.

(** ** The merge as the specification words it

    "Build an ordered map by inserting user's tools first, keyed by tool
    name, preserving their order; then overlay project's tools onto the same
    map.  If a key already exists, its value is replaced but its position in
    the output order is unchanged; if a key is new, it is appended at the
    end."  The ordered map is written here as the output sequence itself,
    updated by position. *)
Definition overlay_one (out : list IndexedTool) (t : IndexedTool)
  : list IndexedTool :=
  match list_find (named (tool_name t)) out with
  | Some (i, _) => <[i := t]> out
  | None => out ++ [t]
  end.

Definition spec_mergeTools (project user : option PersistedIndex)
  : list IndexedTool :=
  fold_left overlay_one (tools_of project)
    (fold_left overlay_one (tools_of user) []).

(** ** The same three functions over a store of objects

    To speak about mutation and sharing, objects live in a heap and are
    passed by reference, as they are in JavaScript.  An index object refers
    to its [tools] array and to its [bm25Stats] object; an array holds
    references to tool objects; the [Map] built by the merge is an object
    of its own.  A step that dereferences something of the wrong kind has
    no outcome ([None]); well-typed callers never reach one. *)
Module Ref.

Definition loc := positive.

Record IndexObj := {
  ix_version : string;
  ix_createdAt : string;
  ix_embeddingProvider : option string;
  ix_embeddingDimensions : nat;
  ix_tools : loc;
  ix_bm25Stats : option loc;
  ix_hasEmbeddings : option bool;
}.

Inductive obj : Type :=
  | OTool (t : IndexedTool)
  | OStats (s : BM25Stats)
  | OArray (items : list loc)
  | OMap (entries : JsMap.t loc)
  | OIndex (ix : IndexObj).

Record World := {
  heap : gmap loc obj;
  stderr : list string;
}.

Definition M (A : Type) : Type := World → option (A * World).

#[global] Instance M_ret : MRet M := λ A a w, Some (a, w).
#[global] Instance M_bind : MBind M := λ A B f m w,
  match m w with
  | Some (a, w') => f a w'
  | None => None
  end.

Definition stuck {A} : M A := λ _, None.

(** [new ...], object and array literals *)
Definition alloc (o : obj) : M loc := λ w,
  let l := fresh (dom (heap w)) in
  Some (l, {| heap := <[l := o]> (heap w); stderr := stderr w |}).

Definition read (l : loc) : M obj := λ w,
  match heap w !! l with
  | Some o => Some (o, w)
  | None => None
  end.

Definition write (l : loc) (o : obj) : M unit := λ w,
  match heap w !! l with
  | Some _ => Some ((), {| heap := <[l := o]> (heap w); stderr := stderr w |})
  | None => None
  end.

Definition console_error (line : string) : M unit := λ w,
  Some ((), {| heap := heap w; stderr := stderr w ++ [line] |}).

Definition read_index (l : loc) : M IndexObj :=
  o ← read l; match o with OIndex ix => mret ix | _ => stuck end.

Definition read_array (l : loc) : M (list loc) :=
  o ← read l; match o with OArray items => mret items | _ => stuck end.

Definition read_map (l : loc) : M (JsMap.t loc) :=
  o ← read l; match o with OMap es => mret es | _ => stuck end.

(** [tool.tool.name] *)
Definition read_tool_name (l : loc) : M string :=
  o ← read l; match o with OTool t => mret (tool_name t) | _ => stuck end.

(** [toolMap.set(k, v)] *)
Definition map_set (mref : loc) (k : string) (v : loc) : M unit :=
  es ← read_map mref; write mref (OMap (JsMap.set k v es)).

(** [toolMap.has(k)] *)
Definition map_has (mref : loc) (k : string) : M bool :=
  es ← read_map mref; mret (JsMap.has k es).

(** A [for ... of] loop whose body updates the local variable [acc]. *)
Fixpoint for_of {A B} (body : B → A → M B) (items : list A) (acc : B) : M B :=
  match items with
  | [] => mret acc
  | x :: items' => acc' ← body acc x; for_of body items' acc'
  end.

Section merge.
Variable DEBUG : bool.

Definition user_loop_body (toolMap : loc) (_ : unit) (tl : loc) : M unit :=
  n ← read_tool_name tl;
  map_set toolMap n tl.

Definition project_loop_body (toolMap : loc) (overrideCount : nat) (tl : loc)
  : M nat :=
  n ← read_tool_name tl;
  overridden ← ((if DEBUG then map_has toolMap n else mret false) : M bool);
  overrideCount' ←
    ((if overridden : bool
      then console_error (override_message n);; mret (S overrideCount)
      else mret overrideCount) : M nat);
  map_set toolMap n tl;;
  mret overrideCount'.

Definition mergeIndexedTools (projectIndex userIndex : option loc) : M loc :=
  toolMap ← alloc (OMap JsMap.empty);
  match userIndex with
  | Some ui =>
      ix ← read_index ui;
      items ← read_array (ix_tools ix);
      for_of (user_loop_body toolMap) items ()
  | None => mret ()
  end;;
  overrideCount ←
    match projectIndex with
    | Some pi =>
        ix ← read_index pi;
        items ← read_array (ix_tools ix);
        for_of (project_loop_body toolMap) items 0
    | None => mret 0
    end;
  ((if DEBUG && bool_decide (0 < overrideCount)
    then console_error (summary_message overrideCount)
    else mret ()) : M unit);;
  es ← read_map toolMap;
  alloc (OArray (JsMap.values es)).
End merge.

(** [index?.bm25Stats] *)
Definition stats_of (index : option loc) : M (option loc) :=
  match index with
  | Some l => ix ← read_index l; mret (ix_bm25Stats ix)
  | None => mret None
  end.

Definition selectBM25Stats (projectIndex userIndex : option loc) : M loc :=
  ps ← stats_of projectIndex;
  baseStats ←
    match ps with
    | Some s => mret (Some s)
    | None => stats_of userIndex
    end;
  match baseStats with
  | None => alloc (OStats default_stats)
  | Some s => mret s
  end.

(** [index?.hasEmbeddings ?? false] *)
Definition embeddings_of (index : option loc) : M bool :=
  match index with
  | Some l => ix ← read_index l; mret (default false (ix_hasEmbeddings ix))
  | None => mret false
  end.

Definition hasAnyEmbeddings (projectIndex userIndex : option loc) : M bool :=
  embeddings_of projectIndex ≫= λ p : bool,
  if p then mret true else embeddings_of userIndex.

(** *** Well-typed references and the values they denote *)

Definition is_tool (h : gmap loc obj) (l : loc) : Prop :=
  ∃ t, h !! l = Some (OTool t).

(** [l] refers to a [PersistedIndex]. *)
Definition is_index (h : gmap loc obj) (l : loc) : Prop :=
  ∃ ix items,
    h !! l = Some (OIndex ix)
    ∧ h !! ix_tools ix = Some (OArray items)
    ∧ Forall (is_tool h) items
    ∧ ∀ s, ix_bm25Stats ix = Some s → ∃ st, h !! s = Some (OStats st).

(** The argument type [PersistedIndex | null]. *)
Definition well_typed (h : gmap loc obj) (index : option loc) : Prop :=
  ∀ l, index = Some l → is_index h l.

Definition tool_at (h : gmap loc obj) (l : loc) : option IndexedTool :=
  match h !! l with
  | Some (OTool t) => Some t
  | _ => None
  end.

Definition stats_at (h : gmap loc obj) (l : loc) : option BM25Stats :=
  match h !! l with
  | Some (OStats s) => Some s
  | _ => None
  end.

(** The tools an array of references denotes. *)
Definition array_at (h : gmap loc obj) (l : loc) : option (list IndexedTool) :=
  match h !! l with
  | Some (OArray items) => mapM (tool_at h) items
  | _ => None
  end.

(** The [PersistedIndex] value an index object denotes. *)
Definition index_at (h : gmap loc obj) (l : loc) : option PersistedIndex :=
  match h !! l with
  | Some (OIndex ix) =>
      ts ← array_at h (ix_tools ix);
      st ← match ix_bm25Stats ix with
           | Some s => Some <$> stats_at h s
           | None => Some None
           end;
      Some {| version := ix_version ix; createdAt := ix_createdAt ix;
              embeddingProvider := ix_embeddingProvider ix;
              embeddingDimensions := ix_embeddingDimensions ix;
              tools := ts; bm25Stats := st;
              hasEmbeddings := ix_hasEmbeddings ix |}
  | _ => None
  end.

(** The references the [tools] array of an argument holds. *)
Definition items_of (h : gmap loc obj) (index : option loc) : list loc :=
  match index with
  | Some l =>
      match h !! l with
      | Some (OIndex ix) =>
          match h !! ix_tools ix with
          | Some (OArray items) => items
          | _ => []
          end
      | _ => []
      end
  | None => []
  end.

(** The reference in the [bm25Stats] field of an argument. *)
Definition stats_ref_of (h : gmap loc obj) (index : option loc) : option loc :=
  match index with
  | Some l =>
      match h !! l with
      | Some (OIndex ix) => ix_bm25Stats ix
      | _ => None
      end
  | None => None
  end.

(** The value of an argument of type [PersistedIndex | null]. *)
Definition denoted (h : gmap loc obj) (index : option loc)
  : option PersistedIndex :=
  index ≫= index_at h.

(** A map of references denotes a map of tools, entry by entry. *)
Definition related (h : gmap loc obj)
    (es : JsMap.t loc) (m : JsMap.t IndexedTool) : Prop :=
  Forall2 (λ kl kt, kl.1 = kt.1 ∧ h !! kl.2 = Some (OTool kt.2)) es m.

(** *** What the two loops compute, as pure functions

    [lts] lists the references an array holds together with the tool each
    one points to. *)
Definition denotes (h : gmap loc obj) (index : option loc)
    (lts : list (loc * IndexedTool)) : Prop :=
  lts.*1 = items_of h index
  ∧ Forall (λ lt, h !! lt.1 = Some (OTool lt.2)) lts.

Definition user_step (es : JsMap.t loc) (lt : loc * IndexedTool)
  : JsMap.t loc :=
  JsMap.set (tool_name lt.2) lt.1 es.

Definition project_step (DEBUG : bool)
    (st : JsMap.t loc * nat * list string) (lt : loc * IndexedTool)
  : JsMap.t loc * nat * list string :=
  let n := tool_name lt.2 in
  let overridden := DEBUG && JsMap.has n st.1.1 in
  (JsMap.set n lt.1 st.1.1,
   if overridden then S st.1.2 else st.1.2,
   if overridden then st.2 ++ [override_message n] else st.2).

(** A sample store: a project index at 1 (tools array at 2, tools at 4
    and 5, statistics at 3) and a user index at 6 (tools array at 7, tools
    at 8 and 9, no statistics). *)
Definition sample_heap : gmap loc obj :=
  list_to_map
    [ (1%positive, OIndex {| ix_version := "1.0.0"; ix_createdAt := "t0";
                 ix_embeddingProvider := None; ix_embeddingDimensions := 0;
                 ix_tools := 2%positive; ix_bm25Stats := Some 3%positive;
                 ix_hasEmbeddings := Some false |});
      (2%positive, OArray [4%positive; 5%positive]);
      (3%positive, OStats (sample_stats 2));
      (4%positive, OTool (mk_tool "a" "project"));
      (5%positive, OTool (mk_tool "b" "project"));
      (6%positive, OIndex {| ix_version := "1.0.0"; ix_createdAt := "t1";
                 ix_embeddingProvider := None; ix_embeddingDimensions := 0;
                 ix_tools := 7%positive; ix_bm25Stats := None;
                 ix_hasEmbeddings := Some true |});
      (7%positive, OArray [8%positive; 9%positive]);
      (8%positive, OTool (mk_tool "b" "user"));
      (9%positive, OTool (mk_tool "c" "user")) ].

Definition sample_world : World := {| heap := sample_heap; stderr := [] |}.

End Ref.

(** ** [ToolExecutor]

    [callTool] is [async] and wraps its whole body in [try]/[catch].  A
    computation is modelled as a function from the state (the executor's
    fields and the state of the outside world) to an outcome, a normal
    return or a thrown value, and the state it leaves behind; awaiting a
    rejected promise is a throw. *)
Module Executor.

(** What [throw] and a rejected promise carry: an [Error] with its
    [message], or any other value with what [String(err)] makes of it. *)
Inductive Thrown : Type :=
  | ErrorObj (message : string)
  | OtherValue (rendered : string).

Inductive Outcome (A : Type) : Type :=
  | Returned (a : A)
  | Threw (e : Thrown).
Arguments Returned {A} a.
Arguments Threw {A} e.

Inductive TransportKind := Stdio | Http | Sse.

(** [McpServerConfig] and [MergedServerEntry] are declared in
    [mcp-config.ts], which the source imports but does not contain; the
    fields are the ones [createTransport] and [registerServers] read. *)
Record McpServerConfig := {
  transport : option TransportKind;
  url : option string;
  command : option string;
  args : option (list string);
  env : option (gmap string string);
}.

Record MergedServerEntry := {
  name : string;
  config : McpServerConfig;
}.

Record URL := { href : string }.

Inductive Transport : Type :=
  | StreamableHTTPClientTransport (u : URL)
  | SSEClientTransport (u : URL)
  | StdioClientTransport (cmd : string) (argv : list string)
      (environment : gmap string string).

(** [new Client({ name, version })], connected over a transport. *)
Record Client := {
  client_name : string;
  client_version : string;
  connection : Transport;
}.

Record ToolCallResult := {
  success : bool;
  result : option JsonValue;
  error : option string;
}.

Record ToolExecutor := {
  clients : gmap string Client;
  transports : gmap string Transport;
  serverConfigs : gmap string McpServerConfig;
  connectionTimeout : N;
}.

(** [constructor(options: { timeout?: number } = {})] *)
Definition new_ToolExecutor (timeout : option N) : ToolExecutor :=
  {| clients := ∅; transports := ∅; serverConfigs := ∅;
     connectionTimeout := default 30000%N timeout |}.

Definition registerServer (n : string) (c : McpServerConfig)
    (this : ToolExecutor) : ToolExecutor :=
  {| clients := clients this; transports := transports this;
     serverConfigs := <[n := c]> (serverConfigs this);
     connectionTimeout := connectionTimeout this |}.

Definition registerServers (servers : list MergedServerEntry)
    (this : ToolExecutor) : ToolExecutor :=
  fold_left (λ this server, registerServer (name server) (config server) this)
    servers this.

Definition hasServer (serverName : string) (this : ToolExecutor) : bool :=
  bool_decide (is_Some (serverConfigs this !! serverName)).

(** Which of [connectPromise] and [timeoutPromise] settles first, and how. *)
Inductive RaceOutcome : Type :=
  | ConnectResolved
  | ConnectRejected (e : Thrown)
  | TimerFired.

(** The collaborators outside the class: the process environment, the
    [URL] parser, the MCP client's [connect] raced against the timer, and
    the remote [callTool].  [Net] is the state of the outside world. *)
Record Environment (Net : Type) := {
  process_env : list (string * option string);
  parse_url : string → Outcome URL;
  race_connect : Client → Transport → N → Net → RaceOutcome * Net;
  remote_callTool :
    Client → string → list (string * JsonValue) → Net → Outcome JsonValue * Net;
}.
Arguments process_env {Net} _.
Arguments parse_url {Net} _ _.
Arguments race_connect {Net} _ _ _ _ _.
Arguments remote_callTool {Net} _ _ _ _ _.

(** A string is truthy unless it is absent or empty. *)
Definition truthy (s : option string) : option string :=
  match s with
  | Some v => if String.eqb v "" then None else Some v
  | None => None
  end.

Definition timeout_message (ms : N) : string :=
  "Connection timeout after " +:+ pretty ms +:+ "ms".

Definition unknown_server_message (serverName : string) : string :=
  "Unknown server: " +:+ serverName +:+ ". Server not registered.".

Definition invalid_config_message : string :=
  "Invalid server configuration: missing command or url".

(** [err instanceof Error ? err.message : String(err)] *)
Definition message_of (err : Thrown) : string :=
  match err with
  | ErrorObj m => m
  | OtherValue s => s
  end.

Definition succeeded (r : JsonValue) : ToolCallResult :=
  {| success := true; result := Some r; error := None |}.

Definition failed (msg : string) : ToolCallResult :=
  {| success := false; result := None; error := Some msg |}.

(** The client [getClient] builds for a transport. *)
Definition new_client (tr : Transport) : Client :=
  {| client_name := "pleaseai-mcp-executor";
     client_version := "1.0.0";
     connection := tr |}.

(** [obj[key] = value] for a string [value], on an object created by
    [{}].  The key "__proto__" reaches the accessor that [Object.prototype]
    has under that name, whose setter ignores a value that is not an object,
    so no property is written; every other key becomes an own property. *)
Definition set_property (key value : string) (obj : gmap string string)
  : gmap string string :=
  if String.eqb key "__proto__" then obj else <[key := value]> obj.

(** [Object.assign(target, source)] for string values: every own property
    of [source] is written with [target[key] = value], so a property named
    "__proto__" is dropped as well. *)
Definition object_assign (target source : gmap string string)
  : gmap string string :=
  delete "__proto__" source ∪ target.

Section executor.
Context {Net : Type} (E : Environment Net).

Definition Exec (A : Type) : Type :=
  ToolExecutor * Net → Outcome A * (ToolExecutor * Net).

Definition ret {A} (a : A) : Exec A := λ s, (Returned a, s).

Definition throw {A} (e : Thrown) : Exec A := λ s, (Threw e, s).

Definition bind {A B} (m : Exec A) (f : A → Exec B) : Exec B := λ s,
  match m s with
  | (Returned a, s') => f a s'
  | (Threw e, s') => (Threw e, s')
  end.

(** [try { body } catch (err) { handler }] *)
Definition try_catch {A} (body : Exec A) (handler : Thrown → Exec A)
  : Exec A := λ s,
  match body s with
  | (Returned a, s') => (Returned a, s')
  | (Threw e, s') => handler e s'
  end.

Definition this : Exec ToolExecutor := λ s, (Returned s.1, s).

Definition update (f : ToolExecutor → ToolExecutor) : Exec unit := λ s,
  (Returned (), (f s.1, s.2)).

Definition lift {A} (o : Outcome A) : Exec A := λ s, (o, s).

Notation "x <- m ;; k" := (bind m (λ x, k))
  (at level 100, m at next level, right associativity).

Definition createTransport (c : McpServerConfig) : Outcome Transport :=
  let kind :=
    match transport c with
    | Some k => k
    | None => match truthy (url c) with Some _ => Http | None => Stdio end
    end in
  let stdio :=
    match truthy (command c) with
    | Some cmd =>
        let env0 :=
          fold_left (λ (acc : gmap string string) kv,
                       match kv.2 with
                       | Some v => set_property kv.1 v acc
                       | None => acc
                       end) (process_env E) ∅ in
        let env1 :=
          match env c with
          | Some overrides => object_assign env0 overrides
          | None => env0
          end in
        Returned (StdioClientTransport cmd (default [] (args c)) env1)
    | None => Threw (ErrorObj invalid_config_message)
    end in
  match kind, truthy (url c) with
  | Http, Some u =>
      match parse_url E u with
      | Returned parsed => Returned (StreamableHTTPClientTransport parsed)
      | Threw e => Threw e
      end
  | Sse, Some u =>
      match parse_url E u with
      | Returned parsed => Returned (SSEClientTransport parsed)
      | Threw e => Threw e
      end
  | _, _ => stdio
  end.

(** [await Promise.race([connectPromise, timeoutPromise])] *)
Definition await_connect (client : Client) (tr : Transport) : Exec unit :=
  λ s,
    match race_connect E client tr (connectionTimeout s.1) s.2 with
    | (ConnectResolved, net') => (Returned (), (s.1, net'))
    | (ConnectRejected e, net') => (Threw e, (s.1, net'))
    | (TimerFired, net') =>
        (Threw (ErrorObj (timeout_message (connectionTimeout s.1))),
         (s.1, net'))
    end.

Definition getClient (serverName : string) : Exec Client :=
  self <- this ;;
  match clients self !! serverName with
  | Some existingClient => ret existingClient
  | None =>
      match serverConfigs self !! serverName with
      | None => throw (ErrorObj (unknown_server_message serverName))
      | Some c =>
          tr <- lift (createTransport c) ;;
          _ <- update (λ self,
                 {| clients := clients self;
                    transports := <[serverName := tr]> (transports self);
                    serverConfigs := serverConfigs self;
                    connectionTimeout := connectionTimeout self |}) ;;
          let client := new_client tr in
          _ <- await_connect client tr ;;
          _ <- update (λ self,
                 {| clients := <[serverName := client]> (clients self);
                    transports := transports self;
                    serverConfigs := serverConfigs self;
                    connectionTimeout := connectionTimeout self |}) ;;
          ret client
      end
  end.

(** [await client.callTool({ name, arguments }, schema)] *)
Definition await_callTool (client : Client) (toolName : string)
    (arguments : list (string * JsonValue)) : Exec JsonValue := λ s,
  let '(o, net') := remote_callTool E client toolName arguments s.2 in
  (o, (s.1, net')).

Definition callTool (serverName toolName : string)
    (arguments : list (string * JsonValue)) : Exec ToolCallResult :=
  try_catch
    (client <- getClient serverName ;;
     r <- await_callTool client toolName arguments ;;
     ret (succeeded r))
    (λ err, ret (failed (message_of err))).
End executor.

(** *** A sample environment *)

Definition sample_env : Environment nat :=
  {| process_env := [("PATH", Some "/usr/bin"); ("UNSET", None)];
     parse_url := λ s,
       if String.prefix "http" s then Returned {| href := s |}
       else Threw (ErrorObj "Invalid URL");
     race_connect := λ _ tr _ n,
       match tr with
       | StdioClientTransport _ _ _ => (ConnectResolved, S n)
       | _ => (TimerFired, S n)
       end;
     remote_callTool := λ _ toolName _ n,
       if String.eqb toolName "read_file"
       then (Returned (JString "contents"), S n)
       else (Threw (OtherValue "tool failed"), S n) |}.

Definition stdio_config : McpServerConfig :=
  {| transport := None; url := None; command := Some "node";
     args := Some ["server.js"]; env := None |}.

Definition http_config : McpServerConfig :=
  {| transport := Some Http; url := Some "https://example.test/mcp";
     command := None; args := None; env := None |}.

Definition sample_executor : ToolExecutor :=
  registerServers
    [ {| name := "files"; config := stdio_config |};
      {| name := "remote"; config := http_config |} ]
    (new_ToolExecutor None).

End Executor.

(** ** Inverse document frequency of the BM25 strategy *)

Module BM25.

(** [documentFrequencies[term]], 0 when the term is absent. *)
Definition document_frequency (stats : BM25Stats) (term : string) : nat :=
  default 0 (documentFrequencies stats !! term).

(** Modelled from the spec: the BM25 strategy itself is not part of the
    source; this is the specification's formula
    [IDF(term) = ln(1 + (N − df + 0.5) / (df + 0.5))], over the real
    numbers. *)
Definition idf_formula (N df : R) : R :=
  ln (1 + (N - df + 0.5) / (df + 0.5)).

(** Modelled from the spec: [N = totalDocuments] and
    [df = documentFrequencies[term]] (0 if absent). *)
Definition idf (stats : BM25Stats) (term : string) : R :=
  idf_formula (INR (totalDocuments stats))
              (INR (document_frequency stats term)).

End BM25.

(** ** [ToolExecutor]: closing a connection *)
Module Connections.

Section close.
Context {Net : Type}.
(** [client.close()], which may reject. *)
Variable remote_close :
  Executor.Client → Net → Executor.Outcome unit * Net.

Definition await_close (client : Executor.Client) : Executor.Exec unit := λ s,
  let '(o, net') := remote_close client s.2 in
  (o, (s.1, net')).

Definition closeConnection (serverName : string) : Executor.Exec unit :=
  Executor.bind Executor.this (λ self,
    match Executor.clients self !! serverName with
    | Some client =>
        Executor.bind
          (Executor.try_catch (await_close client) (λ _, Executor.ret ()))
          (λ _,
             Executor.bind
               (Executor.update (λ self,
                  {| Executor.clients := delete serverName (Executor.clients self);
                     Executor.transports := Executor.transports self;
                     Executor.serverConfigs := Executor.serverConfigs self;
                     Executor.connectionTimeout :=
                       Executor.connectionTimeout self |}))
               (λ _,
                  Executor.update (λ self,
                    {| Executor.clients := Executor.clients self;
                       Executor.transports :=
                         delete serverName (Executor.transports self);
                       Executor.serverConfigs := Executor.serverConfigs self;
                       Executor.connectionTimeout :=
                         Executor.connectionTimeout self |})))
    | None => Executor.ret ()
    end).
End close.

(** Every step of [getClient] and [callTool] leaves the registered
    configurations and the timeout alone, and touches the connection tables
    only at the server asked for. *)
Definition frame_at {Net : Type} (serverName : string)
    (s s' : Executor.ToolExecutor * Net) : Prop :=
  Executor.serverConfigs s'.1 = Executor.serverConfigs s.1
  ∧ Executor.connectionTimeout s'.1 = Executor.connectionTimeout s.1
  ∧ (∀ m, m ≠ serverName →
       Executor.clients s'.1 !! m = Executor.clients s.1 !! m
       ∧ Executor.transports s'.1 !! m = Executor.transports s.1 !! m)
  ∧ (∀ c, Executor.clients s.1 !! serverName = Some c →
       Executor.clients s'.1 = Executor.clients s.1
       ∧ Executor.transports s'.1 = Executor.transports s.1).

(** A [close] that rejects for every client. *)
Definition failing_close (c : Executor.Client) (n : nat)
  : Executor.Outcome unit * nat :=
  (Executor.Threw (Executor.ErrorObj "close failed"), S n).

(** A process environment and a configuration that both carry a variable
    named "__proto__". *)
Definition proto_env : Executor.Environment nat :=
  {| Executor.process_env :=
       [("PATH", Some "/usr/bin"); ("__proto__", Some "polluted");
        ("UNSET", None)];
     Executor.parse_url := Executor.parse_url Executor.sample_env;
     Executor.race_connect := Executor.race_connect Executor.sample_env;
     Executor.remote_callTool := Executor.remote_callTool Executor.sample_env |}.

Definition proto_config : Executor.McpServerConfig :=
  {| Executor.transport := None; Executor.url := None;
     Executor.command := Some "node"; Executor.args := Some ["server.js"];
     Executor.env :=
       Some (<["NODE_ENV" := "production"]> (<["__proto__" := "polluted"]> ∅)) |}.

End Connections.

(** ** [EmbeddingProviderRegistry] *)
Module Registry.

(** [EmbeddingProviderConfig] of [types/config.ts].  Its [type] is declared
    as one of three names, but [register] accepts any string and [create]
    looks the type up as a string, so it is a string here. *)
Record EmbeddingProviderConfig := {
  type : string;
  model : option string;
  apiKey : option string;
  apiBase : option string;
  dimensions : option nat;
  options : option (list (string * JsonValue));
}.

(** The object literal handed to the OpenAI and Voyage constructors. *)
Record RemoteOptions := {
  opt_model : option string;
  opt_apiKey : option string;
  opt_apiBase : option string;
  opt_dimensions : option nat;
}.

(** The provider classes live in [providers/], outside the source; an
    instance is recorded as the class it belongs to and the arguments it
    was made from.  [OtherProvider] stands for any other implementation of
    the interface, as a custom factory may return. *)
Inductive EmbeddingProvider : Type :=
  | LocalEmbeddingProvider (m : option string)
  | OpenAIEmbeddingProvider (o : RemoteOptions)
  | VoyageAIEmbeddingProvider (o : RemoteOptions)
  | OtherProvider (provider_name : string) (provider_dimensions : nat).

(** What [new] does for each of the three classes; a constructor may
    throw. *)
Record Constructors := {
  new_LocalEmbeddingProvider :
    option string → Executor.Outcome EmbeddingProvider;
  new_OpenAIEmbeddingProvider :
    RemoteOptions → Executor.Outcome EmbeddingProvider;
  new_VoyageAIEmbeddingProvider :
    RemoteOptions → Executor.Outcome EmbeddingProvider;
}.

(** A factory is a function of the configuration; like any call it may
    throw. *)
Definition ProviderFactory : Type :=
  EmbeddingProviderConfig → Executor.Outcome EmbeddingProvider.

(** [private customProviders: Map<string, ProviderFactory>] *)
Definition EmbeddingProviderRegistry : Type := JsMap.t ProviderFactory.

(** [constructor()] *)
Definition new_registry : EmbeddingProviderRegistry := JsMap.empty.

Definition register (ty : string) (factory : ProviderFactory)
    (this : EmbeddingProviderRegistry) : EmbeddingProviderRegistry :=
  JsMap.set ty factory this.

Definition unknown_type_message (ty : string) : string :=
  "Unknown embedding provider type: " +:+ ty.

Definition remote_options (c : EmbeddingProviderConfig) : RemoteOptions :=
  {| opt_model := model c; opt_apiKey := apiKey c;
     opt_apiBase := apiBase c; opt_dimensions := dimensions c |}.

Definition create (K : Constructors) (c : EmbeddingProviderConfig)
    (this : EmbeddingProviderRegistry) : Executor.Outcome EmbeddingProvider :=
  match JsMap.get (type c) this with
  | Some customFactory => customFactory c
  | None =>
      if String.eqb (type c) "local"
      then new_LocalEmbeddingProvider K (model c)
      else if String.eqb (type c) "openai"
      then new_OpenAIEmbeddingProvider K (remote_options c)
      else if String.eqb (type c) "voyage"
      then new_VoyageAIEmbeddingProvider K (remote_options c)
      else Executor.Threw (Executor.ErrorObj (unknown_type_message (type c)))
  end.

Definition builtIn : list string := ["local"; "openai"; "voyage"].

Definition getAvailableTypes (this : EmbeddingProviderRegistry) : list string :=
  let custom := JsMap.keys this in
  builtIn ++ custom.

(** [createEmbeddingProvider], with the module-level [defaultRegistry] as an
    argument. *)
Definition createEmbeddingProvider (K : Constructors)
    (defaultRegistry : EmbeddingProviderRegistry)
    (c : EmbeddingProviderConfig) : Executor.Outcome EmbeddingProvider :=
  create K c defaultRegistry.

(** The registry after a sequence of [register] calls on a new one. *)
Definition registered (calls : list (string * ProviderFactory))
  : EmbeddingProviderRegistry :=
  fold_left (λ r call, register call.1 call.2 r) calls new_registry.

Definition sample_config (ty : string) : EmbeddingProviderConfig :=
  {| type := ty; model := Some "m"; apiKey := None; apiBase := None;
     dimensions := Some 256; options := None |}.

(** Constructors that succeed, except that the OpenAI one wants a key. *)
Definition sample_constructors : Constructors := {|
  new_LocalEmbeddingProvider := λ m, Executor.Returned (LocalEmbeddingProvider m);
  new_OpenAIEmbeddingProvider := λ o,
    match opt_apiKey o with
    | Some _ => Executor.Returned (OpenAIEmbeddingProvider o)
    | None => Executor.Threw (Executor.ErrorObj "OpenAI API key is required")
    end;
  new_VoyageAIEmbeddingProvider := λ o,
    Executor.Returned (VoyageAIEmbeddingProvider o);
|}.

Definition sample_factory : ProviderFactory :=
  λ c, Executor.Returned (OtherProvider (type c) 8).

End Registry.

(** ** Index scopes *)
Module Scopes.

Definition INDEX_SCOPES : list string := ["project"; "user"].

Definition CLI_SCOPES : list string := INDEX_SCOPES ++ ["all"].

(** [xs.includes(value)] for an array of strings and a value of type
    [unknown]: [undefined] is [None]; only a string can equal an element. *)
Definition includes (xs : list string) (value : option JsonValue) : bool :=
  match value with
  | Some (JString s) => bool_decide (s ∈ xs)
  | _ => false
  end.

Definition isIndexScope (value : option JsonValue) : bool :=
  includes INDEX_SCOPES value.

Definition isCliScope (value : option JsonValue) : bool :=
  includes CLI_SCOPES value.

End Scopes.

(** ** Configuration fingerprints and the CLI version *)
Module Fingerprint.

(** [ConfigFingerprint] is declared in [@pleaseai/mcp-core]; the fields are
    the ones [createConfigFingerprint] writes. *)
Record ConfigFingerprint := {
  exists_ : bool;
  hash : option string;
  mtime : option N;
}.

(** The file system and the other library calls the module makes.  Each is
    an independent answer of the outside world: nothing relates what
    [existsSync] says to what [readFileSync] does. *)
Record System := {
  homedir : string;
  process_cwd : string;
  join : list string → string;
  existsSync : string → bool;
  readFileSync : string → Executor.Outcome string;
  statSync_mtimeMs : string → Executor.Outcome N;
  sha256_hex : string → string;
  (** [fileURLToPath(new URL('.', import.meta.url))] *)
  module_directory : Executor.Outcome string;
  JSON_parse : string → Executor.Outcome JsonValue;
}.

Section fingerprint.
Variable sys : System.

(** [getConfigPath(scope, cwd)]; the [switch] sends every scope other than
    'project' and 'user' to its [default] branch. *)
Definition getConfigPath (scope : string) (cwd : string) : string :=
  let home := homedir sys in
  if String.eqb scope "project" then join sys [cwd; ".please"; "mcp.json"]
  else if String.eqb scope "user" then join sys [home; ".please"; "mcp.json"]
  else join sys [cwd; ".please"; "mcp.local.json"].

Definition outcome_bind {A B} (o : Executor.Outcome A)
    (k : A → Executor.Outcome B) : Executor.Outcome B :=
  match o with
  | Executor.Returned a => k a
  | Executor.Threw e => Executor.Threw e
  end.

(** [try { body } catch { handler }] *)
Definition outcome_catch {A} (body : Executor.Outcome A)
    (handler : Executor.Outcome A) : Executor.Outcome A :=
  match body with
  | Executor.Returned a => Executor.Returned a
  | Executor.Threw _ => handler
  end.

Definition absent : ConfigFingerprint :=
  {| exists_ := false; hash := None; mtime := None |}.

Definition createConfigFingerprint (filePath : string)
  : Executor.Outcome ConfigFingerprint :=
  if negb (existsSync sys filePath)
  then Executor.Returned absent
  else
    outcome_catch
      (outcome_bind (readFileSync sys filePath) (λ content,
         let h := sha256_hex sys content in
         outcome_bind (statSync_mtimeMs sys filePath) (λ m,
           Executor.Returned
             {| exists_ := true; hash := Some h; mtime := Some m |})))
      (Executor.Returned absent).

Record AllFingerprints := {
  fp_local : ConfigFingerprint;
  fp_project : ConfigFingerprint;
  fp_user : ConfigFingerprint;
}.

(** [createAllConfigFingerprints(cwd?)]; an omitted [cwd] becomes
    [process.cwd()] in [getConfigPath]. *)
Definition createAllConfigFingerprints (cwd : option string)
  : Executor.Outcome AllFingerprints :=
  let dir := default (process_cwd sys) cwd in
  outcome_bind (createConfigFingerprint (getConfigPath "local" dir)) (λ l,
  outcome_bind (createConfigFingerprint (getConfigPath "project" dir)) (λ p,
  outcome_bind (createConfigFingerprint (getConfigPath "user" dir)) (λ u,
  Executor.Returned {| fp_local := l; fp_project := p; fp_user := u |}))).

(** [pkg.version] for the value [JSON.parse] returned: reading a property
    of [null] throws, a primitive or an array has no such property
    ([None] is [undefined]), an object has the value of its last "version"
    member. *)
Definition version_of (pkg : JsonValue) : Executor.Outcome (option JsonValue) :=
  match pkg with
  | JNull =>
      Executor.Threw
        (Executor.ErrorObj "Cannot read properties of null (reading 'version')")
  | JObject fields =>
      Executor.Returned
        (last (omap (λ kv, if String.eqb kv.1 "version" then Some kv.2 else None)
                 fields))
  | _ => Executor.Returned None
  end.

Definition read_version (path : string) : Executor.Outcome (option JsonValue) :=
  outcome_bind (readFileSync sys path) (λ content,
  outcome_bind (JSON_parse sys content) (λ pkg,
  version_of pkg)).

Definition unknown_version : option JsonValue := Some (JString "unknown").

Definition getCliVersion : Executor.Outcome (option JsonValue) :=
  outcome_catch
    (outcome_bind (module_directory sys) (λ currentDir,
       let packageJsonPath := join sys [currentDir; ".."; ".."; "package.json"] in
       if existsSync sys packageJsonPath
       then read_version packageJsonPath
       else
         let cwdPackagePath := join sys [process_cwd sys; "package.json"] in
         if existsSync sys cwdPackagePath
         then read_version cwdPackagePath
         else Executor.Returned unknown_version))
    (Executor.Returned unknown_version).
End fingerprint.

(** A sample system: one readable configuration file, one that exists but
    cannot be read, and a package manifest next to the module. *)
Definition sample_system : System :=
  {| homedir := "/home/u";
     process_cwd := "/work";
     join := λ parts, fold_right (λ p acc,
               if String.eqb acc "" then p else p +:+ "/" +:+ acc) "" parts;
     existsSync := λ p,
       bool_decide (p ∈ ["/work/.please/mcp.json";
                         "/work/.please/mcp.local.json";
                         "/app/dist/utils/../../package.json"]);
     readFileSync := λ p,
       if String.eqb p "/work/.please/mcp.json" then Executor.Returned "{}"
       else if String.eqb p "/app/dist/utils/../../package.json"
       then Executor.Returned "manifest"
       else Executor.Threw (Executor.ErrorObj "EACCES");
     statSync_mtimeMs := λ _, Executor.Returned 1700000000000%N;
     sha256_hex := λ content, "digest-of-" +:+ content;
     module_directory := Executor.Returned "/app/dist/utils";
     JSON_parse := λ content,
       if String.eqb content "manifest"
       then Executor.Returned (JObject [("name", JString "mcp");
                                        ("version", JString "0.2.4")])
       else Executor.Threw (Executor.ErrorObj "Unexpected token") |}.

End Fingerprint.

(** ** The release script's validations

    [scripts/update-formula.ts] checks the version, the tag and every
    downloaded checksum with [RegExp.prototype.test] against a pattern
    anchored at both ends.  The patterns are kept as syntax and run by a
    matcher that takes derivatives, so that what a pattern accepts is a
    theorem about the pattern as written. *)
Module Regex.
Import Stdlib.Strings.Ascii.

Inductive re : Type :=
  | Never
  | Eps
  | Class (p : Ascii.ascii → bool)
  | Seq (r1 r2 : re)
  | Alt (r1 r2 : re)
  | Star (r : re).

(** [r+], [r?], [(?:r){n}] and a literal character. *)
Definition Plus (r : re) : re := Seq r (Star r).
Definition Opt (r : re) : re := Alt r Eps.
Fixpoint Repeat (n : nat) (r : re) : re :=
  match n with
  | 0 => Eps
  | S n' => Seq r (Repeat n' r)
  end.
Definition Lit (c : Ascii.ascii) : re := Class (Ascii.eqb c).

Fixpoint nullable (r : re) : bool :=
  match r with
  | Never => false
  | Eps => true
  | Class _ => false
  | Seq r1 r2 => nullable r1 && nullable r2
  | Alt r1 r2 => nullable r1 || nullable r2
  | Star _ => true
  end.

Fixpoint deriv (c : Ascii.ascii) (r : re) : re :=
  match r with
  | Never => Never
  | Eps => Never
  | Class p => if p c then Eps else Never
  | Seq r1 r2 =>
      if nullable r1
      then Alt (Seq (deriv c r1) r2) (deriv c r2)
      else Seq (deriv c r1) r2
  | Alt r1 r2 => Alt (deriv c r1) (deriv c r2)
  | Star r1 => Seq (deriv c r1) (Star r1)
  end.

Fixpoint matches (r : re) (s : list Ascii.ascii) : bool :=
  match s with
  | [] => nullable r
  | c :: s' => matches (deriv c r) s'
  end.

(** [/^r$/.test(s)] *)
Definition test (r : re) (s : string) : bool :=
  matches r (String.list_ascii_of_string s).

(** What a pattern accepts. *)
Inductive Accepts : re → list Ascii.ascii → Prop :=
  | AEps : Accepts Eps []
  | AClass p c : p c = true → Accepts (Class p) [c]
  | ASeq r1 r2 s1 s2 :
      Accepts r1 s1 → Accepts r2 s2 → Accepts (Seq r1 r2) (s1 ++ s2)
  | AAltL r1 r2 s : Accepts r1 s → Accepts (Alt r1 r2) s
  | AAltR r1 r2 s : Accepts r2 s → Accepts (Alt r1 r2) s
  | AStarNil r : Accepts (Star r) []
  | AStarCons r s1 s2 :
      Accepts r s1 → Accepts (Star r) s2 → Accepts (Star r) (s1 ++ s2).

(** *** Character classes *)

Definition between (lo hi : nat) (c : Ascii.ascii) : bool :=
  (lo <=? Ascii.nat_of_ascii c)%nat && (Ascii.nat_of_ascii c <=? hi)%nat.

(** [\d] *)
Definition digit (c : Ascii.ascii) : bool := between 48 57 c.
(** [[a-z]] *)
Definition lower (c : Ascii.ascii) : bool := between 97 122 c.
(** [\w] *)
Definition word (c : Ascii.ascii) : bool :=
  between 97 122 c || between 65 90 c || digit c || Ascii.eqb c "_"%char.
(** [[\w.]] *)
Definition word_or_dot (c : Ascii.ascii) : bool := word c || Ascii.eqb c "."%char.
(** [[a-f0-9]] under the [i] flag *)
Definition hex (c : Ascii.ascii) : bool :=
  between 97 102 c || between 65 70 c || digit c.

(** [[\w.-]]: what a version or a tag is made of. *)
Definition plain (c : Ascii.ascii) : bool := word_or_dot c || Ascii.eqb c "-"%char.

(** A non-empty run of characters of one class. *)
Definition run (p : Ascii.ascii → bool) (s : list Ascii.ascii) : Prop :=
  s ≠ [] ∧ Forall (λ c, p c = true) s.

(** *** The three patterns *)

(** [\d+\.\d+\.\d+(?:-[\w.]+)?] *)
Definition version_body : re :=
  Seq (Plus (Class digit))
    (Seq (Lit "."%char)
       (Seq (Plus (Class digit))
          (Seq (Lit "."%char)
             (Seq (Plus (Class digit))
                (Opt (Seq (Lit "-"%char) (Plus (Class word_or_dot)))))))).

(** [/^\d+\.\d+\.\d+(?:-[\w.]+)?$/] *)
Definition version_pattern : re := version_body.

(** [/^[a-z]+-v\d+\.\d+\.\d+(?:-[\w.]+)?$/] *)
Definition tag_pattern : re :=
  Seq (Plus (Class lower)) (Seq (Lit "-"%char) (Seq (Lit "v"%char) version_body)).

(** [/^[a-f0-9]{64}$/i] *)
Definition checksum_pattern : re := Repeat 64 (Class hex).

End Regex.

(** ** [downloadChecksum] *)
Module Formula.
Import Stdlib.Strings.Ascii.

Definition REPO : string := "pleaseai/mcp-gateway".

(** What [fetch] resolves to, as far as the script looks at it. *)
Record Response := {
  ok : bool;
  statusText : string;
  text : Executor.Outcome string;
}.

(** The network, and [content.split(/\s+/)[0]]: the part of the content
    before its first run of white space. *)
Record Network := {
  fetch : string → Executor.Outcome Response;
  first_field : string → string;
}.

Definition checksum_url (tag platform : string) : string :=
  "https://github.com/" +:+ REPO +:+ "/releases/download/" +:+ tag
  +:+ "/mcp-gateway-" +:+ platform +:+ ".sha256".

(** A JavaScript string is a sequence of UTF-16 code units; a string here
    is its UTF-8 encoding, as [TextEncoder] writes it.  [length] and
    [slice] count code units, so they are computed from the lead bytes: a
    continuation byte (128 to 191) starts nothing, the lead byte of a
    four-byte sequence (240 and above) starts a character beyond U+FFFF,
    which JavaScript holds as a surrogate pair of two units, and any other
    byte starts a character of one unit. *)
Definition units_of_byte (b : Ascii.ascii) : nat :=
  let n := Ascii.nat_of_ascii b in
  if (n <? 128)%nat then 1%nat
  else if (n <? 192)%nat then 0%nat
  else if (n <? 240)%nat then 1%nat
  else 2%nat.

(** [s.length] *)
Fixpoint utf16_length (s : string) : nat :=
  match s with
  | EmptyString => 0%nat
  | String b s' => (units_of_byte b + utf16_length s')%nat
  end.

(** U+FFFD, which the encoder writes for a surrogate without its pair. *)
Definition replacement : string :=
  String "239"%char (String "191"%char (String "189"%char EmptyString)).

(** [s.slice(0, stop)]: the characters that fit into the first [stop] code
    units, with their continuation bytes.  When one unit is left and the
    next character is a surrogate pair, the slice ends with the first half
    of the pair. *)
Fixpoint slice_to (stop : nat) (s : string) : string :=
  match s with
  | EmptyString => EmptyString
  | String b s' =>
      let w := units_of_byte b in
      if (w <=? stop)%nat then String b (slice_to (stop - w) s')
      else if (stop =? 0)%nat then EmptyString
      else replacement
  end.

(** [checksum.slice(0, 20)] followed by "..." when the checksum is longer. *)
Definition shown (checksum : string) : string :=
  slice_to 20 checksum
  +:+ (if (20 <? utf16_length checksum)%nat then "..." else "").

(** The one-character string holding a double quote. *)
Definition quote : string := String "034"%char EmptyString.

Definition invalid_checksum_message (platform checksum : string) : string :=
  "Invalid checksum for " +:+ platform
  +:+ ": expected 64 hex chars, got " +:+ quote +:+ shown checksum +:+ quote.

Definition download_failed_message (platform status : string) : string :=
  "Failed to download checksum for " +:+ platform +:+ ": " +:+ status.

Definition downloadChecksum (net : Network) (tag platform : string)
  : Executor.Outcome string :=
  match fetch net (checksum_url tag platform) with
  | Executor.Threw e => Executor.Threw e
  | Executor.Returned response =>
      if negb (ok response)
      then Executor.Threw
             (Executor.ErrorObj
                (download_failed_message platform (statusText response)))
      else
        match text response with
        | Executor.Threw e => Executor.Threw e
        | Executor.Returned content =>
            let checksum := first_field net content in
            if negb (Regex.test Regex.checksum_pattern checksum)
            then Executor.Threw
                   (Executor.ErrorObj
                      (invalid_checksum_message platform checksum))
            else Executor.Returned checksum
        end
  end.

(** A release whose checksum files hold the digest, two spaces and the
    name of the binary, as [shasum -a 256] writes them. *)
Fixpoint before_space (s : string) : string :=
  match s with
  | EmptyString => EmptyString
  | String c s' =>
      if Ascii.eqb c " "%char then EmptyString else String c (before_space s')
  end.

Definition sample_digest : string :=
  "9f86d081884c7d659a2feaa0c55ad015a3bf4f1b2b0b822cd15d6c15b0f00a08".

Definition sample_network : Network := {|
  fetch := λ url,
    Executor.Returned {|
      ok := true;
      statusText := "OK";
      text := Executor.Returned (sample_digest +:+ "  mcp-gateway-darwin-x64");
    |};
  first_field := before_space;
|}.

End Formula.

(** * Proofs *)

Example merge_example :
  merge_run true
    (Some (mk_index [mk_tool "a" "project"; mk_tool "b" "project"]))
    (Some (mk_index [mk_tool "b" "user"; mk_tool "c" "user"]))
  = ([mk_tool "b" "project"; mk_tool "c" "user"; mk_tool "a" "project"],
     [override_message "b"; summary_message 1]).
Proof. vm_compute. reflexivity. Qed.

(** ** Facts about the insertion-ordered map *)

Section jsmap_facts.
Context {V : Type}.
Implicit Types (k : string) (v : V) (m : JsMap.t V).

Lemma eqb_decide k1 k2 : String.eqb k1 k2 = bool_decide (k1 = k2).
Proof.
  destruct (String.eqb_spec k1 k2) as [->|Hne].
  - by rewrite bool_decide_eq_true_2.
  - by rewrite bool_decide_eq_false_2.
Qed.

Lemma has_keys k m : JsMap.has k m = bool_decide (k ∈ JsMap.keys m).
Proof.
  induction m as [|[k' v'] m IH]; simpl; [done|].
  rewrite eqb_decide. destruct (decide (k' = k)) as [->|Hne].
  - rewrite bool_decide_eq_true_2 by done.
    symmetry. apply bool_decide_eq_true_2. by left.
  - rewrite bool_decide_eq_false_2 by done.
    rewrite IH. apply bool_decide_ext. set_solver.
Qed.

Lemma set_fresh k v m : k ∉ JsMap.keys m → JsMap.set k v m = m ++ [(k, v)].
Proof.
  induction m as [|[k' v'] m IH]; simpl; [done|].
  intros Hk. rewrite eqb_decide. destruct (decide (k' = k)) as [->|Hne].
  - set_solver.
  - rewrite bool_decide_eq_false_2 by done. rewrite IH; [done|set_solver].
Qed.

Lemma keys_set_present k v m :
  k ∈ JsMap.keys m → JsMap.keys (JsMap.set k v m) = JsMap.keys m.
Proof.
  induction m as [|[k' v'] m IH]; simpl; [set_solver|].
  intros Hk. rewrite eqb_decide. destruct (decide (k' = k)) as [->|Hne].
  - by rewrite bool_decide_eq_true_2.
  - rewrite bool_decide_eq_false_2 by done. simpl.
    f_equal. apply IH. set_solver.
Qed.

Lemma keys_set k v m :
  JsMap.keys (JsMap.set k v m) =
  if bool_decide (k ∈ JsMap.keys m) then JsMap.keys m else JsMap.keys m ++ [k].
Proof.
  case_bool_decide.
  - by apply keys_set_present.
  - rewrite set_fresh; [|done]. unfold JsMap.keys. by rewrite fmap_app.
Qed.

Lemma get_set_eq k v m : JsMap.get k (JsMap.set k v m) = Some v.
Proof.
  induction m as [|[k' v'] m IH]; simpl.
  - by rewrite String.eqb_refl.
  - destruct (String.eqb k' k) eqn:E; simpl; by rewrite E.
Qed.

Lemma get_set_ne k k' v m :
  k ≠ k' → JsMap.get k' (JsMap.set k v m) = JsMap.get k' m.
Proof.
  intros Hne. induction m as [|[k0 v0] m IH]; simpl.
  - rewrite eqb_decide. by rewrite bool_decide_eq_false_2.
  - destruct (String.eqb k0 k) eqn:E; simpl.
    + apply String.eqb_eq in E. subst k0.
      rewrite eqb_decide. by rewrite bool_decide_eq_false_2.
    + by rewrite IH.
Qed.

Lemma NoDup_keys_set k v m :
  NoDup (JsMap.keys m) → NoDup (JsMap.keys (JsMap.set k v m)).
Proof.
  intros Hnd. rewrite keys_set. case_bool_decide; [done|].
  apply NoDup_app. split_and!; [done| |apply NoDup_singleton].
  intros x Hx ->%list_elem_of_singleton. done.
Qed.

(** The first [length m] entries keep their keys: [set] never moves an
    entry. *)
Lemma set_lookup_key k v m i k0 :
  JsMap.keys m !! i = Some k0 → JsMap.keys (JsMap.set k v m) !! i = Some k0.
Proof.
  intros Hi. rewrite keys_set. case_bool_decide; [done|].
  by apply lookup_app_l_Some.
Qed.

Lemma get_lookup k v m i :
  NoDup (JsMap.keys m) →
  JsMap.keys m !! i = Some k → JsMap.get k m = Some v →
  JsMap.values m !! i = Some v.
Proof.
  revert i. induction m as [|[k' v'] m IH]; intros i Hnd Hi Hg; [done|].
  simpl in *. apply NoDup_cons in Hnd as [Hk' Hnd].
  rewrite eqb_decide in Hg. destruct i as [|i]; simpl in *.
  - simplify_eq. rewrite bool_decide_eq_true_2 in Hg by done. by simplify_eq.
  - assert (k ∈ JsMap.keys m) by (by eapply list_elem_of_lookup_2).
    rewrite bool_decide_eq_false_2 in Hg by (intros ->; done).
    by apply IH.
Qed.
End jsmap_facts.

(** ** Facts about the merge *)

Section merge_facts.
Implicit Types (l : list IndexedTool) (m : JsMap.t IndexedTool)
  (t : IndexedTool) (n : string).

Lemma toolMap_user_loop l st :
  toolMap (fold_left add_user_tool l st) = set_all l (toolMap st).
Proof. revert st. induction l as [|t l IH]; intros st; [done|]. apply IH. Qed.

Lemma toolMap_project_loop D l st :
  toolMap (fold_left (add_project_tool D) l st) = set_all l (toolMap st).
Proof.
  revert st. induction l as [|t l IH]; intros st; [done|].
  simpl. rewrite IH. unfold add_project_tool; simpl.
  by destruct (D && _).
Qed.

Lemma merge_unfold D p u :
  mergeIndexedTools D p u =
  JsMap.values (set_all (tools_of p) (set_all (tools_of u) JsMap.empty)).
Proof.
  unfold mergeIndexedTools, merge_run. simpl.
  set (st1 := match u with Some _ => _ | None => _ end).
  set (st2 := match p with Some _ => _ | None => _ end).
  assert (toolMap st1 = set_all (tools_of u) JsMap.empty) as H1.
  { subst st1. destruct u; [|done]. by rewrite toolMap_user_loop. }
  assert (toolMap st2 = set_all (tools_of p) (toolMap st1)) as H2.
  { subst st2. destruct p; [|done]. by rewrite toolMap_project_loop. }
  destruct (D && _); simpl; by rewrite H2, H1.
Qed.

Lemma set_all_app l1 l2 m : set_all (l1 ++ l2) m = set_all l2 (set_all l1 m).
Proof. apply fold_left_app. Qed.

Lemma set_all_snoc l t m :
  set_all (l ++ [t]) m = JsMap.set (tool_name t) t (set_all l m).
Proof. by rewrite set_all_app. Qed.

Lemma keyed_set t m : keyed m → keyed (JsMap.set (tool_name t) t m).
Proof.
  unfold keyed. induction m as [|[k v] m IH]; simpl; intros Hm.
  - by repeat constructor.
  - apply Forall_cons in Hm as [Hk Hm]. simpl in Hk.
    destruct (String.eqb k (tool_name t)) eqn:E.
    + apply String.eqb_eq in E. constructor; [done|done].
    + constructor; [done|by apply IH].
Qed.

Lemma keyed_set_all l m : keyed m → keyed (set_all l m).
Proof.
  revert m. induction l as [|t l IH]; intros m Hm; [done|].
  apply IH. by apply keyed_set.
Qed.

Lemma NoDup_keys_set_all l m :
  NoDup (JsMap.keys m) → NoDup (JsMap.keys (set_all l m)).
Proof.
  revert m. induction l as [|t l IH]; intros m Hm; [done|].
  apply IH. by apply NoDup_keys_set.
Qed.

(** The value found under a name is the one written last. *)
Lemma get_set_all n l m :
  JsMap.get n (set_all l m) =
  match last (filter (named n) l) with
  | Some t => Some t
  | None => JsMap.get n m
  end.
Proof.
  induction l as [|t l IH] using rev_ind; [done|].
  rewrite set_all_snoc, filter_app, filter_cons, filter_nil.
  destruct (decide (named n t)) as [Hn|Hn].
  - rewrite last_snoc. unfold named in Hn. subst n. apply get_set_eq.
  - rewrite app_nil_r. rewrite get_set_ne by done. apply IH.
Qed.

(** Entries already in the map keep their position. *)
Lemma set_all_lookup_key l m i n :
  JsMap.keys m !! i = Some n → JsMap.keys (set_all l m) !! i = Some n.
Proof.
  revert m. induction l as [|t l IH]; intros m Hi; [done|].
  apply IH. by apply set_lookup_key.
Qed.

Lemma keys_set_all_elem n l m :
  n ∈ JsMap.keys (set_all l m) ↔ n ∈ JsMap.keys m ∨ n ∈ names l.
Proof.
  revert m. induction l as [|t l IH]; intros m.
  - unfold names. set_solver.
  - change (set_all (t :: l) m) with (set_all l (JsMap.set (tool_name t) t m)).
    rewrite IH, keys_set. unfold names. rewrite fmap_cons.
    case_bool_decide; set_solver.
Qed.

(** New names are appended in the order of the list. *)
Lemma set_all_fresh l m :
  NoDup (names l) → (∀ n, n ∈ names l → n ∉ JsMap.keys m) →
  set_all l m = m ++ ((λ t, (tool_name t, t)) <$> l).
Proof.
  revert m. induction l as [|t l IH]; intros m Hnd Hfresh; simpl.
  - by rewrite app_nil_r.
  - unfold names in Hnd. rewrite fmap_cons in Hnd.
    apply NoDup_cons in Hnd as [Ht Hnd].
    rewrite set_fresh by (apply Hfresh; unfold names; set_solver).
    rewrite IH; [by rewrite <- app_assoc|done|].
    intros n Hn. unfold JsMap.keys. rewrite fmap_app. simpl.
    intros [Hin| ->%list_elem_of_singleton]%elem_of_app; [|done].
    eapply Hfresh; [|done]. unfold names. set_solver.
Qed.

Lemma names_values m : keyed m → names (JsMap.values m) = JsMap.keys m.
Proof.
  unfold keyed, names, JsMap.values, JsMap.keys.
  induction m as [|[k v] m IH]; intros Hm; [done|].
  apply Forall_cons in Hm as [Hk Hm]. simpl in Hk.
  rewrite !fmap_cons. simpl. by rewrite IH, Hk.
Qed.

Lemma filter_values_absent n m :
  keyed m → n ∉ JsMap.keys m → filter (named n) (JsMap.values m) = [].
Proof.
  intros Hk Hn. rewrite <- (names_values m Hk) in Hn.
  induction (JsMap.values m) as [|t l IH]; [done|].
  unfold names in Hn. rewrite fmap_cons in Hn.
  rewrite filter_cons_False; [apply IH|]; unfold named; set_solver.
Qed.

Lemma filter_values n t m :
  keyed m → NoDup (JsMap.keys m) → JsMap.get n m = Some t →
  filter (named n) (JsMap.values m) = [t].
Proof.
  induction m as [|[k v] m IH]; intros Hk Hnd Hg; [done|].
  apply Forall_cons in Hk as [Hkv Hk]. simpl in *.
  apply NoDup_cons in Hnd as [Hfresh Hnd].
  rewrite eqb_decide in Hg.
  destruct (decide (k = n)) as [->|Hne].
  - rewrite bool_decide_eq_true_2 in Hg by done. simplify_eq.
    change (JsMap.values ((tool_name t, t) :: m)) with (t :: JsMap.values m).
    rewrite filter_cons_True by done.
    by rewrite filter_values_absent.
  - rewrite bool_decide_eq_false_2 in Hg by done.
    change (JsMap.values ((k, v) :: m)) with (v :: JsMap.values m).
    rewrite filter_cons_False by (unfold named; congruence).
    by apply IH.
Qed.

Lemma merge_keyed l1 l2 : keyed (set_all l1 (set_all l2 JsMap.empty)).
Proof. do 2 apply keyed_set_all. constructor. Qed.

Lemma merge_NoDup_keys l1 l2 :
  NoDup (JsMap.keys (set_all l1 (set_all l2 JsMap.empty))).
Proof. do 2 apply NoDup_keys_set_all. constructor. Qed.
End merge_facts.

Section overlay_facts.
Implicit Types (l : list IndexedTool) (m : JsMap.t IndexedTool)
  (t : IndexedTool) (n : string).

Lemma values_set t m :
  keyed m →
  JsMap.values (JsMap.set (tool_name t) t m) = overlay_one (JsMap.values m) t.
Proof.
  unfold overlay_one.
  induction m as [|[k v] m IH]; intros Hk; [done|].
  apply Forall_cons in Hk as [Hkv Hk]. simpl in Hkv. subst k.
  change (JsMap.values ((tool_name v, v) :: m)) with (v :: JsMap.values m).
  cbn [list_find JsMap.set]. rewrite eqb_decide.
  destruct (decide (tool_name v = tool_name t)) as [Heq|Hne].
  - rewrite bool_decide_eq_true_2 by done.
    by rewrite decide_True.
  - rewrite bool_decide_eq_false_2 by done.
    rewrite decide_False by done.
    change (JsMap.values ((tool_name v, v) :: ?m')) with (v :: JsMap.values m').
    rewrite IH by done.
    destruct (list_find _ _) as [[i x]|]; done.
Qed.

Lemma values_set_all l m :
  keyed m →
  JsMap.values (set_all l m) = fold_left overlay_one l (JsMap.values m).
Proof.
  revert m. induction l as [|t l IH]; intros m Hk; [done|].
  simpl. rewrite <- values_set by done. apply IH. by apply keyed_set.
Qed.

Lemma filter_absent n l : n ∉ names l → filter (named n) l = [].
Proof.
  induction l as [|t l IH]; intros Hn; [done|].
  unfold names in Hn. rewrite fmap_cons in Hn.
  rewrite filter_cons_False; [apply IH|]; unfold named; set_solver.
Qed.

Lemma last_filter_after n t l1 l2 :
  tool_name t = n → n ∉ names l2 →
  last (filter (named n) (l1 ++ t :: l2)) = Some t.
Proof.
  intros Hn Hl2. rewrite filter_app, filter_cons_True by done.
  rewrite (filter_absent n l2) by done. apply last_snoc.
Qed.

(** A name written twice: the slot is the one of the first write, the
    value the one of the last. *)
Lemma set_all_duplicate m0 l1 t1 rest t2 n :
  keyed m0 → NoDup (JsMap.keys m0) →
  n ∉ JsMap.keys m0 → n ∉ names l1 → tool_name t1 = n →
  last (filter (named n) rest) = Some t2 →
  JsMap.values (set_all (l1 ++ [t1]) m0)
    = JsMap.values (set_all l1 m0) ++ [t1]
  ∧ JsMap.values (set_all (l1 ++ t1 :: rest) m0)
      !! length (JsMap.values (set_all l1 m0)) = Some t2
  ∧ filter (named n) (JsMap.values (set_all (l1 ++ t1 :: rest) m0)) = [t2].
Proof.
  intros Hk Hnd Hm0 Hl1 Hn Hlast.
  assert (n ∉ JsMap.keys (set_all l1 m0)) as Hfresh.
  { rewrite keys_set_all_elem. tauto. }
  assert (set_all (l1 ++ [t1]) m0 = set_all l1 m0 ++ [(n, t1)]) as Hfirst.
  { rewrite set_all_snoc, Hn. by apply set_fresh. }
  assert (JsMap.get n (set_all (l1 ++ t1 :: rest) m0) = Some t2) as Hget.
  { rewrite set_all_app, get_set_all.
    change (t1 :: rest) with ([t1] ++ rest).
    rewrite filter_app, last_app, Hlast. done. }
  split_and!.
  - rewrite Hfirst. unfold JsMap.values. by rewrite fmap_app.
  - assert (length (JsMap.values (set_all l1 m0)) = length (set_all l1 m0))
      as -> by apply length_fmap.
    eapply get_lookup; [| |exact Hget].
    + by apply NoDup_keys_set_all.
    + change (l1 ++ t1 :: rest) with (l1 ++ [t1] ++ rest).
      rewrite app_assoc, (set_all_app (l1 ++ [t1])).
      apply set_all_lookup_key. rewrite Hfirst.
      unfold JsMap.keys. rewrite fmap_app.
      rewrite lookup_app_r; rewrite length_fmap; [|lia].
      by rewrite Nat.sub_diag.
  - apply filter_values; [by apply keyed_set_all|by apply NoDup_keys_set_all|done].
Qed.
End overlay_facts.

Lemma set_app_l {V} (k : string) (v : V) (A B : list (string * V)) :
  k ∈ JsMap.keys A → JsMap.set k v (A ++ B) = JsMap.set k v A ++ B.
Proof.
  induction A as [|[k' v'] A IH]; simpl; intros Hk.
  - by apply not_elem_of_nil in Hk.
  - destruct (String.eqb k' k) eqn:E; [done|].
    rewrite IH; [done|]. apply String.eqb_neq in E. set_solver.
Qed.

Lemma set_app_r {V} (k : string) (v : V) (A B : list (string * V)) :
  k ∉ JsMap.keys A → JsMap.set k v (A ++ B) = A ++ JsMap.set k v B.
Proof.
  induction A as [|[k' v'] A IH]; simpl; intros Hk; [done|].
  rewrite eqb_decide. rewrite bool_decide_eq_false_2 by set_solver.
  rewrite IH; [done|set_solver].
Qed.

Lemma keys_updated_by l m : JsMap.keys (updated_by l m) = JsMap.keys m.
Proof.
  unfold JsMap.keys, updated_by. rewrite <- list_fmap_compose.
  by apply list_fmap_ext.
Qed.

Lemma updated_by_snoc_other l t m :
  tool_name t ∉ JsMap.keys m → updated_by (l ++ [t]) m = updated_by l m.
Proof.
  intros Hk. unfold updated_by. apply Forall_fmap_ext_1, Forall_forall.
  intros [k v] Hin. simpl. f_equal.
  rewrite filter_app, filter_cons_False, filter_nil, app_nil_r; [done|].
  unfold named. intros <-. apply Hk.
  unfold JsMap.keys. apply list_elem_of_fmap. by exists (tool_name t, v).
Qed.

Lemma set_updated_by l t m :
  NoDup (JsMap.keys m) → tool_name t ∈ JsMap.keys m →
  JsMap.set (tool_name t) t (updated_by l m) = updated_by (l ++ [t]) m.
Proof.
  induction m as [|[k v] m IH]; intros Hnd Hk.
  - by apply not_elem_of_nil in Hk.
  - unfold JsMap.keys in *. rewrite fmap_cons in Hnd, Hk. simpl in Hnd, Hk.
    apply NoDup_cons in Hnd as [Hfresh Hnd].
    unfold updated_by. rewrite !fmap_cons. cbn [JsMap.set fst snd].
    rewrite eqb_decide. destruct (decide (k = tool_name t)) as [->|Hne].
    + rewrite bool_decide_eq_true_2 by done.
      rewrite filter_app, filter_cons_True, filter_nil, last_snoc by done.
      simpl.
      f_equal. symmetry. by apply updated_by_snoc_other.
    + rewrite bool_decide_eq_false_2 by done.
      rewrite filter_app, filter_cons_False, filter_nil, app_nil_r
        by (unfold named; congruence).
      f_equal. apply IH; [done|]. set_solver.
Qed.

(** Writing a list of tools over a map splits into the entries that were
    there, updated in place, followed by the entries for the new names. *)
Lemma set_all_split l m :
  NoDup (JsMap.keys m) →
  set_all l m =
  updated_by l m
  ++ set_all (filter (λ t, tool_name t ∉ JsMap.keys m) l) JsMap.empty.
Proof.
  intros Hnd. induction l as [|t l IH] using rev_ind.
  - simpl. unfold updated_by. rewrite app_nil_r.
    rewrite <- (list_fmap_id m) at 1. apply list_fmap_ext. by intros ? [??] ?.
  - rewrite set_all_snoc, IH, filter_app, filter_cons, filter_nil.
    destruct (decide (tool_name t ∉ JsMap.keys m)) as [Hnew|Hold].
    + rewrite set_all_snoc, updated_by_snoc_other by done.
      apply set_app_r. by rewrite keys_updated_by.
    + apply dec_stable in Hold. rewrite app_nil_r.
      rewrite set_app_l by (by rewrite keys_updated_by).
      by rewrite set_updated_by.
Qed.

Lemma values_updated_by l m :
  keyed m → JsMap.values (updated_by l m) = overridden_by l <$> JsMap.values m.
Proof.
  intros Hk. unfold JsMap.values, updated_by. rewrite <- !list_fmap_compose.
  apply Forall_fmap_ext_1, Forall_forall. intros [k v] Hin. simpl.
  unfold overridden_by.
  assert (k = tool_name v) as ->; [|done].
  unfold keyed in Hk. rewrite Forall_forall in Hk. by apply (Hk (k, v)).
Qed.

Lemma values_app {V} (A B : list (string * V)) :
  JsMap.values (A ++ B) = JsMap.values A ++ JsMap.values B.
Proof. apply fmap_app. Qed.

Lemma tools_of_new_in_project project user :
  tools_of (new_in_project project user)
  = filter (λ t, tool_name t ∉ names (tools_of user)) (tools_of project).
Proof. by destruct project. Qed.

(** The closed form of the merge. *)
Lemma merge_closed_form D project user :
  mergeIndexedTools D project user
  = (overridden_by (tools_of project) <$> mergeIndexedTools D None user)
    ++ mergeIndexedTools D (new_in_project project user) None.
Proof.
  rewrite !merge_unfold. simpl.
  rewrite (set_all_split (tools_of project)) by (apply NoDup_keys_set_all; constructor).
  rewrite values_app.
  rewrite values_updated_by by (apply keyed_set_all; constructor).
  f_equal. rewrite tools_of_new_in_project. do 2 f_equal.
  apply list_filter_iff. intros t. rewrite keys_set_all_elem.
  unfold JsMap.keys, JsMap.empty. simpl. rewrite elem_of_nil. tauto.
Qed.


(** ** Running the store-level functions *)

Section ref_run.
(* The value-level functions, under names that stay visible once the
   store-level module is opened. *)
Local Abbreviation value_mergeIndexedTools := mergeIndexedTools.
Local Abbreviation value_selectBM25Stats := selectBM25Stats.
Local Abbreviation value_hasAnyEmbeddings := hasAnyEmbeddings.
Import Ref.
Implicit Types (w : World) (h : gmap loc obj) (l mref : loc)
  (es : JsMap.t loc) (lts : list (loc * IndexedTool)).

Lemma bind_run {A B} (m : M A) (f : A → M B) w :
  (m ≫= f) w = match m w with Some (a, w') => f a w' | None => None end.
Proof. reflexivity. Qed.

Ltac run_binds :=
  repeat first [rewrite bind_run | progress (cbn [mret M_ret])].

Lemma read_run w l o : heap w !! l = Some o → read l w = Some (o, w).
Proof. intros H. unfold read. by rewrite H. Qed.

Lemma read_index_run w l ix :
  heap w !! l = Some (OIndex ix) → read_index l w = Some (ix, w).
Proof. intros H. unfold read_index. by rewrite bind_run, (read_run _ _ _ H). Qed.

Lemma read_array_run w l items :
  heap w !! l = Some (OArray items) → read_array l w = Some (items, w).
Proof. intros H. unfold read_array. by rewrite bind_run, (read_run _ _ _ H). Qed.

Lemma read_map_run w l es :
  heap w !! l = Some (OMap es) → read_map l w = Some (es, w).
Proof. intros H. unfold read_map. by rewrite bind_run, (read_run _ _ _ H). Qed.

Lemma read_tool_name_run w l t :
  heap w !! l = Some (OTool t) → read_tool_name l w = Some (tool_name t, w).
Proof.
  intros H. unfold read_tool_name. by rewrite bind_run, (read_run _ _ _ H).
Qed.

Lemma map_set_run w mref es k v :
  heap w !! mref = Some (OMap es) →
  map_set mref k v w =
  Some ((), {| heap := <[mref := OMap (JsMap.set k v es)]> (heap w);
               stderr := stderr w |}).
Proof.
  intros H. unfold map_set. rewrite bind_run, (read_map_run _ _ _ H).
  unfold write. by rewrite H.
Qed.

Lemma map_has_run w mref es k :
  heap w !! mref = Some (OMap es) →
  map_has mref k w = Some (JsMap.has k es, w).
Proof.
  intros H. unfold map_has. by rewrite bind_run, (read_map_run _ _ _ H).
Qed.

(** Writing the map object leaves the tool objects where they are. *)
Lemma tools_stay h mref es es' lts :
  h !! mref = Some (OMap es) →
  Forall (λ lt, h !! lt.1 = Some (OTool lt.2)) lts →
  Forall (λ lt, <[mref := OMap es']> h !! lt.1 = Some (OTool lt.2)) lts.
Proof.
  intros Hm Hts. eapply Forall_impl; [exact Hts|].
  intros [l t] Hl. simpl in *.
  rewrite lookup_insert_ne; [done|]. intros ->. congruence.
Qed.

Lemma user_body_run mref w es l t :
  heap w !! mref = Some (OMap es) →
  heap w !! l = Some (OTool t) →
  user_loop_body mref () l w =
  Some ((), {| heap := <[mref := OMap (user_step es (l, t))]> (heap w);
               stderr := stderr w |}).
Proof.
  intros Hm Hl. unfold user_loop_body. rewrite bind_run.
  rewrite (read_tool_name_run _ _ _ Hl). by apply map_set_run.
Qed.

Lemma project_body_run D mref w es c l t :
  heap w !! mref = Some (OMap es) →
  heap w !! l = Some (OTool t) →
  project_loop_body D mref c l w =
  Some ((project_step D (es, c, stderr w) (l, t)).1.2,
        {| heap := <[mref := OMap (project_step D (es, c, stderr w) (l, t)).1.1]>
                     (heap w);
           stderr := (project_step D (es, c, stderr w) (l, t)).2 |}).
Proof.
  intros Hm Hl. unfold project_loop_body, project_step. cbn [fst snd].
  rewrite bind_run, (read_tool_name_run _ _ _ Hl), bind_run.
  destruct D; cbn [andb].
  - rewrite (map_has_run _ _ _ _ Hm).
    destruct (JsMap.has (tool_name t) es).
    + run_binds. unfold console_error at 1. run_binds.
      erewrite map_set_run by exact Hm. reflexivity.
    + run_binds. erewrite map_set_run by exact Hm. reflexivity.
  - run_binds. erewrite map_set_run by exact Hm. reflexivity.
Qed.

Lemma user_loop_run mref lts : ∀ w es,
  heap w !! mref = Some (OMap es) →
  Forall (λ lt, heap w !! lt.1 = Some (OTool lt.2)) lts →
  for_of (user_loop_body mref) lts.*1 () w =
  Some ((), {| heap := <[mref := OMap (fold_left user_step lts es)]> (heap w);
               stderr := stderr w |}).
Proof.
  induction lts as [|[l t] lts IH]; intros w es Hm Hts.
  - simpl. unfold mret, M_ret. rewrite insert_id by done. by destruct w.
  - apply Forall_cons in Hts as [Hl Hts]. simpl in Hl.
    rewrite fmap_cons. cbn [for_of fst fold_left]. rewrite bind_run.
    rewrite (user_body_run _ _ _ _ _ Hm Hl).
    erewrite IH; cbn [heap stderr].
    + by rewrite insert_insert_eq.
    + apply lookup_insert_eq.
    + by eapply tools_stay.
Qed.

Lemma project_loop_run D mref lts : ∀ w es c,
  heap w !! mref = Some (OMap es) →
  Forall (λ lt, heap w !! lt.1 = Some (OTool lt.2)) lts →
  for_of (project_loop_body D mref) lts.*1 c w =
  Some ((fold_left (project_step D) lts (es, c, stderr w)).1.2,
        {| heap := <[mref := OMap (fold_left (project_step D) lts
                                     (es, c, stderr w)).1.1]> (heap w);
           stderr := (fold_left (project_step D) lts (es, c, stderr w)).2 |}).
Proof.
  induction lts as [|[l t] lts IH]; intros w es c Hm Hts.
  - simpl. unfold mret, M_ret. rewrite insert_id by done. by destruct w.
  - apply Forall_cons in Hts as [Hl Hts]. simpl in Hl.
    rewrite fmap_cons. cbn [for_of fst fold_left]. rewrite bind_run.
    rewrite (project_body_run _ _ _ _ _ _ _ Hm Hl).
    destruct (project_step D (es, c, stderr w) (l, t)) as [[es' c'] out'].
    cbn [fst snd].
    erewrite IH; cbn [heap stderr].
    + by rewrite insert_insert_eq.
    + apply lookup_insert_eq.
    + by eapply tools_stay.
Qed.

(** *** Growing the heap keeps well-typed references well typed *)

Lemma fresh_lookup h : h !! fresh (dom h) = None.
Proof. apply not_elem_of_dom. apply is_fresh. Qed.

Lemma insert_fresh_subseteq h o : h ⊆ <[fresh (dom h) := o]> h.
Proof. apply insert_subseteq. apply fresh_lookup. Qed.

Lemma is_index_weaken h h' l : h ⊆ h' → is_index h l → is_index h' l.
Proof.
  intros Hsub (ix & items & Hix & Harr & Hts & Hst).
  exists ix, items. split_and!.
  - by eapply lookup_weaken.
  - by eapply lookup_weaken.
  - eapply Forall_impl; [exact Hts|]. intros tl [t Ht]. exists t.
    by eapply lookup_weaken.
  - intros s Hs. destruct (Hst s Hs) as [st Hst']. exists st.
    by eapply lookup_weaken.
Qed.

Lemma well_typed_weaken h h' index :
  h ⊆ h' → well_typed h index → well_typed h' index.
Proof. intros Hsub Hwt l Hl. eapply is_index_weaken; [done|]. by apply Hwt. Qed.

Lemma items_of_weaken h h' index :
  h ⊆ h' → well_typed h index → items_of h' index = items_of h index.
Proof.
  intros Hsub Hwt. destruct index as [l|]; [|done].
  destruct (Hwt l eq_refl) as (ix & items & Hix & Harr & _). simpl.
  rewrite Hix, Harr.
  by rewrite (lookup_weaken _ _ _ _ Hix Hsub), (lookup_weaken _ _ _ _ Harr Hsub).
Qed.

Lemma denotes_weaken h h' index lts :
  h ⊆ h' → well_typed h index → denotes h index lts → denotes h' index lts.
Proof.
  intros Hsub Hwt [Hitems Hts]. split.
  - by rewrite (items_of_weaken h h').
  - eapply Forall_impl; [exact Hts|]. intros lt Hlt. simpl in *.
    by eapply lookup_weaken.
Qed.

Lemma denotes_exists h index :
  well_typed h index → ∃ lts, denotes h index lts.
Proof.
  intros Hwt. destruct index as [l|].
  - destruct (Hwt l eq_refl) as (ix & items & Hix & Harr & Hts & _).
    assert (∃ lts : list (loc * IndexedTool), lts.*1 = items
              ∧ Forall (λ lt, h !! lt.1 = Some (OTool lt.2)) lts)
      as (lts & Hfst & Hall).
    { clear Harr. induction Hts as [|tl items [t Ht] _ (lts & <- & Hall)].
      - by exists [].
      - exists ((tl, t) :: lts). split; [done|]. by constructor. }
    exists lts. split; [|done]. simpl. by rewrite Hix, Harr.
  - exists []. split; [done|constructor].
Qed.

(** *** The two branches of [mergeIndexedTools] *)

Lemma user_branch_run mref w es u lu :
  heap w !! mref = Some (OMap es) →
  well_typed (heap w) u → denotes (heap w) u lu →
  match u with
  | Some ui =>
      ix ← read_index ui;
      items ← read_array (ix_tools ix);
      for_of (user_loop_body mref) items ()
  | None => mret ()
  end w =
  Some ((), {| heap := <[mref := OMap (fold_left user_step lu es)]> (heap w);
               stderr := stderr w |}).
Proof.
  intros Hm Hwt [Hitems Hts]. destruct u as [ui|].
  - destruct (Hwt ui eq_refl) as (ix & items & Hix & Harr & _).
    simpl in Hitems. rewrite Hix, Harr in Hitems. subst items.
    rewrite bind_run, (read_index_run _ _ _ Hix).
    rewrite bind_run, (read_array_run _ _ _ Harr).
    by apply user_loop_run.
  - simpl in Hitems. apply fmap_nil_inv in Hitems. subst lu.
    cbn [mret M_ret fold_left]. rewrite insert_id by done. by destruct w.
Qed.

Lemma project_branch_run D mref w es p lp :
  heap w !! mref = Some (OMap es) →
  well_typed (heap w) p → denotes (heap w) p lp →
  match p with
  | Some pi =>
      ix ← read_index pi;
      items ← read_array (ix_tools ix);
      for_of (project_loop_body D mref) items 0
  | None => mret 0
  end w =
  Some ((fold_left (project_step D) lp (es, 0, stderr w)).1.2,
        {| heap := <[mref := OMap (fold_left (project_step D) lp
                                     (es, 0, stderr w)).1.1]> (heap w);
           stderr := (fold_left (project_step D) lp (es, 0, stderr w)).2 |}).
Proof.
  intros Hm Hwt [Hitems Hts]. destruct p as [pi|].
  - destruct (Hwt pi eq_refl) as (ix & items & Hix & Harr & _).
    simpl in Hitems. rewrite Hix, Harr in Hitems. subst items.
    rewrite bind_run, (read_index_run _ _ _ Hix).
    rewrite bind_run, (read_array_run _ _ _ Harr).
    by apply project_loop_run.
  - simpl in Hitems. apply fmap_nil_inv in Hitems. subst lp.
    cbn [mret M_ret fold_left fst snd]. rewrite insert_id by done.
    by destruct w.
Qed.

(** The outcome of [mergeIndexedTools] in full: the map object and the
    returned array are the only additions to the heap. *)
Lemma merge_explicit D w p u lp lu :
  well_typed (heap w) p → well_typed (heap w) u →
  denotes (heap w) p lp → denotes (heap w) u lu →
  let mref := fresh (dom (heap w)) in
  let st := fold_left (project_step D) lp
              (fold_left user_step lu JsMap.empty, 0, stderr w) in
  let h1 := <[mref := OMap st.1.1]> (heap w) in
  Ref.mergeIndexedTools D p u w =
  Some (fresh (dom h1),
        {| heap := <[fresh (dom h1) := OArray (JsMap.values st.1.1)]> h1;
           stderr := if D && bool_decide (0 < st.1.2)
                     then st.2 ++ [summary_message st.1.2] else st.2 |}).
Proof.
  intros Hp Hu Hlp Hlu mref st h1.
  unfold Ref.mergeIndexedTools. rewrite bind_run. unfold alloc at 1.
  fold mref. set (h0 := <[mref := OMap JsMap.empty]> (heap w)).
  assert (heap w ⊆ h0) as Hsub by apply insert_fresh_subseteq.
  rewrite bind_run.
  erewrite (user_branch_run mref _ JsMap.empty u lu); cbn [heap stderr];
    [|apply lookup_insert_eq|by eapply well_typed_weaken
     |by eapply denotes_weaken].
  subst h0. rewrite insert_insert_eq.
  set (es1 := fold_left user_step lu JsMap.empty) in *.
  set (h0 := <[mref := OMap es1]> (heap w)).
  assert (heap w ⊆ h0) as Hsub1 by apply insert_fresh_subseteq.
  rewrite bind_run.
  erewrite (project_branch_run D mref _ es1 p lp); cbn [heap stderr];
    [|apply lookup_insert_eq|by eapply well_typed_weaken
     |by eapply denotes_weaken].
  subst h0. rewrite insert_insert_eq. fold st. fold h1.
  rewrite bind_run.
  assert (∀ out, read_map mref {| heap := h1; stderr := out |}
                 = Some (st.1.1, {| heap := h1; stderr := out |})) as Hread.
  { intros out. apply read_map_run. apply lookup_insert_eq. }
  destruct (D && bool_decide (0 < st.1.2)).
  - unfold console_error at 1. cbn [heap stderr].
    rewrite bind_run, Hread. reflexivity.
  - cbn [mret M_ret]. rewrite bind_run, Hread. reflexivity.
Qed.

(** *** The store-level merge computes the value-level merge *)

Lemma related_set h es m k l t :
  related h es m → h !! l = Some (OTool t) →
  related h (JsMap.set k l es) (JsMap.set k t m).
Proof.
  intros Hrel Hl. induction Hrel as [|[k1 l1] [k2 t2] es m [Hk Hv] Hrel IH].
  - constructor; [done|constructor].
  - simpl in Hk, Hv. subst k2. simpl.
    destruct (String.eqb k1 k).
    + constructor; [by split|exact Hrel].
    + constructor; [by split|exact IH].
Qed.

Lemma related_has h es m k :
  related h es m → JsMap.has k es = JsMap.has k m.
Proof.
  induction 1 as [|[k1 l1] [k2 t2] es m [Hk Hv] _ IH]; [done|].
  simpl in Hk. subst k2. simpl. by rewrite IH.
Qed.

Lemma related_weaken h h' es m : h ⊆ h' → related h es m → related h' es m.
Proof.
  intros Hsub Hrel. eapply Forall2_impl; [exact Hrel|].
  intros kl kt [Hk Hv]. split; [done|]. by eapply lookup_weaken.
Qed.

Lemma related_values h es m :
  related h es m → mapM (tool_at h) (JsMap.values es) = Some (JsMap.values m).
Proof.
  intros Hrel. apply mapM_Some. unfold JsMap.values.
  apply Forall2_fmap. eapply Forall2_impl; [exact Hrel|].
  intros kl kt [_ Hv]. unfold tool_at. simpl. by rewrite Hv.
Qed.

Lemma project_step_map D lts : ∀ st,
  (fold_left (project_step D) lts st).1.1 = fold_left user_step lts st.1.1.
Proof. induction lts as [|lt lts IH]; intros st; [done|]. simpl. by rewrite IH. Qed.

Lemma related_user_fold h lts : ∀ es m,
  Forall (λ lt, h !! lt.1 = Some (OTool lt.2)) lts →
  related h es m →
  related h (fold_left user_step lts es) (set_all lts.*2 m).
Proof.
  induction lts as [|[l t] lts IH]; intros es m Hts Hrel; [done|].
  apply Forall_cons in Hts as [Hl Hts]. simpl in *.
  apply IH; [done|]. by apply related_set.
Qed.

Lemma project_step_related D h base es c st l t :
  related h es (toolMap st) → h !! l = Some (OTool t) →
  c = overrideCount st →
  project_step D (es, c, base ++ console st) (l, t)
  = ((project_step D (es, c, base ++ console st) (l, t)).1.1,
     overrideCount (add_project_tool D st t),
     base ++ console (add_project_tool D st t))
  ∧ related h (project_step D (es, c, base ++ console st) (l, t)).1.1
      (toolMap (add_project_tool D st t)).
Proof.
  intros Hrel Hl ->. unfold project_step, add_project_tool. cbn [fst snd].
  rewrite (related_has _ _ _ (tool_name t) Hrel).
  destruct (D && JsMap.has (tool_name t) (toolMap st));
    cbn [toolMap overrideCount console]; rewrite ?app_assoc;
    (split; [done|by apply related_set]).
Qed.

Lemma project_fold_console D h base lts : ∀ es c st,
  Forall (λ lt, h !! lt.1 = Some (OTool lt.2)) lts →
  related h es (toolMap st) → c = overrideCount st →
  (fold_left (project_step D) lts (es, c, base ++ console st)).1.2
    = overrideCount (fold_left (add_project_tool D) lts.*2 st)
  ∧ (fold_left (project_step D) lts (es, c, base ++ console st)).2
    = base ++ console (fold_left (add_project_tool D) lts.*2 st).
Proof.
  induction lts as [|[l t] lts IH]; intros es c st Hts Hrel Hc; [done|].
  apply Forall_cons in Hts as [Hl Hts]. simpl in Hl.
  destruct (project_step_related D h base es c st l t Hrel Hl Hc)
    as [Hstep Hrel'].
  rewrite fmap_cons. cbn [fold_left snd]. rewrite Hstep.
  by apply IH.
Qed.

Lemma index_at_typed h l lts :
  is_index h l → denotes h (Some l) lts →
  ∃ ix pv, h !! l = Some (OIndex ix) ∧ index_at h l = Some pv
    ∧ tools pv = lts.*2
    ∧ hasEmbeddings pv = ix_hasEmbeddings ix
    ∧ bm25Stats pv = ix_bm25Stats ix ≫= stats_at h
    ∧ (∀ s, ix_bm25Stats ix = Some s → is_Some (stats_at h s)).
Proof.
  intros (ix & items & Hix & Harr & Hts & Hst) [Hitems Hall].
  simpl in Hitems. rewrite Hix, Harr in Hitems. subst items.
  assert (array_at h (ix_tools ix) = Some lts.*2) as Harr_at.
  { unfold array_at. rewrite Harr. apply mapM_Some.
    apply Forall2_fmap, Forall_Forall2_diag.
    eapply Forall_impl; [exact Hall|]. intros [tl t] Ht. simpl in *.
    unfold tool_at. by rewrite Ht. }
  assert (∀ s, ix_bm25Stats ix = Some s → is_Some (stats_at h s)) as Hst'.
  { intros s Hs. destruct (Hst s Hs) as [sv Hsv].
    exists sv. unfold stats_at. by rewrite Hsv. }
  exists ix. unfold index_at. rewrite Hix, Harr_at. simpl.
  destruct (ix_bm25Stats ix) as [s|] eqn:Hs.
  - destruct (Hst' s eq_refl) as [sv Hsv]. rewrite Hsv. simpl.
    eexists. split_and!; done.
  - simpl. eexists. split_and!; done.
Qed.

Lemma tools_of_denoted h index lts :
  well_typed h index → denotes h index lts →
  tools_of (denoted h index) = lts.*2.
Proof.
  intros Hwt Hden. destruct index as [l|].
  - destruct (index_at_typed h l lts (Hwt l eq_refl) Hden)
      as (ix & pv & _ & Hpv & Htools & _).
    simpl. by rewrite Hpv.
  - destruct Hden as [Hitems _]. simpl in Hitems.
    apply fmap_nil_inv in Hitems. by subst.
Qed.

Lemma merge_run_tools_of D p u :
  merge_run D p u =
  let st0 := {| toolMap := JsMap.empty; overrideCount := 0; console := [] |} in
  let st2 := fold_left (add_project_tool D) (tools_of p)
               (fold_left add_user_tool (tools_of u) st0) in
  (JsMap.values (toolMap st2),
   if D && bool_decide (0 < overrideCount st2)
   then console st2 ++ [summary_message (overrideCount st2)] else console st2).
Proof.
  unfold merge_run. destruct p, u; simpl; by destruct (D && _).
Qed.

Lemma user_loop_console (ts : list IndexedTool) st :
  overrideCount (fold_left add_user_tool ts st) = overrideCount st
  ∧ console (fold_left add_user_tool ts st) = console st.
Proof.
  revert st. induction ts as [|t ts IH]; intros st; [done|].
  apply (IH (add_user_tool st t)).
Qed.

(** The array the store-level merge returns denotes the list the
    value-level merge returns, and both print the same lines. *)
Lemma merge_refines D w p u :
  well_typed (heap w) p → well_typed (heap w) u →
  ∃ r w',
    Ref.mergeIndexedTools D p u w = Some (r, w')
    ∧ array_at (heap w') r
      = Some (value_mergeIndexedTools D (denoted (heap w) p)
                (denoted (heap w) u))
    ∧ stderr w'
      = stderr w ++ (merge_run D (denoted (heap w) p) (denoted (heap w) u)).2.
Proof.
  intros Hp Hu.
  destruct (denotes_exists _ _ Hp) as [lp Hlp].
  destruct (denotes_exists _ _ Hu) as [lu Hlu].
  eexists _, _. split; [by apply (merge_explicit D w p u lp lu)|].
  cbv zeta.
  set (st0 := {| toolMap := JsMap.empty; overrideCount := 0; console := [] |}).
  set (es1 := fold_left user_step lu JsMap.empty).
  set (rs := fold_left (project_step D) lp (es1, 0, stderr w)).
  set (h1 := <[fresh (dom (heap w)) := OMap rs.1.1]> (heap w)).
  set (h2 := <[fresh (dom h1) := OArray (JsMap.values rs.1.1)]> h1).
  assert (heap w ⊆ h2) as Hsub.
  { etrans; [apply insert_fresh_subseteq|]. apply insert_fresh_subseteq. }
  pose proof (proj2 Hlu) as Hlu_all. pose proof (proj2 Hlp) as Hlp_all.
  assert (related (heap w) es1 (toolMap (fold_left add_user_tool lu.*2 st0)))
    as Hrel1.
  { rewrite toolMap_user_loop. apply related_user_fold; [done|constructor]. }
  assert (related (heap w) rs.1.1
            (set_all lp.*2 (set_all lu.*2 JsMap.empty))) as Hrel2.
  { subst rs. rewrite project_step_map. cbn [fst].
    apply related_user_fold; [done|].
    subst es1. apply related_user_fold; [done|constructor]. }
  destruct (user_loop_console lu.*2 st0) as [Hc0 Hout0].
  pose proof (project_fold_console D (heap w) (stderr w) lp es1 0
                (fold_left add_user_tool lu.*2 st0) Hlp_all Hrel1) as Hpf.
  rewrite Hout0, Hc0 in Hpf. simpl in Hpf. rewrite app_nil_r in Hpf.
  destruct (Hpf eq_refl) as [Hcount Hout]. clear Hpf.
  fold st0 rs in Hcount, Hout.
  split.
  - cbn [heap]. unfold array_at. fold h1 h2. subst h2.
    rewrite lookup_insert_eq.
    rewrite merge_unfold.
    rewrite (tools_of_denoted _ p lp), (tools_of_denoted _ u lu) by done.
    apply related_values. by eapply related_weaken.
  - cbn [stderr]. rewrite merge_run_tools_of. cbv zeta. cbn [snd].
    rewrite (tools_of_denoted _ p lp), (tools_of_denoted _ u lu) by done.
    fold st0. rewrite Hcount, Hout.
    destruct (D && _); by rewrite ?app_assoc.
Qed.

(** *** Statistics selection and the embeddings flag over the store *)

Lemma denoted_typed h index :
  well_typed h index →
  match index with
  | Some l =>
      ∃ ix pv, h !! l = Some (OIndex ix) ∧ denoted h index = Some pv
        ∧ hasEmbeddings pv = ix_hasEmbeddings ix
        ∧ bm25Stats pv = ix_bm25Stats ix ≫= stats_at h
        ∧ (∀ s, ix_bm25Stats ix = Some s → is_Some (stats_at h s))
  | None => denoted h index = None
  end.
Proof.
  intros Hwt. destruct index as [l|]; [|done].
  destruct (denotes_exists _ _ Hwt) as [lts Hlts].
  destruct (index_at_typed h l lts (Hwt l eq_refl) Hlts)
    as (ix & pv & Hix & Hpv & _ & Hemb & Hst & Hsome).
  by exists ix, pv.
Qed.

Lemma stats_of_run w index :
  well_typed (heap w) index →
  stats_of index w = Some (stats_ref_of (heap w) index, w).
Proof.
  intros Hwt. destruct index as [l|]; [|done].
  destruct (Hwt l eq_refl) as (ix & items & Hix & _).
  unfold stats_of. rewrite bind_run, (read_index_run _ _ _ Hix).
  simpl. by rewrite Hix.
Qed.

Lemma select_explicit w p u :
  well_typed (heap w) p → well_typed (heap w) u →
  Ref.selectBM25Stats p u w =
  match nullish (stats_ref_of (heap w) p) (stats_ref_of (heap w) u) with
  | Some s => Some (s, w)
  | None =>
      Some (fresh (dom (heap w)),
            {| heap := <[fresh (dom (heap w)) := OStats default_stats]> (heap w);
               stderr := stderr w |})
  end.
Proof.
  intros Hp Hu. unfold Ref.selectBM25Stats.
  rewrite bind_run, (stats_of_run _ _ Hp), bind_run.
  destruct (stats_ref_of (heap w) p) as [s|]; [done|].
  rewrite (stats_of_run _ _ Hu). simpl.
  by destruct (stats_ref_of (heap w) u).
Qed.

Lemma stats_ref_denoted h index :
  well_typed h index →
  denoted h index ≫= bm25Stats = stats_ref_of h index ≫= stats_at h
  ∧ (∀ s, stats_ref_of h index = Some s → is_Some (stats_at h s)).
Proof.
  intros Hwt. pose proof (denoted_typed h index Hwt) as Hd.
  destruct index as [l|].
  - destruct Hd as (ix & pv & Hix & Hpv & _ & Hst & Hsome).
    rewrite Hpv. simpl. by rewrite Hix.
  - rewrite Hd. simpl. split; [done|]. by intros s [=].
Qed.

Lemma select_refines w p u :
  well_typed (heap w) p → well_typed (heap w) u →
  ∃ r w',
    Ref.selectBM25Stats p u w = Some (r, w')
    ∧ stats_at (heap w') r
      = Some (value_selectBM25Stats (denoted (heap w) p) (denoted (heap w) u)).
Proof.
  intros Hp Hu. rewrite select_explicit by done.
  destruct (stats_ref_denoted _ _ Hp) as [Hdp Hsp].
  destruct (stats_ref_denoted _ _ Hu) as [Hdu Hsu].
  unfold value_selectBM25Stats. rewrite Hdp, Hdu.
  destruct (stats_ref_of (heap w) p) as [sp|]; simpl.
  - destruct (Hsp sp eq_refl) as [sv Hsv]. eexists _, _.
    split; [done|]. by rewrite Hsv.
  - destruct (stats_ref_of (heap w) u) as [su|]; simpl.
    + destruct (Hsu su eq_refl) as [sv Hsv]. eexists _, _.
      split; [done|]. by rewrite Hsv.
    + eexists _, _. split; [done|]. cbn [heap]. unfold stats_at.
      by rewrite lookup_insert_eq.
Qed.

Lemma embeddings_of_run w index :
  well_typed (heap w) index →
  embeddings_of index w =
  Some (default false (nullish (denoted (heap w) index ≫= hasEmbeddings)
                         (Some false)), w).
Proof.
  intros Hwt. pose proof (denoted_typed _ index Hwt) as Hd.
  destruct index as [l|].
  - destruct Hd as (ix & pv & Hix & Hpv & Hemb & _).
    unfold embeddings_of. rewrite bind_run, (read_index_run _ _ _ Hix).
    rewrite Hpv. simpl. rewrite Hemb. by destruct (ix_hasEmbeddings ix).
  - by rewrite Hd.
Qed.

Lemma hasAny_explicit w p u :
  well_typed (heap w) p → well_typed (heap w) u →
  Ref.hasAnyEmbeddings p u w =
  Some (value_hasAnyEmbeddings (denoted (heap w) p) (denoted (heap w) u), w).
Proof.
  intros Hp Hu. unfold Ref.hasAnyEmbeddings, value_hasAnyEmbeddings.
  rewrite bind_run, (embeddings_of_run _ _ Hp).
  destruct (default false _); [done|].
  by rewrite (embeddings_of_run _ _ Hu).
Qed.

(** *** Where the returned array's elements come from *)

Lemma values_set_elem (k : string) (v x : loc) es :
  x ∈ JsMap.values (JsMap.set k v es) → x = v ∨ x ∈ JsMap.values es.
Proof.
  unfold JsMap.values. induction es as [|[k' v'] es IH]; simpl.
  - rewrite list_elem_of_singleton. by left.
  - destruct (String.eqb k' k); simpl; rewrite !elem_of_cons;
      [tauto|]. intros [->|Hx]; [tauto|]. destruct (IH Hx); tauto.
Qed.

Lemma values_user_fold x lts : ∀ es,
  x ∈ JsMap.values (fold_left user_step lts es) →
  x ∈ JsMap.values es ∨ x ∈ lts.*1.
Proof.
  induction lts as [|[l t] lts IH]; intros es Hx; [by left|].
  simpl in Hx. apply IH in Hx as [Hx|Hx].
  - apply values_set_elem in Hx as [->|Hx]; [right; by left|by left].
  - right. by right.
Qed.

Lemma null_typed h : well_typed h None.
Proof. by intros l [=]. Qed.
End ref_run.

(** Checks that a reference of a concrete heap is a well-typed argument. *)
Ltac solve_well_typed :=
  let l := fresh "l" in
  let H := fresh "H" in
  intros l H; inversion H; subst; clear H;
  eexists _, _; split_and!;
  [ reflexivity
  | reflexivity
  | repeat constructor; eexists; reflexivity
  | let s := fresh "s" in let Hs := fresh "Hs" in
    intros s Hs; inversion Hs; subst; eexists; reflexivity ].

(** ** Running the tool executor *)

Section executor_facts.
Import Executor.
Context {Net : Type} (E : Environment Net).
Implicit Types (s : ToolExecutor * Net) (serverName toolName : string).

Lemma getClient_cached s serverName client :
  clients s.1 !! serverName = Some client →
  getClient E serverName s = (Returned client, s).
Proof. intros H. unfold getClient, bind, this. simpl. by rewrite H. Qed.




End executor_facts.

(** * Properties of the scope merge *)

(** C1. Project values win on name collision: for every tool name that both
    indexes have, the merged list has exactly one entry of that name, and
    that entry is the project index's tool of that name (the last one,
    should the project index list the name more than once; in particular the
    only one when it lists the name once). *)
Theorem merge_project_wins (DEBUG : bool) (project user : PersistedIndex)
    (n : string) :
  n ∈ names (tools project) →
  n ∈ names (tools user) →
  ∃ t,
    filter (named n) (mergeIndexedTools DEBUG (Some project) (Some user)) = [t]
    ∧ t ∈ tools project
    ∧ tool_name t = n
    ∧ last (filter (named n) (tools project)) = Some t
    ∧ ∀ t', t' ∈ tools project → tool_name t' = n →
        (∀ t'', t'' ∈ tools project → tool_name t'' = n → t'' = t') →
        t = t'.
Proof.
  intros Hp _.
  apply list_elem_of_fmap in Hp as (t0 & Hn0 & Hin0).
  assert (filter (named n) (tools project) ≠ []) as Hne.
  { intros Hnil. assert (t0 ∈ filter (named n) (tools project)) as Ht0
      by (by apply list_elem_of_filter).
    rewrite Hnil in Ht0. by apply not_elem_of_nil in Ht0. }
  destruct (last (filter (named n) (tools project))) as [t|] eqn:Hlast;
    [|by apply last_None in Hlast].
  pose proof (last_Some_elem_of _ _ Hlast) as Ht.
  apply list_elem_of_filter in Ht as [Hname Hin].
  exists t. split_and!; try done.
  - rewrite merge_unfold. simpl.
    apply filter_values; [apply merge_keyed|apply merge_NoDup_keys|].
    by rewrite get_set_all, Hlast.
  - intros t' Hin' Hname' Huniq. by apply Huniq.
Qed.

Lemma merge_project_wins_witness :
  ∃ t,
    filter (named "b")
      (mergeIndexedTools true
         (Some (mk_index [mk_tool "a" "project"; mk_tool "b" "project"]))
         (Some (mk_index [mk_tool "b" "user"; mk_tool "c" "user"])))
    = [t]
    ∧ t ∈ [mk_tool "a" "project"; mk_tool "b" "project"]
    ∧ tool_name t = "b".
Proof.
  destruct (merge_project_wins true
              (mk_index [mk_tool "a" "project"; mk_tool "b" "project"])
              (mk_index [mk_tool "b" "user"; mk_tool "c" "user"]) "b")
    as (t & Hentry & Hin & Hname & _).
  - apply (bool_decide_unpack _). vm_compute. exact I.
  - apply (bool_decide_unpack _). vm_compute. exact I.
  - exists t. split_and!; [exact Hentry|exact Hin|exact Hname].
Defined.

(** C2. The output order is the one of the overlay the specification
    describes: user tools are inserted in user order, then each project tool
    either replaces the value at the position its name already has or is
    appended at the end.  In closed form: the merged list is the merge of
    the user tools alone, each value replaced by the project's tool of that
    name when there is one, followed by the merge of the project tools whose
    names the user index does not have, in project order.  With project
    tools named a, b and user tools named b, c the output is exactly
    [b (project value); c; a]. *)
Theorem merge_overlay_order (DEBUG : bool) (project user : option PersistedIndex) :
  mergeIndexedTools DEBUG project user = spec_mergeTools project user
  ∧ mergeIndexedTools DEBUG project user
    = (overridden_by (tools_of project) <$> mergeIndexedTools DEBUG None user)
      ++ mergeIndexedTools DEBUG (new_in_project project user) None
  ∧ ∀ (pi ui : PersistedIndex) (pa pb ub uc : IndexedTool),
      tools pi = [pa; pb] → tools ui = [ub; uc] →
      tool_name pa = "a" → tool_name pb = "b" →
      tool_name ub = "b" → tool_name uc = "c" →
      mergeIndexedTools DEBUG (Some pi) (Some ui) = [pb; uc; pa].
Proof.
  split_and!.
  - rewrite merge_unfold. unfold spec_mergeTools.
    rewrite values_set_all by (apply keyed_set_all; constructor).
    rewrite values_set_all by constructor. done.
  - apply merge_closed_form.
  - intros pi ui pa pb ub uc Hp Hu Ha Hb Hb' Hc.
    rewrite merge_unfold. simpl. rewrite Hp, Hu. simpl.
    rewrite Ha, Hb, Hb', Hc. reflexivity.
Qed.

Lemma merge_overlay_order_witness :
  mergeIndexedTools false
    (Some (mk_index [mk_tool "a" "project"; mk_tool "b" "project"]))
    (Some (mk_index [mk_tool "b" "user"; mk_tool "c" "user"]))
  = [mk_tool "b" "project"; mk_tool "c" "user"; mk_tool "a" "project"].
Proof.
  apply (proj2 (proj2 (merge_overlay_order false
                         (Some (mk_index [mk_tool "a" "project";
                                          mk_tool "b" "project"]))
                         (Some (mk_index [mk_tool "b" "user";
                                          mk_tool "c" "user"]))))
           (mk_index [mk_tool "a" "project"; mk_tool "b" "project"])
           (mk_index [mk_tool "b" "user"; mk_tool "c" "user"])
           (mk_tool "a" "project") (mk_tool "b" "project")
           (mk_tool "b" "user") (mk_tool "c" "user"));
    reflexivity.
Defined.

(** C3 as stated fails: a user index holding two tools of one name and no
    project index have disjoint name sets, yet the merged list has one entry,
    not two. *)
Lemma merge_disjoint_length_counterexample :
  ¬ (∀ (DEBUG : bool) (project user : option PersistedIndex),
       NoDup (names (mergeIndexedTools DEBUG project user))
       ∧ ((∀ n, n ∈ names (tools_of project) → n ∉ names (tools_of user)) →
          length (mergeIndexedTools DEBUG project user)
          = length (tools_of project) + length (tools_of user))).
Proof.
  intros H.
  destruct (H false None
              (Some (mk_index [mk_tool "a" "first"; mk_tool "a" "second"])))
    as [_ Hlen].
  assert (∀ n, n ∈ names (tools_of None) →
               n ∉ names (tools_of
                 (Some (mk_index [mk_tool "a" "first"; mk_tool "a" "second"]))))
    as Hdisj.
  { intros n Hn. simpl in Hn. by apply not_elem_of_nil in Hn. }
  specialize (Hlen Hdisj). vm_compute in Hlen. discriminate Hlen.
Qed.

(** C3, amended. The merged list never holds a tool name twice; and when
    neither index holds a name twice and the two name sets are disjoint, its
    length is the project tool count plus the user tool count. *)
Theorem merge_unique_names (DEBUG : bool) (project user : option PersistedIndex) :
  NoDup (names (mergeIndexedTools DEBUG project user))
  ∧ (NoDup (names (tools_of project)) → NoDup (names (tools_of user)) →
     (∀ n, n ∈ names (tools_of project) → n ∉ names (tools_of user)) →
     length (mergeIndexedTools DEBUG project user)
     = length (tools_of project) + length (tools_of user)).
Proof.
  rewrite merge_unfold. split.
  - rewrite names_values by apply merge_keyed. apply merge_NoDup_keys.
  - intros Hp Hu Hdisj.
    rewrite (set_all_fresh (tools_of user)) by (done || set_solver).
    rewrite set_all_fresh; [| done |].
    + unfold JsMap.values, JsMap.empty.
      rewrite !length_fmap, !length_app, !length_fmap. simpl. lia.
    + intros n Hn. unfold JsMap.keys, JsMap.empty. simpl.
      rewrite <- list_fmap_compose.
      intros Hin. by apply (Hdisj n).
Qed.

Lemma merge_unique_names_witness :
  length (mergeIndexedTools true
            (Some (mk_index [mk_tool "a" "project"]))
            (Some (mk_index [mk_tool "b" "user"; mk_tool "c" "user"])))
  = 1 + 2.
Proof.
  apply (proj2 (merge_unique_names true
                  (Some (mk_index [mk_tool "a" "project"]))
                  (Some (mk_index [mk_tool "b" "user"; mk_tool "c" "user"])))).
  - apply (bool_decide_unpack _). vm_compute. exact I.
  - apply (bool_decide_unpack _). vm_compute. exact I.
  - intros n Hn Hu. simpl in Hn, Hu.
    apply list_elem_of_In in Hn. apply list_elem_of_In in Hu.
    simpl in Hn, Hu. destruct Hn as [<-|[]].
    destruct Hu as [Hu|[Hu|[]]]; vm_compute in Hu; discriminate Hu.
Defined.

(** C10 as stated fails when the other index holds the name as well: for
    the user index [a; x; a] and a project index with its own tool named
    [a], the position of the first occurrence holds the project's tool, not
    the later occurrence of the user index. *)
Lemma merge_duplicate_other_index_counterexample :
  ¬ (∀ (DEBUG : bool) (ix : PersistedIndex) (other : option PersistedIndex)
       (l1 l2 l3 : list IndexedTool) (t1 t2 : IndexedTool),
       tools ix = l1 ++ t1 :: l2 ++ t2 :: l3 →
       tool_name t1 = tool_name t2 →
       tool_name t1 ∉ names l1 →
       tool_name t2 ∉ names l3 →
       let before := mergeIndexedTools DEBUG None (Some (with_tools ix l1)) in
       let out := mergeIndexedTools DEBUG other (Some ix) in
       out !! length before = Some t2
       ∧ filter (named (tool_name t1)) out = [t2]).
Proof.
  intros H.
  destruct (H false
              (mk_index [mk_tool "a" "first"; mk_tool "x" "user";
                         mk_tool "a" "second"])
              (Some (mk_index [mk_tool "a" "project"]))
              [] [mk_tool "x" "user"] []
              (mk_tool "a" "first") (mk_tool "a" "second")
              eq_refl eq_refl
              ltac:(apply (bool_decide_unpack _); vm_compute; exact I)
              ltac:(apply (bool_decide_unpack _); vm_compute; exact I))
    as [Hpos _].
  vm_compute in Hpos. discriminate Hpos.
Qed.

(** C10, amended. An index that itself holds two tools of one name, the
    other index not holding that name: the first occurrence establishes the
    position, the last occurrence provides the value, and the name appears
    exactly once in the output.  This holds for the index in the user role
    and in the project role. *)
Theorem merge_duplicate_within_index (DEBUG : bool) (ix : PersistedIndex)
    (other : option PersistedIndex) (l1 l2 l3 : list IndexedTool)
    (t1 t2 : IndexedTool) :
  tools ix = l1 ++ t1 :: l2 ++ t2 :: l3 →
  tool_name t1 = tool_name t2 →
  tool_name t1 ∉ names l1 →
  tool_name t2 ∉ names l3 →
  tool_name t1 ∉ names (tools_of other) →
  (let before := mergeIndexedTools DEBUG None (Some (with_tools ix l1)) in
   let out := mergeIndexedTools DEBUG other (Some ix) in
   mergeIndexedTools DEBUG None (Some (with_tools ix (l1 ++ [t1])))
     = before ++ [t1]
   ∧ out !! length before = Some t2
   ∧ filter (named (tool_name t1)) out = [t2])
  ∧
  (let before := mergeIndexedTools DEBUG (Some (with_tools ix l1)) other in
   let out := mergeIndexedTools DEBUG (Some ix) other in
   mergeIndexedTools DEBUG (Some (with_tools ix (l1 ++ [t1]))) other
     = before ++ [t1]
   ∧ out !! length before = Some t2
   ∧ filter (named (tool_name t1)) out = [t2]).
Proof.
  intros Htools Hname Hl1 Hl3 Hother.
  rewrite Hname in Hl1, Hother |- *. split.
  - cbv zeta. rewrite !merge_unfold. simpl. rewrite Htools.
    rewrite <- (set_all_app _ (tools_of other)), <- app_assoc.
    change ((t1 :: l2 ++ t2 :: l3) ++ tools_of other)
      with (t1 :: (l2 ++ t2 :: l3) ++ tools_of other).
    apply set_all_duplicate; try done.
    + constructor.
    + constructor.
    + unfold JsMap.keys, JsMap.empty. simpl. apply not_elem_of_nil.
    + rewrite <- app_assoc. simpl. apply last_filter_after; [done|].
      unfold names. rewrite fmap_app.
      intros [?|?]%elem_of_app; done.
  - cbv zeta. rewrite !merge_unfold. simpl. rewrite Htools.
    apply set_all_duplicate; try done.
    + apply keyed_set_all. constructor.
    + apply NoDup_keys_set_all. constructor.
    + rewrite keys_set_all_elem. unfold JsMap.keys, JsMap.empty. simpl.
      intros [Hnil|?]; [|done]. by apply not_elem_of_nil in Hnil.
    + by apply last_filter_after.
Qed.

Lemma merge_duplicate_within_index_witness :
  mergeIndexedTools false None
    (Some (mk_index [mk_tool "x" "1"; mk_tool "a" "first"; mk_tool "y" "2";
                     mk_tool "a" "second"; mk_tool "z" "3"]))
    !! 1 = Some (mk_tool "a" "second").
Proof.
  apply (proj1 (merge_duplicate_within_index false
    (mk_index [mk_tool "x" "1"; mk_tool "a" "first"; mk_tool "y" "2";
               mk_tool "a" "second"; mk_tool "z" "3"])
    None [mk_tool "x" "1"] [mk_tool "y" "2"] [mk_tool "z" "3"]
    (mk_tool "a" "first") (mk_tool "a" "second")
    eq_refl eq_refl
    ltac:(apply (bool_decide_unpack _); vm_compute; exact I)
    ltac:(apply (bool_decide_unpack _); vm_compute; exact I)
    ltac:(apply (bool_decide_unpack _); vm_compute; exact I))).
Defined.

(** * Properties of the statistics selection and the embeddings flag *)

(** C4. [selectBM25Stats] returns the project index's statistics when the
    project index has them, otherwise the user index's statistics when that
    index has them, otherwise the zero-valued default; the result is always
    one input's statistics or the default. *)
Theorem selectBM25Stats_prefers_project (project user : option PersistedIndex) :
  (∀ s, project ≫= bm25Stats = Some s → selectBM25Stats project user = s)
  ∧ (∀ s, project ≫= bm25Stats = None → user ≫= bm25Stats = Some s →
          selectBM25Stats project user = s)
  ∧ (project ≫= bm25Stats = None → user ≫= bm25Stats = None →
     selectBM25Stats project user
     = {| avgDocLength := 0%Qc; documentFrequencies := ∅;
          totalDocuments := 0 |})
  ∧ (project ≫= bm25Stats = Some (selectBM25Stats project user)
     ∨ user ≫= bm25Stats = Some (selectBM25Stats project user)
     ∨ selectBM25Stats project user = default_stats).
Proof.
  unfold selectBM25Stats, nullish.
  destruct (project ≫= bm25Stats) as [sp|], (user ≫= bm25Stats) as [su|];
    split_and!; intros; simplify_eq; auto.
Qed.

Lemma selectBM25Stats_prefers_project_witness :
  selectBM25Stats (Some (with_stats (mk_index []) (sample_stats 2)))
                  (Some (with_stats (mk_index []) (sample_stats 7)))
  = sample_stats 2
  ∧ selectBM25Stats None (Some (with_stats (mk_index []) (sample_stats 7)))
    = sample_stats 7
  ∧ selectBM25Stats (Some (mk_index [])) None = default_stats.
Proof.
  split_and!.
  - apply (proj1 (selectBM25Stats_prefers_project
                    (Some (with_stats (mk_index []) (sample_stats 2)))
                    (Some (with_stats (mk_index []) (sample_stats 7))))).
    reflexivity.
  - apply (proj1 (proj2 (selectBM25Stats_prefers_project None
                    (Some (with_stats (mk_index []) (sample_stats 7)))))).
    + reflexivity.
    + reflexivity.
  - apply (proj1 (proj2 (proj2 (selectBM25Stats_prefers_project
                    (Some (mk_index [])) None)))).
    + reflexivity.
    + reflexivity.
Defined.

(** C5. [hasAnyEmbeddings] is true exactly when an index that is present
    reports embeddings; with both indexes absent it is false. *)
Theorem hasAnyEmbeddings_iff (project user : option PersistedIndex) :
  (hasAnyEmbeddings project user = true ↔
     (∃ pi, project = Some pi ∧ hasEmbeddings pi = Some true)
     ∨ (∃ ui, user = Some ui ∧ hasEmbeddings ui = Some true))
  ∧ hasAnyEmbeddings None None = false.
Proof.
  split; [|done]. unfold hasAnyEmbeddings, nullish.
  destruct project as [pi|], user as [ui|]; simpl;
    repeat match goal with
      | |- context [hasEmbeddings ?x] => destruct (hasEmbeddings x) as [[]|] eqn:?
      end; simpl; naive_solver.
Qed.

(** * Totality, mutation and sharing *)

(** C6. The three functions are total: whenever each argument is null or
    refers to an index, each call returns a result, and the result denotes
    what the value-level function computes.  An absent index behaves as an
    index with no tools, no statistics and no embeddings, and merging two
    absent indexes gives the empty list. *)
Theorem merge_functions_total (DEBUG : bool) (w : Ref.World)
    (project user : option Ref.loc)
    (other : option PersistedIndex) (empty : PersistedIndex) :
  Ref.well_typed (Ref.heap w) project →
  Ref.well_typed (Ref.heap w) user →
  tools empty = [] → bm25Stats empty = None →
  default false (hasEmbeddings empty) = false →
  (∃ r w',
     Ref.mergeIndexedTools DEBUG project user w = Some (r, w')
     ∧ Ref.array_at (Ref.heap w') r
       = Some (mergeIndexedTools DEBUG (Ref.denoted (Ref.heap w) project)
                 (Ref.denoted (Ref.heap w) user)))
  ∧ (∃ r w',
       Ref.selectBM25Stats project user w = Some (r, w')
       ∧ Ref.stats_at (Ref.heap w') r
         = Some (selectBM25Stats (Ref.denoted (Ref.heap w) project)
                   (Ref.denoted (Ref.heap w) user)))
  ∧ (∃ w',
       Ref.hasAnyEmbeddings project user w
       = Some (hasAnyEmbeddings (Ref.denoted (Ref.heap w) project)
                 (Ref.denoted (Ref.heap w) user), w'))
  ∧ mergeIndexedTools DEBUG None other = mergeIndexedTools DEBUG (Some empty) other
  ∧ mergeIndexedTools DEBUG other None = mergeIndexedTools DEBUG other (Some empty)
  ∧ selectBM25Stats None other = selectBM25Stats (Some empty) other
  ∧ selectBM25Stats other None = selectBM25Stats other (Some empty)
  ∧ hasAnyEmbeddings None other = hasAnyEmbeddings (Some empty) other
  ∧ hasAnyEmbeddings other None = hasAnyEmbeddings other (Some empty)
  ∧ mergeIndexedTools DEBUG None None = []
  ∧ (∃ r w',
       Ref.mergeIndexedTools DEBUG None None w = Some (r, w')
       ∧ Ref.heap w' !! r = Some (Ref.OArray [])).
Proof.
  intros Hp Hu Htools Hstats Hemb. split_and!.
  - destruct (merge_refines DEBUG w project user Hp Hu) as (r & w' & ? & ? & _).
    by exists r, w'.
  - by apply select_refines.
  - eexists. by apply hasAny_explicit.
  - rewrite !merge_unfold. simpl. by rewrite Htools.
  - rewrite !merge_unfold. simpl. by rewrite Htools.
  - unfold selectBM25Stats. simpl. by rewrite Hstats.
  - unfold selectBM25Stats. simpl. by rewrite Hstats.
  - unfold hasAnyEmbeddings. simpl.
    destruct (hasEmbeddings empty) as [b|]; simpl in *; by subst.
  - unfold hasAnyEmbeddings. simpl.
    destruct (hasEmbeddings empty) as [b|]; simpl in *; by subst.
  - by rewrite merge_unfold.
  - eexists _, _. split.
    + apply (merge_explicit DEBUG w None None [] []);
        try apply null_typed; split; (done || constructor).
    + cbn [Ref.heap fold_left fst snd]. apply lookup_insert_eq.
Qed.

Lemma merge_functions_total_witness :
  ∃ r w',
    Ref.mergeIndexedTools true (Some 1%positive) None Ref.sample_world
      = Some (r, w')
    ∧ Ref.array_at (Ref.heap w') r
      = Some (mergeIndexedTools true
                (Ref.denoted (Ref.heap Ref.sample_world) (Some 1%positive))
                (Ref.denoted (Ref.heap Ref.sample_world) None)).
Proof.
  apply (merge_functions_total true Ref.sample_world (Some 1%positive) None
           None (mk_index [])).
  - solve_well_typed.
  - intros l Hl. discriminate Hl.
  - reflexivity.
  - reflexivity.
  - reflexivity.
Defined.

(** C7 as stated fails: [selectBM25Stats] hands back the statistics object
    of the input index itself, an object that was in the heap before the
    call, not a fresh one. *)
Lemma select_aliases_input_counterexample :
  ¬ (∀ (w : Ref.World) (project user : option Ref.loc) (r : Ref.loc)
       (w' : Ref.World),
       Ref.well_typed (Ref.heap w) project →
       Ref.well_typed (Ref.heap w) user →
       Ref.selectBM25Stats project user w = Some (r, w') →
       Ref.heap w !! r = None).
Proof.
  intros H.
  assert (Ref.heap Ref.sample_world !! 3%positive = None) as Hfresh.
  { apply (H Ref.sample_world (Some 1%positive) (Some 6%positive)
             3%positive Ref.sample_world).
    - solve_well_typed.
    - solve_well_typed.
    - reflexivity. }
  vm_compute in Hfresh. discriminate Hfresh.
Qed.

(** C7, amended. None of the three functions changes an object that
    existed before the call.  [mergeIndexedTools] returns a new array, whose
    elements are the tool objects of the input arrays themselves;
    [selectBM25Stats] returns the statistics object of the chosen input
    itself and allocates only the zero default; [hasAnyEmbeddings] leaves
    the store as it was. *)
Theorem merge_functions_frame (DEBUG : bool) (w : Ref.World)
    (project user : option Ref.loc) :
  Ref.well_typed (Ref.heap w) project →
  Ref.well_typed (Ref.heap w) user →
  (∃ r w' items,
     Ref.mergeIndexedTools DEBUG project user w = Some (r, w')
     ∧ (∀ l o, Ref.heap w !! l = Some o → Ref.heap w' !! l = Some o)
     ∧ Ref.heap w !! r = None
     ∧ Ref.heap w' !! r = Some (Ref.OArray items)
     ∧ ∀ tl, tl ∈ items →
         tl ∈ Ref.items_of (Ref.heap w) user ++ Ref.items_of (Ref.heap w) project)
  ∧ (∃ r w',
       Ref.selectBM25Stats project user w = Some (r, w')
       ∧ (∀ l o, Ref.heap w !! l = Some o → Ref.heap w' !! l = Some o)
       ∧ match nullish (Ref.stats_ref_of (Ref.heap w) project)
                 (Ref.stats_ref_of (Ref.heap w) user) with
         | Some s => r = s ∧ w' = w
         | None => Ref.heap w !! r = None
                   ∧ Ref.heap w' !! r = Some (Ref.OStats default_stats)
         end)
  ∧ (∃ b, Ref.hasAnyEmbeddings project user w = Some (b, w)).
Proof.
  intros Hp Hu. split_and!.
  - destruct (denotes_exists _ _ Hp) as [lp Hlp].
    destruct (denotes_exists _ _ Hu) as [lu Hlu].
    eexists _, _, _. split; [by apply (merge_explicit DEBUG w project user lp lu)|].
    cbv zeta. cbn [Ref.heap].
    set (es := (fold_left (Ref.project_step DEBUG) lp _).1.1).
    set (h1 := <[fresh (dom (Ref.heap w)) := Ref.OMap es]> (Ref.heap w)).
    assert (Ref.heap w ⊆ h1) as Hsub1 by apply insert_fresh_subseteq.
    split_and!.
    + intros l o Hl. eapply lookup_weaken; [exact Hl|].
      etrans; [exact Hsub1|]. apply insert_fresh_subseteq.
    + pose proof (fresh_lookup h1) as Hfresh.
      destruct (Ref.heap w !! fresh (dom h1)) as [o|] eqn:Ho; [|done].
      apply (lookup_weaken _ _ _ _ Ho) in Hsub1. congruence.
    + apply lookup_insert_eq.
    + intros tl Htl. subst es. rewrite project_step_map in Htl. cbn [fst] in Htl.
      apply values_user_fold in Htl as [Htl|Htl].
      * apply values_user_fold in Htl as [Htl|Htl].
        -- by apply not_elem_of_nil in Htl.
        -- apply elem_of_app. left. by rewrite <- (proj1 Hlu).
      * apply elem_of_app. right. by rewrite <- (proj1 Hlp).
  - rewrite select_explicit by done.
    destruct (nullish _ _) as [s|].
    + by eexists _, _.
    + eexists _, _. split; [done|]. cbn [Ref.heap]. split_and!.
      * intros l o Hl. eapply lookup_weaken; [exact Hl|].
        apply insert_fresh_subseteq.
      * apply fresh_lookup.
      * apply lookup_insert_eq.
  - eexists. by apply hasAny_explicit.
Qed.

Lemma merge_functions_frame_witness :
  ∃ r w' items,
    Ref.mergeIndexedTools true (Some 1%positive) (Some 6%positive)
      Ref.sample_world = Some (r, w')
    ∧ (∀ l o, Ref.heap Ref.sample_world !! l = Some o →
              Ref.heap w' !! l = Some o)
    ∧ Ref.heap Ref.sample_world !! r = None
    ∧ Ref.heap w' !! r = Some (Ref.OArray items)
    ∧ ∀ tl, tl ∈ items →
        tl ∈ Ref.items_of (Ref.heap Ref.sample_world) (Some 6%positive)
             ++ Ref.items_of (Ref.heap Ref.sample_world) (Some 1%positive).
Proof.
  apply (merge_functions_frame true Ref.sample_world
           (Some 1%positive) (Some 6%positive)).
  - solve_well_typed.
  - solve_well_typed.
Defined.

(** * The tool executor *)



(** * The BM25 inverse document frequency *)

(** C8. For a term absent from [documentFrequencies] the document frequency
    is 0, and for document frequency 0 and any document count [N >= 0] the
    logarithm in [IDF = ln(1 + (N − df + 0.5) / (df + 0.5))] is taken of
    [2N + 2], a number that is at least 2: the value is a well-defined real
    number, strictly positive (above [1/2]) and at most [2N + 1]. *)
Theorem idf_unseen_term_positive (stats : BM25Stats) (term : string) :
  documentFrequencies stats !! term = None →
  BM25.idf stats term = BM25.idf_formula (INR (totalDocuments stats)) 0
  ∧ (0 < BM25.idf stats term)%R
  ∧ ∀ N : R, (0 <= N)%R →
      (2 <= 1 + (N - 0 + 0.5) / (0 + 0.5))%R
      ∧ BM25.idf_formula N 0 = ln (2 * N + 2)
      ∧ (/ 2 < BM25.idf_formula N 0)%R
      ∧ (BM25.idf_formula N 0 <= 2 * N + 1)%R.
Proof.
  intros Habsent.
  assert (∀ N : R, (0 <= N)%R →
            (2 <= 1 + (N - 0 + 0.5) / (0 + 0.5))%R
            ∧ BM25.idf_formula N 0 = ln (2 * N + 2)
            ∧ (/ 2 < BM25.idf_formula N 0)%R
            ∧ (BM25.idf_formula N 0 <= 2 * N + 1)%R) as Hformula.
  { intros N HN.
    assert (BM25.idf_formula N 0 = ln (2 * N + 2)) as Hidf.
    { unfold BM25.idf_formula. f_equal. lra. }
    assert (0 < 2 * N + 2)%R as Hpos by lra.
    split_and!.
    - lra.
    - exact Hidf.
    - rewrite Hidf. apply Rlt_le_trans with (ln 2); [apply ln_lt_2|].
      destruct (Req_dec N 0) as [->|Hne].
      + right. f_equal. lra.
      + left. apply ln_increasing; lra.
    - rewrite Hidf. pose proof (exp_ineq1_le (ln (2 * N + 2))) as Hexp.
      rewrite exp_ln in Hexp by exact Hpos. lra. }
  assert (BM25.idf stats term
          = BM25.idf_formula (INR (totalDocuments stats)) 0) as Hidf.
  { unfold BM25.idf, BM25.document_frequency. by rewrite Habsent. }
  split_and!; [exact Hidf| |exact Hformula].
  rewrite Hidf.
  destruct (Hformula (INR (totalDocuments stats)) (pos_INR _))
    as (_ & _ & Hlow & _).
  lra.
Qed.

Lemma idf_unseen_term_positive_witness :
  (0 < BM25.idf default_stats "read")%R.
Proof.
  apply (idf_unseen_term_positive default_stats "read").
  reflexivity.
Defined.

(** * Further properties of the scope merge *)

Section merge_more.
Implicit Types (l : list IndexedTool) (m : JsMap.t IndexedTool)
  (t : IndexedTool) (n : string).

Lemma elem_values_get t m :
  keyed m → NoDup (JsMap.keys m) →
  t ∈ JsMap.values m ↔ JsMap.get (tool_name t) m = Some t.
Proof.
  induction m as [|[k v] m IH]; intros Hk Hnd.
  - split; [by intros ?%not_elem_of_nil|done].
  - apply Forall_cons in Hk as [Hkv Hk]. simpl in Hkv. subst k.
    change (JsMap.keys ((tool_name v, v) :: m))
      with (tool_name v :: JsMap.keys m) in Hnd.
    apply NoDup_cons in Hnd as [Hfresh Hnd].
    change (JsMap.values ((tool_name v, v) :: m)) with (v :: JsMap.values m).
    cbn [JsMap.get]. rewrite eqb_decide, elem_of_cons, (IH Hk Hnd).
    destruct (decide (tool_name v = tool_name t)) as [Heq|Hne].
    + rewrite bool_decide_eq_true_2 by done. split.
      * intros [->|Hget]; [done|]. exfalso. apply Hfresh. rewrite Heq.
        destruct (decide (tool_name t ∈ JsMap.keys m)) as [|Hnot]; [done|].
        rewrite <- (names_values m Hk) in Hnot.
        pose proof (filter_absent _ _ Hnot) as Hnil.
        rewrite (filter_values _ t m Hk Hnd Hget) in Hnil. discriminate.
      * intros [= ->]. by left.
    + rewrite bool_decide_eq_false_2 by done. split; [|by right].
      intros [->|?]; [done|done].
Qed.

Lemma filter_ext_elem {A} (P Q : A → Prop) `{!∀ x, Decision (P x)}
    `{!∀ x, Decision (Q x)} (xs : list A) :
  (∀ x, x ∈ xs → P x ↔ Q x) → filter P xs = filter Q xs.
Proof.
  induction xs as [|x xs IH]; intros Hext; [done|].
  rewrite !filter_cons.
  destruct (decide (P x)) as [HP|HP], (decide (Q x)) as [HQ|HQ].
  - f_equal. apply IH. intros y Hy. apply Hext. by right.
  - exfalso. apply HQ, Hext; [by left|done].
  - exfalso. apply HP, Hext; [by left|done].
  - apply IH. intros y Hy. apply Hext. by right.
Qed.

Lemma filter_none {A} (P : A → Prop) `{!∀ x, Decision (P x)} (xs : list A) :
  (∀ x, x ∈ xs → ¬ P x) → filter P xs = [].
Proof.
  induction xs as [|x xs IH]; intros Hnot; [done|].
  rewrite filter_cons_False by (apply Hnot; by left).
  apply IH. intros y Hy. apply Hnot. by right.
Qed.

Lemma length_filter_split {A} (P : A → Prop) `{!∀ x, Decision (P x)}
    (xs : list A) :
  length (filter P xs) + length (filter (λ x, ¬ P x) xs) = length xs.
Proof.
  induction xs as [|x xs IH]; [done|].
  rewrite !filter_cons. destruct (decide (P x)) as [HP|HP].
  - rewrite decide_False by tauto. simpl. lia.
  - rewrite decide_True by done. simpl. lia.
Qed.

Lemma NoDup_names_filter (P : IndexedTool → Prop) `{!∀ x, Decision (P x)} l :
  NoDup (names l) → NoDup (names (filter P l)).
Proof.
  unfold names. induction l as [|t l IH]; intros Hnd; [done|].
  rewrite fmap_cons in Hnd. apply NoDup_cons in Hnd as [Ht Hnd].
  rewrite filter_cons. destruct (decide (P t)); [|by apply IH].
  rewrite fmap_cons. apply NoDup_cons. split; [|by apply IH].
  intros (t' & Hname & Hin)%list_elem_of_fmap.
  apply list_elem_of_filter in Hin as [_ Hin].
  apply Ht. rewrite Hname. by apply list_elem_of_fmap_2.
Qed.

Lemma merge_single_unique l :
  NoDup (names l) →
  JsMap.values (set_all l JsMap.empty) = l.
Proof.
  intros Hnd. rewrite set_all_fresh; [|done|].
  - unfold JsMap.values, JsMap.empty. simpl.
    rewrite <- list_fmap_compose. apply list_fmap_id.
  - intros n _. apply not_elem_of_nil.
Qed.

(** What the project loop prints and counts, when no project name repeats. *)
Lemma project_loop_log l : ∀ st,
  NoDup (names l) →
  let hit := filter (λ t, tool_name t ∈ JsMap.keys (toolMap st)) l in
  console (fold_left (add_project_tool true) l st)
    = console st ++ (override_message ∘ tool_name <$> hit)
  ∧ overrideCount (fold_left (add_project_tool true) l st)
    = overrideCount st + length hit.
Proof.
  induction l as [|t l IH]; intros st Hnd; cbv zeta.
  - simpl. by rewrite app_nil_r, Nat.add_0_r.
  - unfold names in Hnd. rewrite fmap_cons in Hnd.
    apply NoDup_cons in Hnd as [Ht Hnd]. fold (names l) in Ht, Hnd.
    cbn [fold_left].
    destruct (IH (add_project_tool true st t) Hnd) as [Hc Hn].
    rewrite Hc, Hn. clear Hc Hn.
    assert (filter (λ t0, tool_name t0
                            ∈ JsMap.keys (toolMap (add_project_tool true st t))) l
            = filter (λ t0, tool_name t0 ∈ JsMap.keys (toolMap st)) l) as ->.
    { apply filter_ext_elem. intros t0 Ht0.
      assert (toolMap (add_project_tool true st t)
              = JsMap.set (tool_name t) t (toolMap st)) as ->.
      { unfold add_project_tool. simpl. by destruct (JsMap.has _ _). }
      rewrite keys_set. case_bool_decide; [done|].
      rewrite elem_of_app, list_elem_of_singleton.
      split; [|by left]. intros [?|Heq]; [done|].
      exfalso. apply Ht. rewrite <- Heq. unfold names.
      by apply list_elem_of_fmap_2. }
    rewrite filter_cons. unfold add_project_tool at 1 2. cbn [andb].
    rewrite has_keys.
    destruct (decide (tool_name t ∈ JsMap.keys (toolMap st))) as [Hin|Hout].
    + rewrite bool_decide_eq_true_2 by done. simpl.
      rewrite <- app_assoc. split; [done|lia].
    + rewrite bool_decide_eq_false_2 by done. simpl. done.
Qed.
End merge_more.

Lemma merge_elem (DEBUG : bool) (project user : option PersistedIndex)
    (t : IndexedTool) :
  t ∈ mergeIndexedTools DEBUG project user ↔
    (last (filter (named (tool_name t)) (tools_of project)) = Some t
     ∨ ((tool_name t ∉ names (tools_of project))
        ∧ last (filter (named (tool_name t)) (tools_of user)) = Some t)).
Proof.
  rewrite merge_unfold.
  rewrite elem_values_get by (apply merge_keyed || apply merge_NoDup_keys).
  rewrite !get_set_all. simpl.
  destruct (last (filter (named (tool_name t)) (tools_of project)))
    as [tp|] eqn:Hp.
  - split; [by left|]. intros [?|[Hnot _]]; [done|].
    exfalso. apply last_Some_elem_of, list_elem_of_filter in Hp as [Hname Hin].
    apply Hnot. rewrite <- Hname. unfold names. by apply list_elem_of_fmap_2.
  - apply last_None in Hp.
    assert (tool_name t ∉ names (tools_of project)) as Hnot.
    { intros (t' & Hname & Hin)%list_elem_of_fmap.
      assert (t' ∈ filter (named (tool_name t)) (tools_of project)) as Ht'
        by (by apply list_elem_of_filter).
      rewrite Hp in Ht'. by apply not_elem_of_nil in Ht'. }
    destruct (last (filter (named (tool_name t)) (tools_of user))) as [tu|];
      split; intros H; try (right; by split);
      destruct H as [H|[_ H]]; done.
Qed.

(** X1. A tool is in the merged list exactly when it is the last tool of its
    name in the project index, or the project index has no tool of that name
    and it is the last tool of its name in the user index.  So the merge
    never invents or alters a tool, and a user tool survives exactly when
    the project does not claim its name. *)
Theorem merge_membership (DEBUG : bool) (project user : option PersistedIndex)
    (t : IndexedTool) :
  t ∈ mergeIndexedTools DEBUG project user ↔
    (last (filter (named (tool_name t)) (tools_of project)) = Some t
     ∨ ((tool_name t ∉ names (tools_of project))
        ∧ last (filter (named (tool_name t)) (tools_of user)) = Some t)).
Proof. apply merge_elem. Qed.

(** X2. The names of the merged list are exactly the names the two indexes
    have between them: no name is lost and none is added. *)
Theorem merge_names (DEBUG : bool) (project user : option PersistedIndex)
    (n : string) :
  n ∈ names (mergeIndexedTools DEBUG project user) ↔
    (n ∈ names (tools_of project) ∨ n ∈ names (tools_of user)).
Proof.
  rewrite merge_unfold, names_values by apply merge_keyed.
  rewrite !keys_set_all_elem. unfold JsMap.keys, JsMap.empty. simpl.
  rewrite elem_of_nil. tauto.
Qed.

(** X3. With one index absent and no name repeated in the other, the merge
    returns that index's tools unchanged and in order, whichever role the
    index has. *)
Theorem merge_single_index (DEBUG : bool) (ix : PersistedIndex) :
  NoDup (names (tools ix)) →
  mergeIndexedTools DEBUG None (Some ix) = tools ix
  ∧ mergeIndexedTools DEBUG (Some ix) None = tools ix.
Proof.
  intros Hnd. rewrite !merge_unfold. simpl. split; by apply merge_single_unique.
Qed.

Lemma merge_single_index_witness :
  mergeIndexedTools true None
    (Some (mk_index [mk_tool "b" "user"; mk_tool "c" "user"]))
  = [mk_tool "b" "user"; mk_tool "c" "user"].
Proof.
  apply (proj1 (merge_single_index true
                  (mk_index [mk_tool "b" "user"; mk_tool "c" "user"])
                  ltac:(apply (bool_decide_unpack _); vm_compute; exact I))).
Defined.

(** X4. Merging an index with itself gives the same list as merging it
    alone: the second pass replaces every value by itself. *)
Theorem merge_same_index (DEBUG : bool) (ix : PersistedIndex) :
  mergeIndexedTools DEBUG (Some ix) (Some ix)
  = mergeIndexedTools DEBUG None (Some ix).
Proof.
  rewrite (merge_closed_form DEBUG (Some ix) (Some ix)).
  assert (mergeIndexedTools DEBUG (new_in_project (Some ix) (Some ix)) None = [])
    as ->.
  { rewrite merge_unfold, tools_of_new_in_project. simpl.
    assert (filter (λ t, tool_name t ∉ names (tools ix)) (tools ix) = []) as ->;
      [|done].
    apply filter_none. intros t Ht Hnot. apply Hnot.
    unfold names. by apply list_elem_of_fmap_2. }
  rewrite app_nil_r. rewrite <- (list_fmap_id (mergeIndexedTools _ None _)) at 2.
  apply Forall_fmap_ext_1, Forall_forall. intros t Ht.
  apply merge_elem in Ht as [Hnone|[_ Hlast]].
  - simpl in Hnone. discriminate Hnone.
  - unfold overridden_by. simpl in *. by rewrite Hlast.
Qed.

(** X5. The merged list is never longer than the two tool lists together;
    and when no name repeats inside either index, the project tools whose
    names the user index also has are exactly what is missing from the sum
    of the two lengths. *)
Theorem merge_length (DEBUG : bool) (project user : option PersistedIndex) :
  (length (mergeIndexedTools DEBUG project user)
    ≤ length (tools_of project) + length (tools_of user))%nat
  ∧ (NoDup (names (tools_of project)) → NoDup (names (tools_of user)) →
     (length (mergeIndexedTools DEBUG project user)
      + length (filter (λ t, tool_name t ∈ names (tools_of user))
                  (tools_of project))
      = length (tools_of project) + length (tools_of user))%nat).
Proof.
  split.
  - rewrite merge_unfold. unfold JsMap.values. rewrite length_fmap.
    assert (∀ l (m : JsMap.t IndexedTool),
              (length (set_all l m) ≤ length m + length l)%nat) as Hbound.
    { induction l as [|t l IH]; intros m; simpl; [lia|].
      etrans; [apply IH|].
      assert (length (JsMap.set (tool_name t) t m) ≤ S (length m))%nat; [|lia].
      clear. induction m as [|[k v] m IH]; simpl; [done|].
      destruct (String.eqb k (tool_name t)); simpl; lia. }
    etrans; [apply Hbound|].
    pose proof (Hbound (tools_of user) JsMap.empty) as Hu. simpl in Hu. lia.
  - intros Hp Hu. rewrite merge_closed_form, length_app, length_fmap.
    rewrite !merge_unfold, tools_of_new_in_project. simpl.
    rewrite (merge_single_unique (tools_of user)) by done.
    rewrite merge_single_unique.
    + pose proof (length_filter_split
                    (λ t, tool_name t ∈ names (tools_of user))
                    (tools_of project)) as Hsplit.
      simpl in Hsplit. lia.
    + by apply NoDup_names_filter.
Qed.

Lemma merge_length_witness :
  (length (mergeIndexedTools false
             (Some (mk_index [mk_tool "a" "project"; mk_tool "b" "project"]))
             (Some (mk_index [mk_tool "b" "user"; mk_tool "c" "user"])))
   + length (filter (λ t, tool_name t
                            ∈ names [mk_tool "b" "user"; mk_tool "c" "user"])
               [mk_tool "a" "project"; mk_tool "b" "project"])
   = 2 + 2)%nat.
Proof.
  apply (proj2 (merge_length false
                  (Some (mk_index [mk_tool "a" "project"; mk_tool "b" "project"]))
                  (Some (mk_index [mk_tool "b" "user"; mk_tool "c" "user"])))).
  - apply (bool_decide_unpack _). vm_compute. exact I.
  - apply (bool_decide_unpack _). vm_compute. exact I.
Defined.

(** X6. Debug logging never changes the merged list; with [DEBUG] off
    nothing is printed; with [DEBUG] on and no name repeated in the project
    index, one line is printed for each project tool whose name the user
    index has, in project order, followed by one summary line with their
    number when there is at least one. *)
Theorem merge_debug_log (project user : option PersistedIndex) :
  (merge_run true project user).1 = (merge_run false project user).1
  ∧ (merge_run false project user).2 = []
  ∧ (NoDup (names (tools_of project)) →
     let overridden :=
       filter (λ t, tool_name t ∈ names (tools_of user)) (tools_of project) in
     (merge_run true project user).2
     = (override_message ∘ tool_name <$> overridden)
       ++ (if bool_decide (overridden = []) then []
           else [summary_message (length overridden)])).
Proof.
  split_and!.
  - exact (eq_trans (merge_unfold true project user)
                    (eq_sym (merge_unfold false project user))).
  - rewrite merge_run_tools_of. cbv zeta. cbn [andb snd].
    set (st0 := {| toolMap := JsMap.empty; overrideCount := 0; console := [] |}).
    destruct (user_loop_console (tools_of user) st0) as [_ Hout].
    assert (∀ l st, console (fold_left (add_project_tool false) l st)
                    = console st) as Hquiet.
    { induction l as [|t l IH]; intros st; [done|]. simpl. by rewrite IH. }
    by rewrite Hquiet, Hout.
  - intros Hnd overridden. rewrite merge_run_tools_of. cbn [andb snd].
    set (st0 := {| toolMap := JsMap.empty; overrideCount := 0; console := [] |}).
    destruct (user_loop_console (tools_of user) st0) as [Hcount Hout].
    destruct (project_loop_log (tools_of project)
                (fold_left add_user_tool (tools_of user) st0) Hnd)
      as [Hlog Hn].
    assert (filter (λ t, tool_name t ∈ JsMap.keys
                      (toolMap (fold_left add_user_tool (tools_of user) st0)))
              (tools_of project) = overridden) as Hfilter.
    { apply list_filter_iff. intros t.
      rewrite toolMap_user_loop, keys_set_all_elem.
      unfold JsMap.keys, JsMap.empty. simpl. rewrite elem_of_nil. tauto. }
    rewrite Hfilter in Hlog, Hn. rewrite Hlog, Hn, Hout, Hcount.
    clear Hfilter Hlog Hn. clearbody overridden.
    cbn [overrideCount console app Nat.add].
    destruct overridden as [|t0 rest].
    + rewrite (bool_decide_eq_false_2 (0 < length (@nil IndexedTool)))
        by (simpl; lia).
      by rewrite (bool_decide_eq_true_2 (@nil IndexedTool = [])).
    + rewrite (bool_decide_eq_true_2 (0 < length (t0 :: rest))) by (simpl; lia).
      by rewrite (bool_decide_eq_false_2 (t0 :: rest = [])).
Qed.

Lemma merge_debug_log_witness :
  (merge_run true
     (Some (mk_index [mk_tool "a" "project"; mk_tool "b" "project"]))
     (Some (mk_index [mk_tool "b" "user"; mk_tool "c" "user"]))).2
  = [override_message "b"; summary_message 1].
Proof.
  apply (proj2 (proj2 (merge_debug_log
    (Some (mk_index [mk_tool "a" "project"; mk_tool "b" "project"]))
    (Some (mk_index [mk_tool "b" "user"; mk_tool "c" "user"]))))
    ltac:(apply (bool_decide_unpack _); vm_compute; exact I)).
Defined.

(** X7. [hasAnyEmbeddings] does not depend on which index is the project
    and which the user index, and an absent index never contributes. *)
Theorem hasAnyEmbeddings_symmetric (project user : option PersistedIndex) :
  hasAnyEmbeddings project user = hasAnyEmbeddings user project
  ∧ hasAnyEmbeddings project user
    = hasAnyEmbeddings project None || hasAnyEmbeddings None user.
Proof.
  unfold hasAnyEmbeddings, nullish. simpl. split.
  - apply orb_comm.
  - by rewrite orb_false_r.
Qed.

(** * Further properties of the tool executor *)

Section executor_more.
Context {Net : Type} (E : Executor.Environment Net).
Implicit Types (s : Executor.ToolExecutor * Net) (serverName toolName : string)
  (this : Executor.ToolExecutor).

Lemma registerServers_fields (servers : list Executor.MergedServerEntry) this :
  Executor.clients (Executor.registerServers servers this) = Executor.clients this
  ∧ Executor.transports (Executor.registerServers servers this)
    = Executor.transports this
  ∧ Executor.connectionTimeout (Executor.registerServers servers this)
    = Executor.connectionTimeout this.
Proof.
  revert this. induction servers as [|sv servers IH]; intros this; [done|].
  simpl. destruct (IH (Executor.registerServer (Executor.name sv)
                         (Executor.config sv) this)) as (-> & -> & ->).
  done.
Qed.

Lemma registerServers_snoc (servers : list Executor.MergedServerEntry) sv this :
  Executor.registerServers (servers ++ [sv]) this
  = Executor.registerServer (Executor.name sv) (Executor.config sv)
      (Executor.registerServers servers this).
Proof. unfold Executor.registerServers. by rewrite fold_left_app. Qed.

Lemma getClient_frame s serverName o s' :
  Executor.getClient E serverName s = (o, s') → Connections.frame_at serverName s s'.
Proof.
  unfold Executor.getClient, Executor.bind, Executor.this, Executor.lift,
    Executor.update, Executor.await_connect, Executor.throw, Executor.ret.
  cbn [fst snd].
  destruct (Executor.clients s.1 !! serverName) as [c|] eqn:Hc.
  { intros [= <- <-]. unfold Connections.frame_at. naive_solver. }
  destruct (Executor.serverConfigs s.1 !! serverName) as [cfg|].
  2:{ intros [= <- <-]. unfold Connections.frame_at. naive_solver. }
  destruct (Executor.createTransport E cfg) as [tr|e].
  2:{ intros [= <- <-]. unfold Connections.frame_at. naive_solver. }
  cbn [fst snd Executor.connectionTimeout].
  destruct (Executor.race_connect E _ tr _ s.2) as [[|e|] net'];
    cbn [fst snd]; intros [= <- <-]; unfold Connections.frame_at;
    cbn [fst snd Executor.serverConfigs Executor.connectionTimeout
         Executor.clients Executor.transports];
    (split_and!; [done|done| |intros c0 Hc0; congruence]);
    intros m Hm; by rewrite ?lookup_insert_ne.
Qed.

Lemma callTool_states s serverName toolName arguments o s' :
  Executor.callTool E serverName toolName arguments s = (o, s') →
  ∃ g s1, Executor.getClient E serverName s = (g, s1) ∧ s'.1 = s1.1.
Proof.
  unfold Executor.callTool, Executor.try_catch, Executor.bind,
    Executor.await_callTool, Executor.ret.
  destruct (Executor.getClient E serverName s) as [[c|e] s1] eqn:Hget.
  - destruct (Executor.remote_callTool E c toolName arguments s1.2)
      as [[v|e] net']; cbn [fst snd]; intros [= <- <-]; by eexists _, _.
  - intros [= <- <-]. by eexists _, _.
Qed.
End executor_more.

(** X8. [registerServers] registers every entry: afterwards a server name is
    known exactly when it is in the list or was known before, the
    configuration found under a name is the one of the last entry with that
    name (else the one from before), and open connections are untouched. *)
Theorem registerServers_lookup (servers : list Executor.MergedServerEntry)
    (this : Executor.ToolExecutor) (n : string) :
  Executor.serverConfigs (Executor.registerServers servers this) !! n
    = match last (filter (λ sv, Executor.name sv = n) servers) with
      | Some sv => Some (Executor.config sv)
      | None => Executor.serverConfigs this !! n
      end
  ∧ (Executor.hasServer n (Executor.registerServers servers this) = true ↔
       (n ∈ Executor.name <$> servers) ∨ Executor.hasServer n this = true)
  ∧ Executor.clients (Executor.registerServers servers this)
    = Executor.clients this
  ∧ Executor.transports (Executor.registerServers servers this)
    = Executor.transports this.
Proof.
  assert (Executor.serverConfigs (Executor.registerServers servers this) !! n
          = match last (filter (λ sv, Executor.name sv = n) servers) with
            | Some sv => Some (Executor.config sv)
            | None => Executor.serverConfigs this !! n
            end) as Hlookup.
  { induction servers as [|sv servers IH] using rev_ind; [done|].
    rewrite registerServers_snoc, filter_app, filter_cons, filter_nil.
    unfold Executor.registerServer. cbn [Executor.serverConfigs].
    destruct (decide (Executor.name sv = n)) as [->|Hne].
    - by rewrite last_snoc, lookup_insert_eq.
    - by rewrite app_nil_r, lookup_insert_ne. }
  destruct (registerServers_fields servers this) as (Hc & Ht & _).
  split_and!; [exact Hlookup| |exact Hc|exact Ht].
  unfold Executor.hasServer. rewrite !bool_decide_eq_true, Hlookup.
  destruct (last (filter (λ sv, Executor.name sv = n) servers)) as [sv|] eqn:Hl.
  - split; [|by eexists]. intros _. left.
    apply last_Some_elem_of, list_elem_of_filter in Hl as [<- Hin].
    by apply list_elem_of_fmap_2.
  - split; [by right|]. intros [Hin|?]; [|done].
    apply last_None in Hl. apply list_elem_of_fmap in Hin as (sv & -> & Hin).
    assert (sv ∈ filter (λ sv', Executor.name sv' = Executor.name sv) servers)
      as Hsv by (by apply list_elem_of_filter).
    rewrite Hl in Hsv. by apply not_elem_of_nil in Hsv.
Qed.

(** X9. Connections are cached: once [getClient] has returned a client for
    a server, asking again returns the same client without touching the
    executor or the outside world, and it keeps doing so even after the
    server is registered again with another configuration. *)
Theorem getClient_reuses_connection {Net : Type}
    (E : Executor.Environment Net) (s s1 : Executor.ToolExecutor * Net)
    (serverName : string) (client : Executor.Client) :
  Executor.getClient E serverName s = (Executor.Returned client, s1) →
  Executor.clients s1.1 !! serverName = Some client
  ∧ Executor.getClient E serverName s1 = (Executor.Returned client, s1)
  ∧ ∀ other, Executor.getClient E serverName
               (Executor.registerServer serverName other s1.1, s1.2)
             = (Executor.Returned client,
                (Executor.registerServer serverName other s1.1, s1.2)).
Proof.
  intros Hget.
  assert (Executor.clients s1.1 !! serverName = Some client) as Hcached.
  { revert Hget.
    unfold Executor.getClient, Executor.bind, Executor.this, Executor.lift,
      Executor.update, Executor.await_connect, Executor.throw, Executor.ret.
    cbn [fst snd].
    destruct (Executor.clients s.1 !! serverName) as [c|] eqn:Hc.
    { intros [= <- <-]. done. }
    destruct (Executor.serverConfigs s.1 !! serverName) as [cfg|]; [|done].
    destruct (Executor.createTransport E cfg) as [tr|e]; [|done].
    cbn [fst snd Executor.connectionTimeout].
    destruct (Executor.race_connect E _ tr _ s.2) as [[|e|] net'];
      cbn [fst snd]; intros [= <- <-]. cbn.
    apply lookup_insert_eq. }
  split_and!; [done|by apply getClient_cached|].
  intros other. by apply getClient_cached.
Qed.

Lemma getClient_reuses_connection_witness :
  ∃ client s1,
    Executor.getClient Executor.sample_env "files" (Executor.sample_executor, 0)
      = (Executor.Returned client, s1)
    ∧ Executor.getClient Executor.sample_env "files" s1
      = (Executor.Returned client, s1).
Proof.
  assert (∃ client s1,
            Executor.getClient Executor.sample_env "files"
              (Executor.sample_executor, 0) = (Executor.Returned client, s1))
    as (client & s1 & Hget).
  { destruct (Executor.getClient Executor.sample_env "files"
                (Executor.sample_executor, 0)) as [[client|e] s1] eqn:Hget.
    - by exists client, s1.
    - vm_compute in Hget. discriminate Hget. }
  exists client, s1. split; [exact Hget|].
  apply (getClient_reuses_connection Executor.sample_env
           (Executor.sample_executor, 0) s1 "files" client Hget).
Defined.

(** X10. [callTool] never changes the registered configurations or the
    timeout, never touches the connection tables of another server, never
    drops a cached client, and changes nothing in the executor when the
    server already has a cached client. *)
Theorem callTool_frame {Net : Type} (E : Executor.Environment Net)
    (s s' : Executor.ToolExecutor * Net) (serverName toolName : string)
    (arguments : list (string * JsonValue))
    (o : Executor.Outcome Executor.ToolCallResult) :
  Executor.callTool E serverName toolName arguments s = (o, s') →
  Executor.serverConfigs s'.1 = Executor.serverConfigs s.1
  ∧ Executor.connectionTimeout s'.1 = Executor.connectionTimeout s.1
  ∧ (∀ m, m ≠ serverName →
       Executor.clients s'.1 !! m = Executor.clients s.1 !! m
       ∧ Executor.transports s'.1 !! m = Executor.transports s.1 !! m)
  ∧ (∀ m c, Executor.clients s.1 !! m = Some c →
       Executor.clients s'.1 !! m = Some c)
  ∧ (is_Some (Executor.clients s.1 !! serverName) → s'.1 = s.1).
Proof.
  intros Hrun.
  destruct (callTool_states E _ _ _ _ _ _ Hrun) as (g & s1 & Hget & Heq).
  destruct (getClient_frame E _ _ _ _ Hget) as (Hcfg & Htime & Hother & Hsame).
  rewrite Heq. split_and!; [done|done|done| |].
  - intros m c Hm. destruct (decide (m = serverName)) as [->|Hne].
    + destruct (Hsame c Hm) as [-> _]. done.
    + destruct (Hother m Hne) as [-> _]. done.
  - intros [c Hc]. destruct (Hsame c Hc) as [Hcl Htr].
    destruct s1 as [[cl tr cf tm] net1], s as [[cl0 tr0 cf0 tm0] net0].
    simpl in *. by subst.
Qed.

Lemma callTool_frame_witness :
  Executor.serverConfigs
    (Executor.callTool Executor.sample_env "files" "read_file" []
       (Executor.sample_executor, 0)).2.1
  = Executor.serverConfigs Executor.sample_executor.
Proof.
  apply (callTool_frame Executor.sample_env (Executor.sample_executor, 0)
           (Executor.callTool Executor.sample_env "files" "read_file" []
              (Executor.sample_executor, 0)).2
           "files" "read_file" []
           (Executor.callTool Executor.sample_env "files" "read_file" []
              (Executor.sample_executor, 0)).1).
  apply surjective_pairing.
Defined.



(** X12. How [createTransport] chooses: with neither a usable command nor a
    usable url the configuration is rejected; an explicit stdio transport
    ignores the url; a usable url with any other transport setting ignores
    the command and gives a URL transport or the parser's error, never a
    stdio transport; and a stdio transport is only ever built from the
    configured command and arguments.  An empty string counts as absent. *)
Theorem createTransport_selection {Net : Type} (E : Executor.Environment Net)
    (c : Executor.McpServerConfig) :
  (Executor.truthy (Executor.command c) = None →
   Executor.truthy (Executor.url c) = None →
   Executor.createTransport E c
   = Executor.Threw (Executor.ErrorObj Executor.invalid_config_message))
  ∧ (Executor.transport c = Some Executor.Stdio →
     Executor.truthy (Executor.command c) = None →
     Executor.createTransport E c
     = Executor.Threw (Executor.ErrorObj Executor.invalid_config_message))
  ∧ (∀ u, Executor.truthy (Executor.url c) = Some u →
          Executor.transport c ≠ Some Executor.Stdio →
          Executor.createTransport E c
          = match Executor.parse_url E u with
            | Executor.Returned parsed =>
                Executor.Returned
                  (match Executor.transport c with
                   | Some Executor.Sse => Executor.SSEClientTransport parsed
                   | _ => Executor.StreamableHTTPClientTransport parsed
                   end)
            | Executor.Threw e => Executor.Threw e
            end)
  ∧ (∀ cmd argv envi,
       Executor.createTransport E c
       = Executor.Returned (Executor.StdioClientTransport cmd argv envi) →
       Executor.truthy (Executor.command c) = Some cmd
       ∧ argv = default [] (Executor.args c)
       ∧ (Executor.truthy (Executor.url c) = None
          ∨ Executor.transport c = Some Executor.Stdio)).
Proof.
  unfold Executor.createTransport. split_and!.
  - intros -> ->. by destruct (Executor.transport c) as [[]|].
  - intros -> ->. by destruct (Executor.truthy (Executor.url c)).
  - intros u -> Hkind.
    destruct (Executor.transport c) as [[]|]; try done;
      by destruct (Executor.parse_url E u).
  - intros cmd argv envi.
    destruct (Executor.transport c) as [[]|],
      (Executor.truthy (Executor.url c)) as [u|];
      try destruct (Executor.parse_url E u);
      destruct (Executor.truthy (Executor.command c)) as [cmd'|];
      intros [=]; subst; auto.
Qed.

Lemma createTransport_selection_witness :
  Executor.createTransport Executor.sample_env
    {| Executor.transport := Some Executor.Http; Executor.url := Some "";
       Executor.command := None; Executor.args := None;
       Executor.env := None |}
  = Executor.Threw (Executor.ErrorObj Executor.invalid_config_message).
Proof.
  apply (proj1 (createTransport_selection Executor.sample_env
    {| Executor.transport := Some Executor.Http; Executor.url := Some "";
       Executor.command := None; Executor.args := None;
       Executor.env := None |})).
  - reflexivity.
  - reflexivity.
Defined.

Lemma process_env_lookup (penv : list (string * option string)) (k : string) :
  fold_left (λ (acc : gmap string string) kv,
               match kv.2 with
               | Some v => Executor.set_property kv.1 v acc
               | None => acc
               end) penv ∅ !! k
  = if decide (k = "__proto__") then None
    else last (omap (λ kv, if decide (kv.1 = k) then kv.2 else None) penv).
Proof.
  induction penv as [|[k' v'] penv IH] using rev_ind.
  { by destruct (decide (k = "__proto__")). }
  rewrite fold_left_app, omap_app, last_app. simpl.
  destruct v' as [v'|]; simpl.
  - unfold Executor.set_property at 1. rewrite eqb_decide.
    destruct (decide (k' = "__proto__")) as [->|Hproto].
    + rewrite bool_decide_eq_true_2 by done. rewrite IH.
      destruct (decide (k = "__proto__")) as [->|Hk]; [done|].
      by rewrite decide_False by done.
    + rewrite bool_decide_eq_false_2 by done.
      destruct (decide (k' = k)) as [->|Hne]; simpl.
      * rewrite lookup_insert_eq. by rewrite decide_False by done.
      * by rewrite lookup_insert_ne.
  - by destruct (decide (k' = k)).
Qed.

(** X13. The environment handed to a stdio server.  It never has a variable
    named "__proto__": the assignments that build it write to a plain
    object, where that name is not stored.  For every other name, a variable
    set in the configuration's [env] has that value; any other variable has
    the value the process environment defines for it, and is absent when the
    process environment leaves it undefined. *)
Theorem stdio_environment {Net : Type} (E : Executor.Environment Net)
    (c : Executor.McpServerConfig) (cmd : string) (argv : list string)
    (envi : gmap string string) (k : string) :
  Executor.createTransport E c
  = Executor.Returned (Executor.StdioClientTransport cmd argv envi) →
  envi !! k
  = if decide (k = "__proto__") then None
    else
      match Executor.env c ≫= (λ overrides, overrides !! k) with
      | Some v => Some v
      | None =>
          last (omap (λ kv, if decide (kv.1 = k) then kv.2 else None)
                  (Executor.process_env E))
      end.
Proof.
  unfold Executor.createTransport.
  destruct (Executor.transport c) as [[]|],
    (Executor.truthy (Executor.url c)) as [u|];
    try destruct (Executor.parse_url E u);
    destruct (Executor.truthy (Executor.command c)) as [cmd'|];
    intros [= <- <- <-];
    (destruct (Executor.env c) as [overrides|]; simpl;
     [ unfold Executor.object_assign;
       rewrite lookup_union, process_env_lookup;
       destruct (decide (k = "__proto__")) as [->|Hk];
       [ by rewrite lookup_delete_eq
       | rewrite lookup_delete_ne by done;
         by destruct (overrides !! k), (last _) ]
     | by rewrite process_env_lookup ]).
Qed.

Lemma stdio_environment_witness :
  ∃ envi,
    Executor.createTransport Connections.proto_env Connections.proto_config
    = Executor.Returned (Executor.StdioClientTransport "node" ["server.js"] envi)
    ∧ envi !! "__proto__" = None
    ∧ envi !! "NODE_ENV" = Some "production"
    ∧ envi !! "PATH" = Some "/usr/bin"
    ∧ envi !! "UNSET" = None.
Proof.
  destruct (Executor.createTransport Connections.proto_env
              Connections.proto_config)
    as [[| |cmd argv envi]|e] eqn:Hrun;
    try (vm_compute in Hrun; discriminate Hrun).
  assert (cmd = "node" ∧ argv = ["server.js"]) as [-> ->].
  { unfold Executor.createTransport in Hrun. simpl in Hrun.
    by injection Hrun as <- <- _. }
  exists envi. split; [done|].
  split_and!.
  - rewrite (stdio_environment Connections.proto_env Connections.proto_config
               "node" ["server.js"] envi "__proto__" Hrun).
    vm_compute. reflexivity.
  - rewrite (stdio_environment Connections.proto_env Connections.proto_config
               "node" ["server.js"] envi "NODE_ENV" Hrun).
    vm_compute. reflexivity.
  - rewrite (stdio_environment Connections.proto_env Connections.proto_config
               "node" ["server.js"] envi "PATH" Hrun).
    vm_compute. reflexivity.
  - rewrite (stdio_environment Connections.proto_env Connections.proto_config
               "node" ["server.js"] envi "UNSET" Hrun).
    vm_compute. reflexivity.
Defined.

(** X14. [closeConnection] never throws, even when [client.close()]
    rejects.  For a server with a cached client it removes the client and
    the transport; for a server without one it does nothing at all, so a
    transport left behind by a failed connection attempt stays.  Other
    servers and the registered configurations are never touched. *)
Theorem closeConnection_removes {Net : Type}
    (remote_close : Executor.Client → Net → Executor.Outcome unit * Net)
    (s : Executor.ToolExecutor * Net) (serverName : string) :
  ∃ s',
    Connections.closeConnection remote_close serverName s
      = (Executor.Returned (), s')
    ∧ Executor.clients s'.1 !! serverName = None
    ∧ (is_Some (Executor.clients s.1 !! serverName) →
       Executor.transports s'.1 !! serverName = None)
    ∧ (Executor.clients s.1 !! serverName = None → s' = s)
    ∧ (∀ m, m ≠ serverName →
         Executor.clients s'.1 !! m = Executor.clients s.1 !! m
         ∧ Executor.transports s'.1 !! m = Executor.transports s.1 !! m)
    ∧ Executor.serverConfigs s'.1 = Executor.serverConfigs s.1.
Proof.
  unfold Connections.closeConnection, Executor.bind, Executor.this,
    Executor.try_catch, Connections.await_close, Executor.update, Executor.ret.
  cbn [fst snd].
  destruct (Executor.clients s.1 !! serverName) as [client|] eqn:Hc.
  - destruct (remote_close client s.2) as [[[]|e] net']; cbn [fst snd];
      eexists; (split; [reflexivity|]);
      cbn [fst snd Executor.clients Executor.transports Executor.serverConfigs];
      (split_and!;
       [ apply lookup_delete_eq
       | intros _; apply lookup_delete_eq
       | intros Hnone; congruence
       | intros m Hm; by rewrite !lookup_delete_ne
       | done ]).
  - exists s. split_and!; done.
Qed.

Lemma closeConnection_removes_witness :
  ∃ s',
    Connections.closeConnection Connections.failing_close "files"
      (Executor.sample_executor, 0) = (Executor.Returned (), s')
    ∧ s' = (Executor.sample_executor, 0).
Proof.
  destruct (closeConnection_removes Connections.failing_close
              (Executor.sample_executor, 0) "files")
    as (s' & Hrun & _ & _ & Hnothing & _).
  exists s'. split; [exact Hrun|]. apply Hnothing. reflexivity.
Defined.

(** * The embedding provider registry and the index scopes *)

Lemma get_Some_keys {V} (k : string) (m : list (string * V)) :
  is_Some (JsMap.get k m) ↔ k ∈ JsMap.keys m.
Proof.
  induction m as [|[k' v'] m IH]; simpl.
  - split; [by intros [? ?]|by intros ?%not_elem_of_nil].
  - rewrite eqb_decide. change (JsMap.keys ((k', v') :: m))
      with (k' :: JsMap.keys m). rewrite elem_of_cons.
    destruct (decide (k' = k)) as [->|Hne].
    + rewrite bool_decide_eq_true_2 by done. split; [by left|by eexists].
    + rewrite bool_decide_eq_false_2 by done. rewrite IH.
      split; [by right|]. intros [->|?]; done.
Qed.

Lemma registered_snoc calls ty f :
  Registry.registered (calls ++ [(ty, f)])
  = Registry.register ty f (Registry.registered calls).
Proof. unfold Registry.registered. by rewrite fold_left_app. Qed.

Lemma registered_keys calls :
  NoDup (JsMap.keys (Registry.registered calls))
  ∧ ∀ ty, ty ∈ JsMap.keys (Registry.registered calls) ↔ ty ∈ calls.*1.
Proof.
  induction calls as [|[ty f] calls [IHnd IHin]] using rev_ind.
  - split; [constructor|]. intros ty. done.
  - rewrite registered_snoc. unfold Registry.register. split.
    + by apply NoDup_keys_set.
    + intros ty'. rewrite keys_set, fmap_app, elem_of_app. simpl.
      rewrite list_elem_of_singleton.
      case_bool_decide as Hin.
      * rewrite IHin. split; [by left|]. intros [?| ->]; [done|].
        by apply IHin.
      * rewrite elem_of_app, list_elem_of_singleton, IHin. done.
Qed.

(** X15. A registered factory is what [create] uses for its type, also for
    one of the built-in names (the custom factory shadows the built-in
    provider, whose constructor is then not called), and registering one
    type does not change what [create] does for any other type. *)
Theorem register_then_create (K : Registry.Constructors) (ty : string)
    (factory : Registry.ProviderFactory)
    (this : Registry.EmbeddingProviderRegistry)
    (c : Registry.EmbeddingProviderConfig) :
  (Registry.type c = ty →
   Registry.create K c (Registry.register ty factory this) = factory c)
  ∧ (Registry.type c ≠ ty →
     Registry.create K c (Registry.register ty factory this)
     = Registry.create K c this).
Proof.
  unfold Registry.create, Registry.register. split.
  - intros ->. by rewrite get_set_eq.
  - intros Hne. by rewrite get_set_ne.
Qed.

Lemma register_then_create_witness :
  Registry.create Registry.sample_constructors (Registry.sample_config "openai")
    (Registry.register "openai" Registry.sample_factory Registry.new_registry)
  = Executor.Returned (Registry.OtherProvider "openai" 8).
Proof.
  apply (proj1 (register_then_create Registry.sample_constructors "openai"
                  Registry.sample_factory Registry.new_registry
                  (Registry.sample_config "openai"))).
  reflexivity.
Defined.

(** X16. [create] and [getAvailableTypes] agree: for a type that is not
    listed, [create] throws the unknown-type error without calling any
    constructor or factory; for a listed type with no custom factory, it
    returns or throws what the constructor of the built-in class of that
    name does, given the model (and, for the two remote classes, the key,
    base and dimensions) of the configuration; with a custom factory, the
    type is listed and [create] returns or throws what that factory
    does. *)
Theorem create_available (K : Registry.Constructors)
    (this : Registry.EmbeddingProviderRegistry)
    (c : Registry.EmbeddingProviderConfig) :
  (Registry.type c ∉ Registry.getAvailableTypes this →
   Registry.create K c this
   = Executor.Threw
       (Executor.ErrorObj (Registry.unknown_type_message (Registry.type c))))
  ∧ (Registry.type c ∈ Registry.getAvailableTypes this →
     JsMap.get (Registry.type c) this = None →
     (Registry.type c = "local"
      ∧ Registry.create K c this
        = Registry.new_LocalEmbeddingProvider K (Registry.model c))
     ∨ (Registry.type c = "openai"
        ∧ Registry.create K c this
          = Registry.new_OpenAIEmbeddingProvider K (Registry.remote_options c))
     ∨ (Registry.type c = "voyage"
        ∧ Registry.create K c this
          = Registry.new_VoyageAIEmbeddingProvider K
              (Registry.remote_options c)))
  ∧ (∀ f, JsMap.get (Registry.type c) this = Some f →
          Registry.type c ∈ Registry.getAvailableTypes this
          ∧ Registry.create K c this = f c).
Proof.
  unfold Registry.getAvailableTypes, Registry.builtIn, Registry.create.
  split_and!.
  - intros Hnot.
    destruct (JsMap.get (Registry.type c) this) as [f|] eqn:Hget.
    + exfalso. apply Hnot. apply elem_of_app. right.
      apply get_Some_keys. by eexists.
    + rewrite !eqb_decide.
      repeat (rewrite bool_decide_eq_false_2;
              [|intros Heq; apply Hnot; rewrite Heq; set_solver]).
      done.
  - intros Hin Hnone. rewrite Hnone.
    apply elem_of_app in Hin as [Hin|Hin].
    + rewrite !elem_of_cons, elem_of_nil in Hin.
      destruct Hin as [Heq|[Heq|[Heq|[]]]]; rewrite Heq; simpl.
      * by left.
      * right. by left.
      * right. by right.
    + apply get_Some_keys in Hin as [f Hf]. congruence.
  - intros f Hf. rewrite Hf. split; [|done].
    apply elem_of_app. right. apply get_Some_keys. by eexists.
Qed.

Lemma create_available_witness :
  Registry.create Registry.sample_constructors (Registry.sample_config "cohere")
    Registry.new_registry
  = Executor.Threw
      (Executor.ErrorObj "Unknown embedding provider type: cohere").
Proof.
  apply (proj1 (create_available Registry.sample_constructors
                  Registry.new_registry (Registry.sample_config "cohere"))).
  apply (bool_decide_unpack _). vm_compute. exact I.
Defined.

(** X17. After any sequence of [register] calls on a new registry,
    [getAvailableTypes] lists the three built-in names first and then each
    registered type once; the list is free of duplicates exactly when no
    built-in name has been registered as a custom type. *)
Theorem getAvailableTypes_listing
    (calls : list (string * Registry.ProviderFactory)) :
  ∃ custom,
    Registry.getAvailableTypes (Registry.registered calls)
      = ["local"; "openai"; "voyage"] ++ custom
    ∧ NoDup custom
    ∧ (∀ ty, ty ∈ custom ↔ ty ∈ calls.*1)
    ∧ (NoDup (Registry.getAvailableTypes (Registry.registered calls)) ↔
         ∀ ty, ty ∈ calls.*1 → ty ∉ ["local"; "openai"; "voyage"]).
Proof.
  destruct (registered_keys calls) as [Hnd Hin].
  exists (JsMap.keys (Registry.registered calls)).
  split_and!; [done|done|done|].
  unfold Registry.getAvailableTypes, Registry.builtIn.
  rewrite NoDup_app. split.
  - intros (_ & Hdisj & _) ty Hty Hb. apply (Hdisj ty Hb). by apply Hin.
  - intros Hdisj. split_and!; [|by intros ty Hb ?%Hin%Hdisj|done].
    apply (bool_decide_unpack _). vm_compute. exact I.
Qed.

(** X18. Every index scope is a CLI scope, the string "all" is the only CLI
    scope that is not an index scope, and only a string can be a scope at
    all. *)
Theorem cli_scopes_extend_index_scopes (value : option JsonValue) :
  (Scopes.isCliScope value = true ↔
     Scopes.isIndexScope value = true ∨ value = Some (JString "all"))
  ∧ (Scopes.isIndexScope value = true ↔
       value = Some (JString "project") ∨ value = Some (JString "user")).
Proof.
  unfold Scopes.isCliScope, Scopes.isIndexScope, Scopes.includes,
    Scopes.CLI_SCOPES, Scopes.INDEX_SCOPES.
  destruct value as [[]|]; simpl; try (split; split; naive_solver).
  rewrite !bool_decide_eq_true. split.
  - rewrite !elem_of_cons, elem_of_nil. naive_solver.
  - rewrite !elem_of_cons, elem_of_nil. naive_solver.
Qed.

(** * Configuration fingerprints and the CLI version *)

Lemma createConfigFingerprint_returns (sys : Fingerprint.System)
    (filePath : string) :
  ∃ fp, Fingerprint.createConfigFingerprint sys filePath = Executor.Returned fp.
Proof.
  unfold Fingerprint.createConfigFingerprint, Fingerprint.outcome_catch,
    Fingerprint.outcome_bind.
  destruct (Fingerprint.existsSync sys filePath); simpl; [|by eexists].
  destruct (Fingerprint.readFileSync sys filePath) as [content|e];
    [|by eexists].
  destruct (Fingerprint.statSync_mtimeMs sys filePath) as [m|e]; by eexists.
Qed.

(** X19. [createConfigFingerprint] never throws.  The fingerprint says the
    file exists exactly when [existsSync] says so and reading and [stat]
    both succeed, and then it carries the digest of the content and the
    modification time; in every other case, a missing file as well as one
    that cannot be read, it is the bare [{exists: false}]. *)
Theorem createConfigFingerprint_total (sys : Fingerprint.System)
    (filePath : string) :
  ∃ fp,
    Fingerprint.createConfigFingerprint sys filePath = Executor.Returned fp
    ∧ (Fingerprint.exists_ fp = true ↔
         Fingerprint.existsSync sys filePath = true
         ∧ ∃ content m,
             Fingerprint.readFileSync sys filePath = Executor.Returned content
             ∧ Fingerprint.statSync_mtimeMs sys filePath = Executor.Returned m
             ∧ fp = {| Fingerprint.exists_ := true;
                       Fingerprint.hash :=
                         Some (Fingerprint.sha256_hex sys content);
                       Fingerprint.mtime := Some m |})
    ∧ (Fingerprint.exists_ fp = false → fp = Fingerprint.absent).
Proof.
  unfold Fingerprint.createConfigFingerprint, Fingerprint.outcome_catch,
    Fingerprint.outcome_bind.
  destruct (Fingerprint.existsSync sys filePath); simpl.
  - destruct (Fingerprint.readFileSync sys filePath) as [content|e].
    + destruct (Fingerprint.statSync_mtimeMs sys filePath) as [m|e].
      * eexists. split; [done|]. simpl. split; [|done].
        split; [|done]. intros _. split; [done|]. by exists content, m.
      * exists Fingerprint.absent. split; [done|]. simpl.
        split; [|done]. split; [done|]. by intros [_ (? & ? & ? & ? & ?)].
    + exists Fingerprint.absent. split; [done|]. simpl.
      split; [|done]. split; [done|]. by intros [_ (? & ? & ? & ? & ?)].
  - exists Fingerprint.absent. split; [done|]. simpl.
    split; [|done]. split; [done|]. by intros [? _].
Qed.

(** X20. [createAllConfigFingerprints] never throws, an omitted directory
    means the current working directory, and a scope name other than
    'project' and 'user' is read as 'local'. *)
Theorem createAllConfigFingerprints_total (sys : Fingerprint.System)
    (cwd : option string) (scope : string) :
  (∃ l p u,
     Fingerprint.createAllConfigFingerprints sys cwd
     = Executor.Returned {| Fingerprint.fp_local := l;
                            Fingerprint.fp_project := p;
                            Fingerprint.fp_user := u |}
     ∧ Fingerprint.createConfigFingerprint sys
         (Fingerprint.getConfigPath sys "local"
            (default (Fingerprint.process_cwd sys) cwd))
       = Executor.Returned l
     ∧ Fingerprint.createConfigFingerprint sys
         (Fingerprint.getConfigPath sys "project"
            (default (Fingerprint.process_cwd sys) cwd))
       = Executor.Returned p
     ∧ Fingerprint.createConfigFingerprint sys
         (Fingerprint.getConfigPath sys "user"
            (default (Fingerprint.process_cwd sys) cwd))
       = Executor.Returned u)
  ∧ Fingerprint.createAllConfigFingerprints sys None
    = Fingerprint.createAllConfigFingerprints sys
        (Some (Fingerprint.process_cwd sys))
  ∧ (scope ≠ "project" → scope ≠ "user" →
     ∀ dir, Fingerprint.getConfigPath sys scope dir
            = Fingerprint.getConfigPath sys "local" dir).
Proof.
  split_and!.
  - unfold Fingerprint.createAllConfigFingerprints.
    set (dir := default (Fingerprint.process_cwd sys) cwd).
    destruct (createConfigFingerprint_returns sys
                (Fingerprint.getConfigPath sys "local" dir)) as (l & Hl).
    destruct (createConfigFingerprint_returns sys
                (Fingerprint.getConfigPath sys "project" dir)) as (p & Hp).
    destruct (createConfigFingerprint_returns sys
                (Fingerprint.getConfigPath sys "user" dir)) as (u & Hu).
    exists l, p, u. rewrite Hl, Hp, Hu. done.
  - done.
  - intros Hp Hu dir. unfold Fingerprint.getConfigPath.
    rewrite !eqb_decide.
    rewrite (bool_decide_eq_false_2 (scope = "project")) by done.
    rewrite (bool_decide_eq_false_2 (scope = "user")) by done.
    done.
Qed.

Lemma createAllConfigFingerprints_total_witness :
  Fingerprint.getConfigPath Fingerprint.sample_system "all" "/work"
  = Fingerprint.getConfigPath Fingerprint.sample_system "local" "/work".
Proof.
  apply (proj2 (proj2 (createAllConfigFingerprints_total
                         Fingerprint.sample_system None "all"))).
  - discriminate.
  - discriminate.
Defined.

(** X21. [getCliVersion] never throws.  When the manifest beside the module
    exists, the one in the working directory is never consulted: the result
    is the manifest's [version] member, [undefined] when it has none, and
    'unknown' when reading or parsing it fails.  Without either manifest
    the result is 'unknown'. *)
Theorem getCliVersion_total (sys : Fingerprint.System) :
  (∃ v, Fingerprint.getCliVersion sys = Executor.Returned v)
  ∧ (∀ e, Fingerprint.module_directory sys = Executor.Threw e →
          Fingerprint.getCliVersion sys
          = Executor.Returned Fingerprint.unknown_version)
  ∧ (∀ dir,
       Fingerprint.module_directory sys = Executor.Returned dir →
       let beside := Fingerprint.join sys [dir; ".."; ".."; "package.json"] in
       let incwd :=
         Fingerprint.join sys [Fingerprint.process_cwd sys; "package.json"] in
       (Fingerprint.existsSync sys beside = true →
        Fingerprint.getCliVersion sys
        = Executor.Returned
            (match Fingerprint.read_version sys beside with
             | Executor.Returned v => v
             | Executor.Threw _ => Fingerprint.unknown_version
             end))
       ∧ (Fingerprint.existsSync sys beside = true →
          ∀ content fields,
            Fingerprint.readFileSync sys beside = Executor.Returned content →
            Fingerprint.JSON_parse sys content
              = Executor.Returned (JObject fields) →
            "version" ∉ fields.*1 →
            Fingerprint.getCliVersion sys = Executor.Returned None)
       ∧ (Fingerprint.existsSync sys beside = false →
          Fingerprint.existsSync sys incwd = false →
          Fingerprint.getCliVersion sys
          = Executor.Returned Fingerprint.unknown_version)).
Proof.
  assert (∀ dir,
       Fingerprint.module_directory sys = Executor.Returned dir →
       Fingerprint.existsSync sys
         (Fingerprint.join sys [dir; ".."; ".."; "package.json"]) = true →
       Fingerprint.getCliVersion sys
       = Executor.Returned
           (match Fingerprint.read_version sys
                    (Fingerprint.join sys [dir; ".."; ".."; "package.json"]) with
            | Executor.Returned v => v
            | Executor.Threw _ => Fingerprint.unknown_version
            end)) as Hbeside.
  { intros dir Hdir Hex. unfold Fingerprint.getCliVersion.
    rewrite Hdir. simpl. rewrite Hex.
    by destruct (Fingerprint.read_version sys _). }
  split_and!.
  - unfold Fingerprint.getCliVersion, Fingerprint.outcome_catch,
      Fingerprint.outcome_bind.
    destruct (Fingerprint.module_directory sys) as [dir|e]; [|by eexists].
    destruct (Fingerprint.existsSync sys _).
    + destruct (Fingerprint.read_version sys _); by eexists.
    + destruct (Fingerprint.existsSync sys _); [|by eexists].
      destruct (Fingerprint.read_version sys _); by eexists.
  - intros e He. unfold Fingerprint.getCliVersion. by rewrite He.
  - intros dir Hdir beside incwd. split_and!.
    + by apply Hbeside.
    + intros Hex content fields Hread Hparse Hnone.
      rewrite (Hbeside dir Hdir Hex). fold beside.
      unfold Fingerprint.read_version, Fingerprint.outcome_bind.
      rewrite Hread, Hparse. simpl. f_equal.
      apply last_None. clear Hparse.
      induction fields as [|[k v] fields IH]; [done|].
      rewrite fmap_cons, not_elem_of_cons in Hnone. destruct Hnone as [Hk Hrest].
      simpl in Hk. cbn [omap list_omap fst snd].
      rewrite eqb_decide, bool_decide_eq_false_2 by done.
      by apply IH.
    + intros Hno1 Hno2. unfold Fingerprint.getCliVersion.
      rewrite Hdir. simpl. fold beside incwd. by rewrite Hno1, Hno2.
Qed.

Lemma getCliVersion_total_witness :
  Fingerprint.getCliVersion Fingerprint.sample_system
  = Executor.Returned (Some (JString "0.2.4")).
Proof.
  destruct (getCliVersion_total Fingerprint.sample_system)
    as (_ & _ & Hdir).
  destruct (Hdir "/app/dist/utils" eq_refl) as (Hbeside & _).
  rewrite Hbeside; reflexivity.
Defined.

(** * The release script's validations *)

Section regex_facts.
Import Stdlib.Strings.Ascii.
Import Regex.
Implicit Types (r : re) (s : list Ascii.ascii) (c : Ascii.ascii).

Lemma accepts_eps s : Accepts Eps s ↔ s = [].
Proof. split; [by inversion 1|intros ->; constructor]. Qed.

Lemma accepts_never s : ¬ Accepts Never s.
Proof. inversion 1. Qed.

Lemma accepts_class p s : Accepts (Class p) s ↔ ∃ c, s = [c] ∧ p c = true.
Proof.
  split.
  - inversion 1; subst. by eexists.
  - intros (c & -> & Hp). by constructor.
Qed.

Lemma accepts_seq r1 r2 s :
  Accepts (Seq r1 r2) s ↔ ∃ s1 s2, s = s1 ++ s2 ∧ Accepts r1 s1 ∧ Accepts r2 s2.
Proof.
  split.
  - inversion 1; subst. by eexists _, _.
  - intros (s1 & s2 & -> & H1 & H2). by constructor.
Qed.

Lemma accepts_alt r1 r2 s : Accepts (Alt r1 r2) s ↔ Accepts r1 s ∨ Accepts r2 s.
Proof.
  split.
  - inversion 1; subst; [by left|by right].
  - intros [H|H]; [by apply AAltL|by apply AAltR].
Qed.

Lemma accepts_star_cons r c s :
  Accepts (Star r) (c :: s) ↔
    ∃ s1 s2, s = s1 ++ s2 ∧ Accepts r (c :: s1) ∧ Accepts (Star r) s2.
Proof.
  split.
  - intros H. remember (Star r) as r' eqn:Hr. remember (c :: s) as w eqn:Hw.
    revert s Hw. induction H as [| | | | | |r0 s1 s2 H1 _ H2 IH2];
      intros s' Hw; try discriminate.
    injection Hr as ->. destruct s1 as [|c1 s1]; simpl in Hw.
    + by apply IH2.
    + injection Hw as -> <-. by exists s1, s2.
  - intros (s1 & s2 & -> & H1 & H2).
    by apply (AStarCons r (c :: s1) s2).
Qed.

Lemma nullable_spec r : nullable r = true ↔ Accepts r [].
Proof.
  induction r as [| |p|r1 IH1 r2 IH2|r1 IH1 r2 IH2|r IH]; simpl.
  - split; [done|by intros ?%accepts_never].
  - split; [constructor|done].
  - split; [done|]. by intros (c & ? & _)%accepts_class.
  - rewrite andb_true_iff, IH1, IH2, accepts_seq. split.
    + intros [H1 H2]. by exists [], [].
    + intros (s1 & s2 & Hs & H1 & H2).
      symmetry in Hs. apply app_eq_nil in Hs as [-> ->]. done.
  - by rewrite orb_true_iff, IH1, IH2, accepts_alt.
  - split; [constructor|done].
Qed.

Lemma deriv_spec r : ∀ c s, Accepts (deriv c r) s ↔ Accepts r (c :: s).
Proof.
  induction r as [| |p|r1 IH1 r2 IH2|r1 IH1 r2 IH2|r IH]; intros c s; simpl.
  - split; by intros ?%accepts_never.
  - split; [by intros ?%accepts_never|by intros ?%accepts_eps].
  - destruct (p c) eqn:Hp.
    + rewrite accepts_eps, accepts_class. split.
      * intros ->. by exists c.
      * intros (c' & [= <- ->] & _). done.
    + split; [by intros ?%accepts_never|].
      intros (c' & [= <- ->] & Hp')%accepts_class. congruence.
  - assert (Accepts (Seq (deriv c r1) r2) s ↔
              ∃ s1 s2, s = s1 ++ s2 ∧ Accepts r1 (c :: s1) ∧ Accepts r2 s2)
      as Hleft.
    { rewrite accepts_seq. by setoid_rewrite IH1. }
    rewrite (accepts_seq r1 r2 (c :: s)).
    destruct (nullable r1) eqn:Hn.
    + rewrite accepts_alt, Hleft, IH2. split.
      * intros [(s1 & s2 & -> & H1 & H2)|H2].
        -- by exists (c :: s1), s2.
        -- apply nullable_spec in Hn. by exists [], (c :: s).
      * intros ([|c1 s1] & s2 & Hs & H1 & H2); simpl in Hs.
        -- right. by subst.
        -- injection Hs as <- ->. left. by exists s1, s2.
    + rewrite Hleft. split.
      * intros (s1 & s2 & -> & H1 & H2). by exists (c :: s1), s2.
      * intros ([|c1 s1] & s2 & Hs & H1 & H2); simpl in Hs.
        -- apply nullable_spec in H1. congruence.
        -- injection Hs as <- ->. by exists s1, s2.
  - by rewrite !accepts_alt, IH1, IH2.
  - rewrite accepts_seq, accepts_star_cons. by setoid_rewrite IH.
Qed.

Lemma matches_spec r s : matches r s = true ↔ Accepts r s.
Proof.
  revert r. induction s as [|c s IH]; intros r; simpl.
  - apply nullable_spec.
  - by rewrite IH, deriv_spec.
Qed.

Lemma accepts_lit c s : Accepts (Lit c) s ↔ s = [c].
Proof.
  unfold Lit. rewrite accepts_class. split.
  - intros (c' & -> & Heq). apply Ascii.eqb_eq in Heq. by subst.
  - intros ->. exists c. split; [done|]. apply Ascii.eqb_refl.
Qed.

Lemma accepts_star_class p s :
  Accepts (Star (Class p)) s ↔ Forall (λ c, p c = true) s.
Proof.
  induction s as [|c s IH].
  - split; [constructor|intros _; constructor].
  - rewrite accepts_star_cons, Forall_cons. split.
    + intros (s1 & s2 & -> & (c' & [= -> ->] & Hp)%accepts_class & H2).
      split; [done|]. by apply IH.
    + intros [Hp Hs]. exists [], s. split_and!; [done| |by apply IH].
      apply accepts_class. by exists c.
Qed.

Lemma accepts_plus_class p s :
  Accepts (Plus (Class p)) s ↔ s ≠ [] ∧ Forall (λ c, p c = true) s.
Proof.
  unfold Plus. rewrite accepts_seq. split.
  - intros (s1 & s2 & -> & (c & -> & Hp)%accepts_class & H2%accepts_star_class).
    split; [done|]. by constructor.
  - intros [Hne Hall]. destruct s as [|c s]; [done|].
    apply Forall_cons in Hall as [Hp Hall].
    exists [c], s. split_and!; [done| |by apply accepts_star_class].
    apply accepts_class. by exists c.
Qed.

Lemma accepts_repeat_class p n : ∀ s,
  Accepts (Repeat n (Class p)) s ↔ length s = n ∧ Forall (λ c, p c = true) s.
Proof.
  induction n as [|n IH]; intros s; simpl.
  - rewrite accepts_eps. split.
    + intros ->. by split.
    + intros [Hlen _]. by destruct s.
  - rewrite accepts_seq. split.
    + intros (s1 & s2 & -> & (c & -> & Hp)%accepts_class & [Hlen Hall]%IH).
      simpl. split; [by rewrite Hlen|by constructor].
    + intros [Hlen Hall]. destruct s as [|c s]; [done|].
      apply Forall_cons in Hall as [Hp Hall]. injection Hlen as Hlen.
      exists [c], s. split_and!; [done| |by apply IH].
      apply accepts_class. by exists c.
Qed.

Lemma accepts_opt r s : Accepts (Opt r) s ↔ s = [] ∨ Accepts r s.
Proof. unfold Opt. rewrite accepts_alt, accepts_eps. tauto. Qed.

Lemma accepts_seq_run p r s :
  Accepts (Seq (Plus (Class p)) r) s ↔
    ∃ s1 s2, s = s1 ++ s2 ∧ run p s1 ∧ Accepts r s2.
Proof. rewrite accepts_seq. by setoid_rewrite accepts_plus_class. Qed.

Lemma accepts_seq_lit c r s :
  Accepts (Seq (Lit c) r) s ↔ ∃ s2, s = c :: s2 ∧ Accepts r s2.
Proof.
  rewrite accepts_seq. setoid_rewrite accepts_lit. split.
  - intros (s1 & s2 & -> & -> & H2). by exists s2.
  - intros (s2 & -> & H2). by exists [c], s2.
Qed.

Lemma accepts_suffix s :
  Accepts (Opt (Seq (Lit "-"%char) (Plus (Class word_or_dot)))) s ↔
    s = [] ∨ ∃ pre, s = "-"%char :: pre ∧ run word_or_dot pre.
Proof.
  rewrite accepts_opt, accepts_seq_lit.
  by setoid_rewrite accepts_plus_class.
Qed.

Lemma accepts_version_body s :
  Accepts version_body s ↔
    ∃ major minor patch rest,
      s = major ++ "."%char :: minor ++ "."%char :: patch ++ rest
      ∧ run digit major ∧ run digit minor ∧ run digit patch
      ∧ (rest = [] ∨ ∃ pre, rest = "-"%char :: pre ∧ run word_or_dot pre).
Proof.
  unfold version_body. split.
  - intros (major & ? & -> & Hmajor &
            (? & -> & (minor & ? & -> & Hminor &
              (? & -> & (patch & rest & -> & Hpatch & Hrest%accepts_suffix)
                 %accepts_seq_run)%accepts_seq_lit)
                 %accepts_seq_run)%accepts_seq_lit)%accepts_seq_run.
    by exists major, minor, patch, rest.
  - intros (major & minor & patch & rest & -> & Hmajor & Hminor & Hpatch & Hrest).
    apply accepts_seq_run. eexists major, _. split_and!; [done..|].
    apply accepts_seq_lit. eexists. split; [done|].
    apply accepts_seq_run. eexists minor, _. split_and!; [done..|].
    apply accepts_seq_lit. eexists. split; [done|].
    apply accepts_seq_run. exists patch, rest. split_and!; [done..|].
    by apply accepts_suffix.
Qed.

Lemma accepts_tag s :
  Accepts tag_pattern s ↔
    ∃ prefix version,
      s = prefix ++ "-"%char :: "v"%char :: version
      ∧ run lower prefix ∧ Accepts version_pattern version.
Proof.
  unfold tag_pattern, version_pattern. split.
  - intros (prefix & ? & -> & Hprefix &
            (? & -> & (version & -> & Hversion)%accepts_seq_lit)
               %accepts_seq_lit)%accepts_seq_run.
    by exists prefix, version.
  - intros (prefix & version & -> & Hprefix & Hversion).
    apply accepts_seq_run. eexists prefix, _. split_and!; [done..|].
    apply accepts_seq_lit. eexists. split; [done|].
    apply accepts_seq_lit. eexists. split; [done|]. done.
Qed.

(** The characters a version or a tag is made of. *)
Lemma run_impl (p q : Ascii.ascii → bool) s :
  (∀ c, p c = true → q c = true) → run p s → Forall (λ c, q c = true) s.
Proof. intros Hpq [_ Hall]. eapply Forall_impl; [exact Hall|exact Hpq]. Qed.
End regex_facts.

Import Stdlib.Strings.Ascii.

Lemma length_list_ascii (s : string) :
  length (String.list_ascii_of_string s) = String.length s.
Proof. induction s as [|c s IH]; simpl; [done|by rewrite IH]. Qed.

Lemma test_accepts (r : Regex.re) (s : string) :
  Regex.test r s = true ↔ Regex.Accepts r (String.list_ascii_of_string s).
Proof. apply matches_spec. Qed.

Lemma hex_spec (c : Ascii.ascii) :
  Regex.hex c = true ↔
    c ∈ String.list_ascii_of_string "0123456789abcdefABCDEF".
Proof.
  rewrite <-(bool_decide_spec (c ∈ _)).
  destruct c as [[] [] [] [] [] [] [] []]; vm_compute; done.
Qed.

Lemma plain_spec (c : Ascii.ascii) :
  Regex.plain c = true ↔
    c ∈ String.list_ascii_of_string
          "abcdefghijklmnopqrstuvwxyzABCDEFGHIJKLMNOPQRSTUVWXYZ0123456789_.-".
Proof.
  rewrite <-(bool_decide_spec (c ∈ _)).
  destruct c as [[] [] [] [] [] [] [] []]; vm_compute; done.
Qed.

Lemma digit_plain (c : Ascii.ascii) : Regex.digit c = true → Regex.plain c = true.
Proof. unfold Regex.plain, Regex.word_or_dot, Regex.word. intros ->.
  by rewrite !orb_true_r. Qed.

Lemma lower_plain (c : Ascii.ascii) : Regex.lower c = true → Regex.plain c = true.
Proof. unfold Regex.plain, Regex.word_or_dot, Regex.word, Regex.lower. by intros ->. Qed.

Lemma word_or_dot_plain (c : Ascii.ascii) :
  Regex.word_or_dot c = true → Regex.plain c = true.
Proof. unfold Regex.plain. by intros ->. Qed.

Lemma version_plain (s : list Ascii.ascii) :
  Regex.Accepts Regex.version_pattern s → Forall (λ c, Regex.plain c = true) s.
Proof.
  intros (major & minor & patch & rest & -> & Hmajor & Hminor & Hpatch & Hrest)
    %accepts_version_body.
  repeat first [apply Forall_app_2 | apply Forall_cons_2]; try done;
    try (eapply run_impl; [apply digit_plain|done]).
  destruct Hrest as [->|(pre & -> & Hpre)]; [done|].
  apply Forall_cons_2; [done|].
  eapply run_impl; [apply word_or_dot_plain|done].
Qed.

Lemma string_append_cons (c : Ascii.ascii) (a b : string) :
  String c a +:+ b = String c (a +:+ b).
Proof. reflexivity. Qed.

Lemma string_length_append (a b : string) :
  String.length (a +:+ b) = (String.length a + String.length b)%nat.
Proof.
  induction a as [|c a IH]; [done|].
  rewrite string_append_cons. simpl. by rewrite IH.
Qed.

Lemma string_append_empty (a : string) : a +:+ "" = a.
Proof.
  induction a as [|c a IH]; [done|]. by rewrite string_append_cons, IH.
Qed.

Lemma string_of_list_ascii_app (a b : list Ascii.ascii) :
  String.string_of_list_ascii (a ++ b)
  = String.string_of_list_ascii a +:+ String.string_of_list_ascii b.
Proof.
  induction a as [|c a IH]; [done|].
  simpl. by rewrite string_append_cons, IH.
Qed.

Lemma list_ascii_of_string_app (a b : string) :
  String.list_ascii_of_string (a +:+ b)
  = String.list_ascii_of_string a ++ String.list_ascii_of_string b.
Proof.
  induction a as [|c a IH]; [done|].
  rewrite string_append_cons. simpl. by rewrite IH.
Qed.

Lemma checksum_accepts (s : string) :
  Regex.test Regex.checksum_pattern s = true ↔
    String.length s = 64%nat
    ∧ Forall (λ c, c ∈ String.list_ascii_of_string "0123456789abcdefABCDEF")
        (String.list_ascii_of_string s).
Proof.
  rewrite test_accepts. unfold Regex.checksum_pattern.
  rewrite accepts_repeat_class, length_list_ascii.
  by setoid_rewrite hex_spec.
Qed.

(** X22 ([downloadChecksum], the pattern of line 133): [/^[a-f0-9]{64}$/i]
    accepts a string exactly when it has 64 characters and each of them
    is a hexadecimal digit, in either case. *)
Theorem checksum_pattern_accepts (s : string) :
  Regex.test Regex.checksum_pattern s = true ↔
    String.length s = 64%nat
    ∧ Forall (λ c, c ∈ String.list_ascii_of_string "0123456789abcdefABCDEF")
        (String.list_ascii_of_string s).
Proof. apply checksum_accepts. Qed.

(** X23 ([main], the version check of line 233):
    [/^\d+\.\d+\.\d+(?:-[\w.]+)?$/] accepts exactly three non-empty runs of
    digits separated by dots, followed by nothing or by a hyphen and a
    non-empty run of word characters and dots. *)
Theorem version_pattern_accepts (s : string) :
  Regex.test Regex.version_pattern s = true ↔
    ∃ major minor patch rest,
      String.list_ascii_of_string s
        = major ++ "."%char :: minor ++ "."%char :: patch ++ rest
      ∧ Regex.run Regex.digit major
      ∧ Regex.run Regex.digit minor
      ∧ Regex.run Regex.digit patch
      ∧ (rest = []
         ∨ ∃ pre, rest = "-"%char :: pre ∧ Regex.run Regex.word_or_dot pre).
Proof. rewrite test_accepts. apply accepts_version_body. Qed.

(** X24 ([main], the tag check of line 239): a tag is accepted exactly when
    it is a non-empty run of lower-case letters, then "-v", then a version
    that the version check accepts. *)
Theorem tag_pattern_accepts (s : string) :
  Regex.test Regex.tag_pattern s = true ↔
    ∃ prefix version : string,
      s = prefix +:+ "-v" +:+ version
      ∧ Regex.run Regex.lower (String.list_ascii_of_string prefix)
      ∧ Regex.test Regex.version_pattern version = true.
Proof.
  rewrite test_accepts, accepts_tag. split.
  - intros (prefix & version & Hs & Hprefix & Hversion).
    exists (String.string_of_list_ascii prefix),
           (String.string_of_list_ascii version).
    rewrite test_accepts, !String.list_ascii_of_string_of_list_ascii.
    split_and!; [|done..].
    rewrite <-(String.string_of_list_ascii_of_string s), Hs.
    by rewrite string_of_list_ascii_app.
  - intros (prefix & version & -> & Hprefix & Hversion%test_accepts).
    exists (String.list_ascii_of_string prefix),
           (String.list_ascii_of_string version).
    split_and!; [|done..].
    by rewrite list_ascii_of_string_app.
Qed.

(** X25 ([main], lines 233 and 239): a version or a tag that passes its
    check consists of letters, digits, "_", "." and "-" only; so neither
    can hold a quote, a slash, white space or a line break when
    [generateFormula] pastes them into the formula. *)
Theorem validated_arguments_plain (s : string) :
  Regex.test Regex.version_pattern s = true
  ∨ Regex.test Regex.tag_pattern s = true →
  Forall
    (λ c, c ∈ String.list_ascii_of_string
            "abcdefghijklmnopqrstuvwxyzABCDEFGHIJKLMNOPQRSTUVWXYZ0123456789_.-")
    (String.list_ascii_of_string s).
Proof.
  intros H. eapply Forall_impl with (P := λ c, Regex.plain c = true);
    [|intros c; apply plain_spec].
  destruct H as [H%test_accepts|H%test_accepts].
  - by apply version_plain.
  - apply accepts_tag in H as (prefix & version & -> & Hprefix & Hversion).
    apply Forall_app_2; [eapply run_impl; [apply lower_plain|done]|].
    do 2 (apply Forall_cons_2; [done|]). by apply version_plain.
Qed.

Lemma validated_arguments_plain_witness :
  Forall
    (λ c, c ∈ String.list_ascii_of_string
            "abcdefghijklmnopqrstuvwxyzABCDEFGHIJKLMNOPQRSTUVWXYZ0123456789_.-")
    (String.list_ascii_of_string "mcp-v0.2.4-beta.1").
Proof.
  apply (validated_arguments_plain "mcp-v0.2.4-beta.1").
  right. vm_compute. reflexivity.
Defined.

(** X26 ([downloadChecksum]): whatever the network answers, a checksum
    that [downloadChecksum] returns has 64 characters, all hexadecimal
    digits; it is the first field of the body of a response that was
    [ok]. *)
Theorem downloadChecksum_returns
    (net : Formula.Network) (tag platform checksum : string) :
  Formula.downloadChecksum net tag platform = Executor.Returned checksum →
  String.length checksum = 64%nat
  ∧ Forall (λ c, c ∈ String.list_ascii_of_string "0123456789abcdefABCDEF")
      (String.list_ascii_of_string checksum)
  ∧ ∃ response content,
      Formula.fetch net (Formula.checksum_url tag platform)
        = Executor.Returned response
      ∧ Formula.ok response = true
      ∧ Formula.text response = Executor.Returned content
      ∧ checksum = Formula.first_field net content.
Proof.
  unfold Formula.downloadChecksum. intros H.
  destruct (Formula.fetch net _) as [response|e] eqn:Hfetch; [|done].
  destruct (Formula.ok response) eqn:Hok; simpl in H; [|done].
  destruct (Formula.text response) as [content|e] eqn:Htext; [|done].
  destruct (Regex.test _ _) eqn:Htest; simpl in H; [|done].
  injection H as <-. apply checksum_accepts in Htest as [Hlen Hall].
  split_and!; [done..|]. by exists response, content.
Qed.

Lemma downloadChecksum_returns_witness :
  String.length Formula.sample_digest = 64%nat
  ∧ Forall (λ c, c ∈ String.list_ascii_of_string "0123456789abcdefABCDEF")
      (String.list_ascii_of_string Formula.sample_digest)
  ∧ ∃ response content,
      Formula.fetch Formula.sample_network
        (Formula.checksum_url "mcp-v0.2.4" "darwin-x64")
        = Executor.Returned response
      ∧ Formula.ok response = true
      ∧ Formula.text response = Executor.Returned content
      ∧ Formula.sample_digest
        = Formula.first_field Formula.sample_network content.
Proof.
  apply (downloadChecksum_returns Formula.sample_network
           "mcp-v0.2.4" "darwin-x64" Formula.sample_digest).
  vm_compute. reflexivity.
Defined.

Lemma units_of_byte_cases (b : Ascii.ascii) :
  Formula.units_of_byte b = 0%nat ∨ Formula.units_of_byte b = 1%nat
  ∨ Formula.units_of_byte b = 2%nat.
Proof.
  unfold Formula.units_of_byte.
  repeat (destruct (_ <? _)%nat); auto.
Qed.

Lemma utf16_length_append (a b : string) :
  Formula.utf16_length (a +:+ b)
  = (Formula.utf16_length a + Formula.utf16_length b)%nat.
Proof.
  induction a as [|c a IH]; [done|].
  rewrite string_append_cons. simpl. rewrite IH. lia.
Qed.

Lemma utf16_length_slice_to (s : string) : ∀ stop : nat,
  Formula.utf16_length (Formula.slice_to stop s)
  = (stop `min` Formula.utf16_length s)%nat.
Proof.
  induction s as [|b s IH]; intros stop; simpl; [lia|].
  destruct (Nat.leb_spec (Formula.units_of_byte b) stop) as [Hfit|Hcut].
  - simpl. rewrite IH. lia.
  - destruct (Nat.eqb_spec stop 0) as [->|Hstop]; [done|].
    change (Formula.utf16_length Formula.replacement) with 1%nat.
    destruct (units_of_byte_cases b) as [Hw|[Hw|Hw]]; lia.
Qed.

Lemma slice_to_all (s : string) : ∀ stop : nat,
  (Formula.utf16_length s ≤ stop)%nat → Formula.slice_to stop s = s.
Proof.
  induction s as [|b s IH]; intros stop Hlen; simpl in *; [done|].
  destruct (Nat.leb_spec (Formula.units_of_byte b) stop) as [Hfit|Hcut];
    [|lia].
  rewrite IH; [done|lia].
Qed.

Lemma slice_to_cut (s : string) : ∀ stop : nat,
  (stop < Formula.utf16_length s)%nat →
  ∃ kept b rest,
    s = kept +:+ String b rest
    ∧ ((Formula.utf16_length kept = stop
        ∧ Formula.units_of_byte b ≠ 0%nat
        ∧ Formula.slice_to stop s = kept)
       ∨ (S (Formula.utf16_length kept) = stop
          ∧ Formula.units_of_byte b = 2%nat
          ∧ Formula.slice_to stop s = kept +:+ Formula.replacement)).
Proof.
  induction s as [|a s IH]; intros stop Hlen; simpl in *; [lia|].
  destruct (Nat.leb_spec (Formula.units_of_byte a) stop) as [Hfit|Hcut].
  - destruct (IH (stop - Formula.units_of_byte a)%nat)
      as (kept & b & rest & -> & Hcase); [lia|].
    exists (String a kept), b, rest. split; [done|].
    destruct Hcase as [(Hkept & Hb & ->)|(Hkept & Hb & ->)].
    + left. simpl. split_and!; [lia|done|done].
    + right. simpl. split_and!; [lia|done|done].
  - exists EmptyString, a, s. split; [done|].
    destruct (Nat.eqb_spec stop 0) as [->|Hstop].
    + left. split_and!; [done|lia|done].
    + right. destruct (units_of_byte_cases a) as [Hw|[Hw|Hw]];
        split_and!; simpl; first [done|lia].
Qed.

(** X27 ([downloadChecksum], the message of line 135): what the error for a
    malformed checksum quotes, counted in UTF-16 code units as [length] and
    [slice] count.  A checksum of up to 20 units is quoted whole.  A longer
    one is quoted as its first 20 units followed by "..."; when the 20th
    unit is the first half of a surrogate pair, that half is all that is
    left of the character.  The quoted text never has more than 23
    units. *)
Theorem invalid_checksum_shown (checksum : string) :
  (Formula.utf16_length (Formula.shown checksum) ≤ 23)%nat
  ∧ ((Formula.utf16_length checksum ≤ 20)%nat →
     Formula.shown checksum = checksum)
  ∧ ((20 < Formula.utf16_length checksum)%nat →
     ∃ kept b rest,
       checksum = kept +:+ String b rest
       ∧ ((Formula.utf16_length kept = 20%nat
           ∧ Formula.units_of_byte b ≠ 0%nat
           ∧ Formula.shown checksum = kept +:+ "...")
          ∨ (Formula.utf16_length kept = 19%nat
             ∧ Formula.units_of_byte b = 2%nat
             ∧ Formula.shown checksum
               = kept +:+ Formula.replacement +:+ "..."))).
Proof.
  unfold Formula.shown.
  destruct (Nat.ltb_spec 20 (Formula.utf16_length checksum)) as [Hlong|Hshort].
  - rewrite utf16_length_append, utf16_length_slice_to.
    change (Formula.utf16_length "...") with 3%nat.
    split_and!; [lia|intros ?; exfalso; lia|intros _].
    destruct (slice_to_cut checksum 20 Hlong)
      as (kept & b & rest & Heq & Hcase).
    exists kept, b, rest. split; [done|].
    destruct Hcase as [(Hkept & Hb & ->)|(Hkept & Hb & ->)].
    + left. by split_and!.
    + right. split_and!; [lia|done|].
      clear. induction kept as [|c kept IH]; [done|].
      by rewrite !string_append_cons, IH.
  - rewrite string_append_empty, utf16_length_slice_to.
    split_and!; [lia|intros _; by apply slice_to_all|intros ?; exfalso; lia].
Qed.

Lemma invalid_checksum_shown_witness :
  Formula.shown "お探しのページは見つかりません" = "お探しのページは見つかりません"
  ∧ ∃ kept b rest,
      "<!DOCTYPE html><html lang=en>" = kept +:+ String b rest
      ∧ ((Formula.utf16_length kept = 20%nat
          ∧ Formula.units_of_byte b ≠ 0%nat
          ∧ Formula.shown "<!DOCTYPE html><html lang=en>" = kept +:+ "...")
         ∨ (Formula.utf16_length kept = 19%nat
            ∧ Formula.units_of_byte b = 2%nat
            ∧ Formula.shown "<!DOCTYPE html><html lang=en>"
              = kept +:+ Formula.replacement +:+ "...")).
Proof.
  split.
  - apply (invalid_checksum_shown "お探しのページは見つかりません").
    vm_compute. lia.
  - apply (invalid_checksum_shown "<!DOCTYPE html><html lang=en>").
    vm_compute. lia.
Defined.
